(** * PhotonAPI: rate limiter, middleware pipeline and request lifecycle

    A shallow embedding of [photonapi/limiter.py], of
    [MiddlewarePipeline] from [photonapi/middleware.py] and of
    [PhotonAPI.__call__] from [photonapi/app.py], followed by the
    properties of the specification that concern them.

    Conventions of the embedding.
    - Python [int]s are [Z].
    - Python [float]s (clock readings, token counts, window lengths) are
      rationals.  Every float operation of the source is the exact
      rational operation followed by a rounding [fl : Q -> Q]; taking the
      identity for [fl] gives exact arithmetic.  The theorems only ask
      [fl] to be monotone and to fix the few values named in their
      hypotheses.
    - [time.monotonic()] is an explicit argument [now] of every operation
      that reads the clock.
    - A [str] is a [string] whose characters are code points below 256.
    - Locks are not modelled: every method body is one atomic step. *)

From Stdlib Require Import QArith Qround ZArith Lia Lqa Bool Ascii String Sorted.
From Stdlib Require Import DecimalString.
From stdpp Require Import gmap strings list.
From Equations.Prop Require Import Equations Logic.

Local Open Scope Z_scope.

(** ** Float operations *)

Module Float.
Section Ops.
Variable fl : Q -> Q.

Definition add (a b : Q) : Q := fl (a + b)%Q.
Definition sub (a b : Q) : Q := fl (a - b)%Q.
Definition mul (a b : Q) : Q := fl (a * b)%Q.
Definition div (a b : Q) : Q := fl (a / b)%Q.
End Ops.

(** [a < b] and [a <= b] as the interpreter decides them. *)
Definition ltb (a b : Q) : bool := negb (Qle_bool b a).
Definition leb (a b : Q) : bool := Qle_bool a b.

(** The builtin [min(a, b)]: [b] when [b < a], otherwise [a]. *)
Definition min (a b : Q) : Q := if ltb b a then b else a.

(** Exact arithmetic. *)
Definition exact : Q -> Q := fun x => x.
End Float.

(** ** [class TokenBucket] *)

Module TokenBucket.

Record t : Type := mk {
  capacity : Q;
  tokens : Q;
  refill_rate : Q;
  last_refill : Q
}.

(** [__init__(capacity, refill_rate)], run when the clock reads [now]. *)
Definition init (capacity refill_rate now : Q) : t :=
  mk capacity capacity refill_rate now.

Section Ops.
Variable fl : Q -> Q.

(** [min(self.capacity, self.tokens + elapsed * self.refill_rate)] with
    [elapsed = now - self.last_refill]. *)
Definition refilled (b : t) (now : Q) : Q :=
  let elapsed := Float.sub fl now (last_refill b) in
  Float.min (capacity b)
    (Float.add fl (tokens b) (Float.mul fl elapsed (refill_rate b))).

Definition consume (b : t) (cost now : Q) : bool * t :=
  let tokens1 := refilled b now in
  if Float.leb cost tokens1
  then (true, mk (capacity b) (Float.sub fl tokens1 cost) (refill_rate b) now)
  else (false, mk (capacity b) tokens1 (refill_rate b) now).

(** The property [remaining]: a projection, nothing is stored. *)
Definition remaining (b : t) (now : Q) : Q := refilled b now.

(** The invariant of the bucket. *)
Definition bucket_ok (b : t) : Prop :=
  (0 <= refill_rate b)%Q /\ (fl (capacity b) == capacity b)%Q
  /\ (0 <= tokens b)%Q /\ (tokens b <= capacity b)%Q.

(** The buckets that exist at run time: one built with a capacity and
    a refill rate that are not negative, then any number of [consume]
    calls with costs that are not negative, each at a clock reading
    not before the previous one. *)
Inductive reachable : t -> Prop :=
| reach_init (capacity refill_rate now : Q) :
    (0 <= capacity)%Q -> (0 <= refill_rate)%Q ->
    (fl capacity == capacity)%Q ->
    reachable (init capacity refill_rate now)
| reach_consume (b : t) (cost now : Q) :
    reachable b -> (0 <= cost)%Q -> (last_refill b <= now)%Q ->
    reachable (snd (consume b cost now)).
End Ops.

End TokenBucket.

(** ** [class SlidingWindowCounter] *)

Module SlidingWindowCounter.

Record t : Type := mk {
  limit : Z;
  window : Q;
  _hits : list Q
}.

Definition init (limit : Z) (window_seconds : Q) : t :=
  mk limit window_seconds [].

Section Ops.
Variable fl : Q -> Q.

(** [cutoff = now - self.window] *)
Definition cutoff (s : t) (now : Q) : Q := Float.sub fl now (window s).

(** [[t for t in self._hits if t > cutoff]] *)
Definition kept (s : t) (now : Q) : list Q :=
  List.filter (fun h => Float.ltb (cutoff s now) h) (_hits s).

(** [for _ in range(cost): self._hits.append(now)]; [range] of a
    number that is not positive is empty. *)
Definition hit (s : t) (cost : Z) (now : Q) : bool * t :=
  let hits1 := kept s now in
  if Z.of_nat (length hits1) + cost <=? limit s
  then (true, mk (limit s) (window s) (hits1 ++ repeat now (Z.to_nat cost)))
  else (false, mk (limit s) (window s) hits1).

Definition remaining (s : t) (now : Q) : Z :=
  let current := Z.of_nat (length (kept s now)) in
  Z.max 0 (limit s - current).

(** [self._hits[0] + self.window] when the list is not empty. *)
Definition reset_at (s : t) (now : Q) : Q :=
  match _hits s with
  | h :: _ => Float.add fl h (window s)
  | [] => Float.add fl now (window s)
  end.

(** [h] lies in the trailing window [(cutoff, now]] of the counter. *)
Definition in_window (s : t) (now h : Q) : bool :=
  Float.ltb (cutoff s now) h && Float.leb h now.

(** [history s recorded last]: the counter [s] was built and then hit
    any number of times, at clock readings that never go back, the
    latest being [last]; [recorded] lists, oldest first, every
    timestamp a successful call appended, also those the counter has
    purged since. *)
Inductive history : t -> list Q -> Q -> Prop :=
| hist_init (limit : Z) (window_seconds now : Q) :
    history (init limit window_seconds) [] now
| hist_hit (s : t) (recorded : list Q) (last : Q) (cost : Z) (now : Q) :
    history s recorded last -> (last <= now)%Q ->
    history (snd (hit s cost now))
      (if fst (hit s cost now)
       then recorded ++ repeat now (Z.to_nat cost) else recorded)
      now.
End Ops.

End SlidingWindowCounter.

(** ** [class FixedWindowCounter] *)

Module FixedWindowCounter.

Record t : Type := mk {
  limit : Z;
  window : Q;
  _count : Z;
  _window_start : Q
}.

Definition init (limit : Z) (window_seconds now : Q) : t :=
  mk limit window_seconds 0 now.

Section Ops.
Variable fl : Q -> Q.

(** [now - self._window_start >= self.window] *)
Definition expired (s : t) (now : Q) : bool :=
  Float.leb (window s) (Float.sub fl now (_window_start s)).

(** The first [if] of [hit]: a new window opens. *)
Definition rolled (s : t) (now : Q) : t :=
  if expired s now then mk (limit s) (window s) 0 now else s.

Definition hit (s : t) (cost : Z) (now : Q) : bool * t :=
  let s1 := rolled s now in
  if _count s1 + cost <=? limit s1
  then (true, mk (limit s1) (window s1) (_count s1 + cost) (_window_start s1))
  else (false, s1).

Definition remaining (s : t) (now : Q) : Z :=
  if expired s now then limit s else Z.max 0 (limit s - _count s).

Definition reset_at (s : t) : Q := Float.add fl (_window_start s) (window s).

(** The counters that exist at run time when the limit and the costs
    are not negative: one just built, then any number of [hit] calls. *)
Inductive reachable : t -> Prop :=
| reach_init (limit : Z) (window_seconds now : Q) :
    0 <= limit -> reachable (init limit window_seconds now)
| reach_hit (s : t) (cost : Z) (now : Q) :
    reachable s -> 0 <= cost -> reachable (snd (hit s cost now)).
End Ops.

End FixedWindowCounter.

(** ** Builtin string operations used by [_parse_rate] *)

Module Str.

Definition code (c : ascii) : N := N_of_ascii c.

(** Characters that [str.strip()] removes. *)
Definition isspace (c : ascii) : bool :=
  let n := code c in
  ((9 <=? n) && (n <=? 13) || (28 <=? n) && (n <=? 32)
   || (n =? 133) || (n =? 160))%N.

(** Characters that [int()] accepts around a literal. *)
Definition int_space (c : ascii) : bool :=
  let n := code c in
  ((9 <=? n) && (n <=? 13) || (n =? 32) || (n =? 133) || (n =? 160))%N.

Definition isdigit (c : ascii) : bool :=
  let n := code c in ((48 <=? n) && (n <=? 57))%N.

Definition digit_value (c : ascii) : Z := Z.of_N (code c) - 48.

Fixpoint lstrip_with (p : ascii -> bool) (s : string) : string :=
  match s with
  | EmptyString => EmptyString
  | String c r => if p c then lstrip_with p r else s
  end.

Fixpoint rstrip_with (p : ascii -> bool) (s : string) : string :=
  match s with
  | EmptyString => EmptyString
  | String c r =>
      match rstrip_with p r with
      | EmptyString => if p c then EmptyString else String c EmptyString
      | r' => String c r'
      end
  end.

Definition strip_with (p : ascii -> bool) (s : string) : string :=
  rstrip_with p (lstrip_with p s).

(** [s.strip()] *)
Definition strip (s : string) : string := strip_with isspace s.

(** [s.split(sep)] for a separator of one character: never empty. *)
Fixpoint split (sep : ascii) (s : string) : list string :=
  match s with
  | EmptyString => [EmptyString]
  | String c r =>
      if Ascii.eqb c sep then EmptyString :: split sep r
      else match split sep r with
           | p :: ps => String c p :: ps
           | [] => [String c EmptyString]
           end
  end.

(** [s.lower()] on code points below 256. *)
Definition lower_char (c : ascii) : ascii :=
  let n := code c in
  if ((65 <=? n) && (n <=? 90)
      || (192 <=? n) && (n <=? 222) && negb (n =? 215))%N
  then ascii_of_N (n + 32) else c.

Fixpoint lower (s : string) : string :=
  match s with
  | EmptyString => EmptyString
  | String c r => String (lower_char c) (lower r)
  end.

(** The digits of a base-10 literal, single underscores allowed between
    digits; [after_digit] tells whether the previous character was one. *)
Fixpoint digits (acc : Z) (after_digit : bool) (s : string) : option Z :=
  match s with
  | EmptyString => if after_digit then Some acc else None
  | String c r =>
      if isdigit c then digits (10 * acc + digit_value c) true r
      else if Ascii.eqb c "_" then
             if after_digit then digits acc false r else None
           else None
  end.

(** [int(s)]: [None] stands for the [ValueError] it raises. *)
Definition int (s : string) : option Z :=
  match strip_with int_space s with
  | String "+" r => digits 0 false r
  | String "-" r => Z.opp <$> digits 0 false r
  | s' => digits 0 false s'
  end.

(** Number of occurrences of a character. *)
Fixpoint count (sep : ascii) (s : string) : nat :=
  match s with
  | EmptyString => O
  | String c r => (if Ascii.eqb c sep then 1 else 0) + count sep r
  end%nat.

End Str.

(** ** [_parse_rate] *)

(** Why a [ValueError] was raised: the two messages of [_parse_rate] and
    the one of [int()]. *)
Inductive value_error : Type :=
| InvalidRateFormat (rate_string : string)
| InvalidLiteral (literal : string)
| UnknownTimePeriod (period : string).

Inductive exn : Type :=
| ValueError (why : value_error).

Inductive result (A : Type) : Type :=
| Return (a : A)
| Raise (e : exn).
Arguments Return {A} a.
Arguments Raise {A} e.

Definition multipliers : list (string * Z) :=
  [("s", 1); ("sec", 1); ("second", 1);
   ("m", 60); ("min", 60); ("minute", 60);
   ("h", 3600); ("hr", 3600); ("hour", 3600);
   ("d", 86400); ("day", 86400)]%string.

Fixpoint dict_get {V : Type} (d : list (string * V)) (k : string) : option V :=
  match d with
  | [] => None
  | (k', v) :: d' => if String.eqb k' k then Some v else dict_get d' k
  end.

Definition _parse_rate (rate_string : string) : result (Z * Z) :=
  match Str.split "/" (Str.strip rate_string) with
  | [count_part; period_part] =>
      match Str.int count_part with
      | None => Raise (ValueError (InvalidLiteral count_part))
      | Some count =>
          let period := Str.lower (Str.strip period_part) in
          match dict_get multipliers period with
          | None => Raise (ValueError (UnknownTimePeriod period))
          | Some seconds => Return (count, seconds)
          end
      end
  | _ => Raise (ValueError (InvalidRateFormat rate_string))
  end.

(** The strings [<count>/<period>] of the specification: around one
    slash, an integer literal and a period of the table, spaces and
    letter case aside. *)
Definition rate_form (s : string) (count seconds : Z) : Prop :=
  exists a b : string,
    Str.strip s = a +:+ String "/" b
    /\ Str.count "/" a = 0%nat /\ Str.count "/" b = 0%nat
    /\ Str.int a = Some count
    /\ dict_get multipliers (Str.lower (Str.strip b)) = Some seconds.

(** ** [class RateLimiter] *)

Module RateLimiter.

(** What the registry stores under a bucket key; [isinstance] is the
    match on the constructor. *)
Inductive Bucket : Type :=
| Token (b : TokenBucket.t)
| Sliding (b : SlidingWindowCounter.t)
| Fixed (b : FixedWindowCounter.t).

(** The answer of a Redis server to [RedisRateLimiter.check(key, limit,
    window)], an input of the model: [(allowed, remaining)]. *)
Definition RedisCheck : Type := string -> Z -> Z -> bool * Z.

(** What a wrapper built by [limit], [shared_limit] or [dynamic] does
    with a request: it returns [fn(req, res, ...)], or it returns the 429
    response of [_rate_exceeded], or an exception leaves it. *)
Inductive Outcome : Type :=
| Handler
| RateExceeded (msg : string) (limit : Z)
| Raised (e : exn).

Section WithRequest.
(** The request object; the limiter only passes it to key, cost and
    rate callbacks. *)
Variable Req : Type.
Variable fl : Q -> Q.

(** The fields of the limiter that decide whether a request passes.
    [headers_enabled] and [on_exceeded] only write to the response or
    call back and are left out, as are the response headers and the
    [Retry-After] value: they read buckets without changing them. *)
Record t : Type := mk {
  key_func : Req -> string;
  strategy : string;
  enabled : bool;
  _buckets : gmap string Bucket;
  _route_limits : gmap string (Z * Z * string);
  _redis_limiter : option RedisCheck;
  _whitelist : gset string;
  _blacklist : gset string
}.

(** [RateLimiter(key_func=..., strategy=..., enabled=...,
    redis_client=...)] *)
Definition init (key_func : Req -> string) (strategy : string)
    (enabled : bool) (redis : option RedisCheck) : t :=
  mk key_func strategy enabled ∅ ∅ redis ∅ ∅.

Definition set_buckets (rl : t) (bs : gmap string Bucket) : t :=
  mk (key_func rl) (strategy rl) (enabled rl) bs (_route_limits rl)
     (_redis_limiter rl) (_whitelist rl) (_blacklist rl).

Definition whitelist_key (rl : t) (key : string) : t :=
  mk (key_func rl) (strategy rl) (enabled rl) (_buckets rl)
     (_route_limits rl) (_redis_limiter rl)
     ({[key]} ∪ _whitelist rl) (_blacklist rl).

Definition blacklist_key (rl : t) (key : string) : t :=
  mk (key_func rl) (strategy rl) (enabled rl) (_buckets rl)
     (_route_limits rl) (_redis_limiter rl)
     (_whitelist rl) ({[key]} ∪ _blacklist rl).

(** [f"{key}:{scope}"] *)
Definition bucket_key (key scope : string) : string :=
  key +:+ ":" +:+ scope.

(** The bucket a fresh key gets, by strategy.  [window] is a value of
    [multipliers], never 0, so the division is defined. *)
Definition new_bucket (rl : t) (limit window : Z) (now : Q) : Bucket :=
  if String.eqb (strategy rl) "token-bucket" then
    Token (TokenBucket.init (inject_Z limit)
             (Float.div fl (inject_Z limit) (inject_Z window)) now)
  else if String.eqb (strategy rl) "fixed-window" then
    Fixed (FixedWindowCounter.init limit (inject_Z window) now)
  else
    Sliding (SlidingWindowCounter.init limit (inject_Z window)).

(** [_get_bucket]: the registry after the call and the bucket found
    under [bucket_key].  Python returns a reference to the stored
    object; here the caller writes the bucket back under the same
    key after using it (see [use_bucket]). *)
Definition _get_bucket (rl : t) (key scope : string) (limit window : Z)
    (now : Q) : Bucket * t :=
  let bk := bucket_key key scope in
  match _buckets rl !! bk with
  | Some b => (b, rl)
  | None =>
      let b := new_bucket rl limit window now in
      (b, set_buckets rl (<[bk := b]> (_buckets rl)))
  end.

(** [bucket.hit(cost)] or [bucket.consume(cost)], by [isinstance]. *)
Definition bucket_take (b : Bucket) (cost : Z) (now : Q) : bool * Bucket :=
  match b with
  | Sliding s =>
      let '(ok, s') := SlidingWindowCounter.hit fl s cost now in
      (ok, Sliding s')
  | Fixed s =>
      let '(ok, s') := FixedWindowCounter.hit fl s cost now in
      (ok, Fixed s')
  | Token s =>
      let '(ok, s') := TokenBucket.consume fl s (inject_Z cost) now in
      (ok, Token s')
  end.

(** The common tail of the three wrappers: fetch the bucket, charge it
    in place, answer. *)
Definition use_bucket (rl : t) (client_key scope : string)
    (count window cost : Z) (msg : string) (now : Q) : Outcome * t :=
  let '(bucket, rl1) := _get_bucket rl client_key scope count window now in
  let '(ok, bucket') := bucket_take bucket cost now in
  let rl2 :=
    set_buckets rl1 (<[bucket_key client_key scope := bucket']> (_buckets rl1)) in
  if ok then (Handler, rl2) else (RateExceeded msg count, rl2).

(** [use_bucket] with the two clock readings of the call told apart:
    the constructor of a bucket that [_get_bucket] creates reads the
    clock at [created], then [hit] or [consume] reads it at [now].
    [use_bucket] is the call during which the clock does not advance. *)
Definition use_bucket_at (rl : t) (client_key scope : string)
    (count window cost : Z) (msg : string) (created now : Q) : Outcome * t :=
  let '(bucket, rl1) :=
    _get_bucket rl client_key scope count window created in
  let '(ok, bucket') := bucket_take bucket cost now in
  let rl2 :=
    set_buckets rl1 (<[bucket_key client_key scope := bucket']> (_buckets rl1)) in
  if ok then (Handler, rl2) else (RateExceeded msg count, rl2).

(** [custom_message or "Rate limit exceeded"] *)
Definition exceeded_message (custom_message : option string) : string :=
  match custom_message with
  | Some m => if String.eqb m "" then "Rate limit exceeded" else m
  | None => "Rate limit exceeded"
  end.

(** *** [limit] *)

(** The closure [decorator] that [limit(rate_string, ...)] returns. *)
Record LimitDecorator : Type := mkLimitDecorator {
  ld_count : Z;
  ld_window : Z;
  ld_rate_string : string;
  ld_key_func : option (Req -> string);
  ld_cost : Req -> Z;
  ld_error_message : option string;
  ld_scope : option string
}.

(** The closure [wrapper] that [decorator(fn)] returns. *)
Record LimitWrapper : Type := mkLimitWrapper {
  lw_decorator : LimitDecorator;
  lw_fn_scope : string
}.

Definition limit (rate_string : string) (key_func : option (Req -> string))
    (cost : Req -> Z) (error_message scope : option string)
    : result LimitDecorator :=
  match _parse_rate rate_string with
  | Raise e => Raise e
  | Return (count, window) =>
      Return (mkLimitDecorator count window rate_string key_func cost
                error_message scope)
  end.

(** [per_user] and [per_endpoint] are [limit] with fixed arguments;
    [user_key] is [lambda req: getattr(req, user_field, req.remote_addr)]. *)
Definition per_user (rate_string : string) (user_key : Req -> string)
    : result LimitDecorator :=
  limit rate_string (Some user_key) (fun _ => 1) None None.

Definition per_endpoint (rate_string : string) : result LimitDecorator :=
  limit rate_string None (fun _ => 1) None None.

(** [decorator(fn)], where [fn_name] is
    [f"{fn.__module__}.{fn.__name__}"]. *)
Definition limit_decorate (d : LimitDecorator) (fn_name : string) (rl : t)
    : LimitWrapper * t :=
  let fn_scope :=
    match ld_scope d with
    | Some s => if String.eqb s "" then fn_name else s
    | None => fn_name
    end in
  (mkLimitWrapper d fn_scope,
   mk (key_func rl) (strategy rl) (enabled rl) (_buckets rl)
      (<[fn_scope := (ld_count d, ld_window d, ld_rate_string d)]>
         (_route_limits rl))
      (_redis_limiter rl) (_whitelist rl) (_blacklist rl)).

Definition limit_wrapper (w : LimitWrapper) (rl : t) (req : Req) (now : Q)
    : Outcome * t :=
  let d := lw_decorator w in
  if negb (enabled rl) then (Handler, rl) else
  let kfn := default (key_func rl) (ld_key_func d) in
  let client_key := kfn req in
  if decide (client_key ∈ _whitelist rl) then (Handler, rl) else
  if decide (client_key ∈ _blacklist rl)
  then (RateExceeded "Access denied" (ld_count d), rl) else
  match _redis_limiter rl with
  | Some check =>
      let '(allowed, remaining) :=
        check (bucket_key client_key (lw_fn_scope w)) (ld_count d)
              (ld_window d) in
      if allowed then (Handler, rl)
      else (RateExceeded (exceeded_message (ld_error_message d))
              (ld_count d), rl)
  | None =>
      use_bucket rl client_key (lw_fn_scope w) (ld_count d) (ld_window d)
        (ld_cost d req) (exceeded_message (ld_error_message d)) now
  end.

(** The wrapper with the two clock readings of [use_bucket_at]. *)
Definition limit_wrapper_at (w : LimitWrapper) (rl : t) (req : Req)
    (created now : Q) : Outcome * t :=
  let d := lw_decorator w in
  if negb (enabled rl) then (Handler, rl) else
  let kfn := default (key_func rl) (ld_key_func d) in
  let client_key := kfn req in
  if decide (client_key ∈ _whitelist rl) then (Handler, rl) else
  if decide (client_key ∈ _blacklist rl)
  then (RateExceeded "Access denied" (ld_count d), rl) else
  match _redis_limiter rl with
  | Some check =>
      let '(allowed, remaining) :=
        check (bucket_key client_key (lw_fn_scope w)) (ld_count d)
              (ld_window d) in
      if allowed then (Handler, rl)
      else (RateExceeded (exceeded_message (ld_error_message d))
              (ld_count d), rl)
  | None =>
      use_bucket_at rl client_key (lw_fn_scope w) (ld_count d) (ld_window d)
        (ld_cost d req) (exceeded_message (ld_error_message d)) created now
  end.

(** *** [shared_limit] *)

Record SharedDecorator : Type := mkSharedDecorator {
  sd_count : Z;
  sd_window : Z;
  sd_scope_name : string;
  sd_key_func : option (Req -> string);
  sd_cost : Req -> Z
}.

Definition shared_limit (rate_string scope_name : string)
    (key_func : option (Req -> string)) (cost : Req -> Z)
    : result SharedDecorator :=
  match _parse_rate rate_string with
  | Raise e => Raise e
  | Return (count, window) =>
      Return (mkSharedDecorator count window scope_name key_func cost)
  end.

(** [decorator(fn)] captures nothing of [fn] but the call, so the
    wrapper is the decorator's closure itself. *)
Definition shared_wrapper (d : SharedDecorator) (rl : t) (req : Req)
    (now : Q) : Outcome * t :=
  if negb (enabled rl) then (Handler, rl) else
  let kfn := default (key_func rl) (sd_key_func d) in
  let client_key := kfn req in
  if decide (client_key ∈ _whitelist rl) then (Handler, rl) else
  match _redis_limiter rl with
  | Some check =>
      let '(allowed, remaining) :=
        check (bucket_key client_key (sd_scope_name d)) (sd_count d)
              (sd_window d) in
      if allowed then (Handler, rl)
      else (RateExceeded (exceeded_message None) (sd_count d), rl)
  | None =>
      use_bucket rl client_key (sd_scope_name d) (sd_count d) (sd_window d)
        (sd_cost d req) (exceeded_message None) now
  end.

(** *** [dynamic] *)

(** [dynamic(rate_func)] returns [decorator] without doing anything;
    [decorator(fn)] returns the wrapper below, [fn_name] being
    [f"{fn.__module__}.{fn.__name__}"].  Neither can raise. *)
Record DynamicWrapper : Type := mkDynamicWrapper {
  dw_rate_func : Req -> string;
  dw_fn_name : string
}.

Definition dynamic (rate_func : Req -> string) (fn_name : string)
    : DynamicWrapper :=
  mkDynamicWrapper rate_func fn_name.

Definition dynamic_wrapper (w : DynamicWrapper) (rl : t) (req : Req)
    (now : Q) : Outcome * t :=
  if negb (enabled rl) then (Handler, rl) else
  let rate_string := dw_rate_func w req in
  match _parse_rate rate_string with
  | Raise e => (Raised e, rl)
  | Return (count, window) =>
      let client_key := key_func rl req in
      let scope := dw_fn_name w in
      use_bucket rl client_key scope count window 1 (exceeded_message None)
        now
  end.

(** A sequence of requests to one route decorated with [limit], each
    with the two clock readings [(created, now)] of its call: the
    outcomes in order and the limiter at the end. *)
Fixpoint serve (w : LimitWrapper) (rl : t) (requests : list (Req * (Q * Q)))
    : list Outcome * t :=
  match requests with
  | [] => ([], rl)
  | (req, (created, now)) :: rest =>
      let '(outcome, rl1) := limit_wrapper_at w rl req created now in
      let '(outcomes, rl2) := serve w rl1 rest in
      (outcome :: outcomes, rl2)
  end.

(** [reset] *)
Definition reset (rl : t) : t := set_buckets rl ∅.

(** The test of [_cleanup_expired] on one bucket:
    [isinstance(bucket, SlidingWindowCounter)] and
    [not bucket._hits or (now - bucket._hits[-1]) > bucket.window * 2]. *)
Definition cleanup_expired (b : Bucket) (now : Q) : bool :=
  match b with
  | Sliding s =>
      match SlidingWindowCounter._hits s with
      | [] => true
      | h :: rest =>
          Float.ltb (Float.mul fl (SlidingWindowCounter.window s) 2)
            (Float.sub fl now (List.last rest h))
      end
  | _ => false
  end.

(** [_cleanup_expired]: the keys that pass the test are deleted. *)
Definition _cleanup_expired (rl : t) (now : Q) : t :=
  set_buckets rl
    (filter (fun kb => cleanup_expired (snd kb) now = false) (_buckets rl)).

End WithRequest.

Arguments key_func {Req}.
Arguments strategy {Req}.
Arguments enabled {Req}.
Arguments _buckets {Req}.
Arguments _route_limits {Req}.
Arguments _redis_limiter {Req}.
Arguments _whitelist {Req}.
Arguments _blacklist {Req}.

End RateLimiter.

(** ** The request object and the key functions of [limiter.py] *)

Module Request.

(** What the key functions and the middlewares read of a request.
    [headers name] is [req.headers.get(name)]; [user_id] is
    [getattr(req, "user_id", None)]. *)
Record t : Type := mk {
  method : string;
  remote_addr : string;
  scheme : string;
  host : string;
  headers : string -> option string;
  user_id : option string
}.

End Request.

(** [if value:] on what [headers.get] returned: there and not empty. *)
Definition truthy (value : option string) : option string :=
  match value with
  | Some v => if String.eqb v "" then None else Some v
  | None => None
  end.

(** [s.split(",")[0]]: what stands before the first comma. *)
Definition first_field (s : string) : string :=
  match Str.split "," s with
  | first :: _ => first
  | [] => EmptyString
  end.

Definition get_remote_address (req : Request.t) : string :=
  match truthy (Request.headers req "X-Forwarded-For") with
  | Some forwarded => Str.strip (first_field forwarded)
  | None =>
      match truthy (Request.headers req "X-Real-IP") with
      | Some real_ip => Str.strip real_ip
      | None => Request.remote_addr req
      end
  end.

(** [req.headers.get("X-Api-Key", req.remote_addr)] *)
Definition get_api_key (req : Request.t) : string :=
  default (Request.remote_addr req) (Request.headers req "X-Api-Key").

(** [getattr(req, "user_id", None) or req.remote_addr] *)
Definition get_user_id (req : Request.t) : string :=
  default (Request.remote_addr req) (truthy (Request.user_id req)).

(** ** [Request.__init__] *)

(** The WSGI environ: [environ key] is [environ.get(key)], the values
    the constructor reads being strings. *)
Definition Environ : Type := string -> option string.

(** [int(environ.get("CONTENT_LENGTH") or 0)], the one statement of
    [Request.__init__] that can raise: every other one assigns what
    [environ.get] returns, with a default. *)
Definition content_length (environ : Environ) : result Z :=
  match truthy (environ "CONTENT_LENGTH") with
  | Some literal =>
      match Str.int literal with
      | Some n => Return n
      | None => Raise (ValueError (InvalidLiteral literal))
      end
  | None => Return 0
  end.

(** ** [class MiddlewarePipeline] *)

Module MiddlewarePipeline.

Section Pipeline.
(** [St] is everything a middleware or a handler can change: the
    contents of the request and response objects and whatever else
    they reach.  [R] is what they return. *)
Variables Req Res R St : Type.

(** A call that may change the state and returns a value. *)
Definition M (A : Type) : Type := St -> A * St.

Definition ret {A : Type} (a : A) : M A := fun s => (a, s).

Definition bind {A B : Type} (m : M A) (k : A -> M B) : M B :=
  fun s => let '(a, s1) := m s in k a s1.

(** [mw(req, res, next_mw)]: the continuation takes no argument. *)
Definition Middleware : Type := Req -> Res -> M R -> M R.

Definition FinalHandler : Type := Req -> Res -> M R.

Record t : Type := mk { _stack : list Middleware }.

Definition init : t := mk [].

Definition add (p : t) (middleware : Middleware) : t :=
  mk (_stack p ++ [middleware]).

(** The inner function [execute] of [run].  [chain !! index] is [None]
    exactly when [index >= len(chain)].  [next_mw] is
    [execute (index + 1)]; the flag [called_next] that it sets is read
    once, by an [if] whose two branches are the same [return result],
    so it does not appear. *)
Equations? execute (chain : list Middleware) (req : Req) (res : Res)
    (final_handler : FinalHandler) (index : nat) : M R
    by wf (length chain - index)%nat lt :=
  execute chain req res final_handler index
    with inspect (chain !! index) := {
    | exist _ None _ => final_handler req res
    | exist _ (Some mw) Hmw =>
        mw req res (execute chain req res final_handler (S index)) }.
Proof.
  apply lookup_lt_Some in Hmw. lia.
Qed.

Definition run (p : t) (req : Req) (res : Res)
    (final_handler : FinalHandler) : M R :=
  let chain := _stack p in
  execute chain req res final_handler 0.

(** A pipeline built by [add]ing the middlewares of a list in order. *)
Definition of_list (mws : list Middleware) : t :=
  fold_left add mws init.

(** The calls of a chain written as the nesting they amount to: each
    middleware receives the rest of the chain as its continuation. *)
Fixpoint nest (mws : list Middleware) (req : Req) (res : Res)
    (final_handler : FinalHandler) : M R :=
  match mws with
  | [] => final_handler req res
  | mw :: rest => mw req res (nest rest req res final_handler)
  end.

(** [mw] entered in state [s] returns without calling its
    continuation: what it does there is the same whatever the
    continuation is. *)
Definition skips_next (mw : Middleware) (req : Req) (res : Res) (s : St)
    : Prop :=
  forall k k' : M R, mw req res k s = mw req res k' s.

(** [def mw(req, res, next): before(req, res); result = next();
    after(req, res, result); return result] *)
Definition wrapping (before : Req -> Res -> M unit)
    (after : Req -> Res -> R -> M unit) : Middleware :=
  fun req res next_fn =>
    bind (before req res) (fun _ =>
    bind next_fn (fun result =>
    bind (after req res result) (fun _ =>
    ret result))).

(** The state after the [before] parts of a list of wrapping
    middlewares, first to last, and after their [after] parts, last to
    first. *)
Definition Wrap : Type :=
  (Req -> Res -> M unit) * (Req -> Res -> R -> M unit).

Definition wrap (w : Wrap) : Middleware := wrapping (fst w) (snd w).

Fixpoint enter_all (ws : list Wrap) (req : Req) (res : Res) (s : St) : St :=
  match ws with
  | [] => s
  | w :: rest => enter_all rest req res (snd (fst w req res s))
  end.

Fixpoint exit_all (ws : list Wrap) (req : Req) (res : Res) (result : R)
    (s : St) : St :=
  match ws with
  | [] => s
  | w :: rest => snd (snd w req res result (exit_all rest req res result s))
  end.

End Pipeline.

Arguments ret {St A} a.
Arguments bind {St A B} m k.
Arguments _stack {Req Res R St} _.
Arguments init {Req Res R St}.
Arguments add {Req Res R St} p middleware.
Arguments execute {Req Res R St} chain req res final_handler index.
Arguments run {Req Res R St} p req res final_handler.
Arguments of_list {Req Res R St} mws.
Arguments nest {Req Res R St} mws req res final_handler.
Arguments skips_next {Req Res R St} mw req res s.
Arguments wrapping {Req Res R St} before after.
Arguments wrap {Req Res R St} w.
Arguments enter_all {Req Res R St} ws req res s.
Arguments exit_all {Req Res R St} ws req res result s.

(** *** Middlewares that log *)

(** The state is the log, nothing else. *)
Definition log (msg : string) : M (list string) unit :=
  fun s => (tt, s ++ [msg]).

Section Logging.
Variables Req Res R : Type.

(** [def mw(req, res, next): log(name-enter); result = next();
    log(name-exit); return result] *)
Definition logging_wrap (name : string) : Wrap Req Res R (list string) :=
  (fun req res => log (name +:+ "-enter"),
   fun req res result => log (name +:+ "-exit")).

Definition logging_mw (name : string) : Middleware Req Res R (list string) :=
  wrap (logging_wrap name).

(** [def handler(req, res): log("handle"); return r] *)
Definition logging_handler (r : R) : FinalHandler Req Res R (list string) :=
  fun req res => bind (log "handle") (fun _ => ret r).

(** [def mw(req, res, next): log(name-enter); return r], which never
    calls [next]. *)
Definition stopping_mw (name : string) (r : R)
    : Middleware Req Res R (list string) :=
  fun req res next_fn => bind (log (name +:+ "-enter")) (fun _ => ret r).

(** [def mw(req, res, next): next(); return r], which drops what its
    continuation returned. *)
Definition replacing_mw (r : R) : Middleware Req Res R (list string) :=
  fun req res next_fn => bind next_fn (fun _ => ret r).
End Logging.

Arguments logging_wrap {Req Res R} name.
Arguments logging_mw {Req Res R} name.
Arguments logging_handler {Req Res R} r.
Arguments stopping_mw {Req Res R} name r.
Arguments replacing_mw {Req Res R} r.

End MiddlewarePipeline.


(** ** [str] of an integer and [join] *)

(** [str(n)] for an integer and [sep.join(parts)]. *)
Definition str_of_Z (n : Z) : string := NilZero.string_of_int (Z.to_int n).

Fixpoint join (sep : string) (parts : list string) : string :=
  match parts with
  | [] => EmptyString
  | [part] => part
  | part :: rest => part +:+ sep +:+ join sep rest
  end.

(** ** [class Response] *)

Module Response.

(** [json.dumps(data, default=str)] of a flat dictionary of strings is
    kept as the dictionary it serialises. *)
Inductive Body : Type :=
| Text (content : string)
| JsonDumps (data : list (string * string)).

Record t : Type := mk {
  body : Body;
  status_code : Z;
  _headers : list (string * string);
  _cookies : list string
}.

(** [d[k] = v] on a dictionary kept in insertion order. *)
Fixpoint dict_set (d : list (string * string)) (k v : string)
    : list (string * string) :=
  match d with
  | [] => [(k, v)]
  | (k', v') :: d' =>
      if String.eqb k' k then (k', v) :: d' else (k', v') :: dict_set d' k v
  end.

(** [Response()] *)
Definition init : t := mk (Text "") 200 [("Content-Type", "text/html")]%string [].

Definition _status_phrases : list (Z * string) :=
  [(200, "OK"); (201, "Created"); (204, "No Content");
   (301, "Moved Permanently"); (302, "Found"); (304, "Not Modified");
   (400, "Bad Request"); (401, "Unauthorized"); (403, "Forbidden");
   (404, "Not Found"); (405, "Method Not Allowed"); (409, "Conflict");
   (429, "Too Many Requests");
   (500, "Internal Server Error"); (502, "Bad Gateway");
   (503, "Service Unavailable")]%string.

Fixpoint phrase_get (d : list (Z * string)) (code : Z) : string :=
  match d with
  | [] => "Unknown"
  | (c, p) :: d' => if c =? code then p else phrase_get d' code
  end.

(** The property [status], [f"{self.status_code} {phrase}"], as the pair
    of its two parts. *)
Definition status (r : t) : Z * string :=
  (status_code r, phrase_get _status_phrases (status_code r)).

Definition set_header (r : t) (key value : string) : t :=
  mk (body r) (status_code r) (dict_set (_headers r) key value) (_cookies r).

Definition json (r : t) (data : list (string * string)) (status : Z) : t :=
  mk (JsonDumps data) status
     (dict_set (_headers r) "Content-Type" "application/json; charset=utf-8")
     (_cookies r).

Definition build_headers (r : t) : list (string * string) :=
  _headers r ++ map (fun cookie => ("Set-Cookie"%string, cookie)) (_cookies r).

(** [d.get(k)] *)
Fixpoint dict_get (d : list (string * string)) (k : string) : option string :=
  match d with
  | [] => None
  | (k', v) :: d' => if String.eqb k' k then Some v else dict_get d' k
  end.

Definition get_header (r : t) (key : string) : option string :=
  dict_get (_headers r) key.

Definition html (r : t) (content : string) (status : Z) : t :=
  mk (Text content) status
     (dict_set (_headers r) "Content-Type" "text/html; charset=utf-8")
     (_cookies r).

Definition text (r : t) (content : string) (status : Z) : t :=
  mk (Text content) status
     (dict_set (_headers r) "Content-Type" "text/plain; charset=utf-8")
     (_cookies r).

Definition redirect (r : t) (url : string) (permanent : bool) : t :=
  mk (Text "") (if permanent then 301 else 302)
     (dict_set (_headers r) "Location" url) (_cookies r).

(** [set_cookie(name, value, max_age, path, domain, secure, httponly,
    samesite)], the name and the value being strings. *)
Definition set_cookie (r : t) (name value : string) (max_age : option Z)
    (path : string) (domain : option string) (secure httponly : bool)
    (samesite : string) : t :=
  let parts := [name +:+ "=" +:+ value; "Path=" +:+ path;
                "SameSite=" +:+ samesite] in
  let parts := match max_age with
               | Some n => parts ++ ["Max-Age=" +:+ str_of_Z n]
               | None => parts
               end in
  let parts := match truthy domain with
               | Some d => parts ++ ["Domain=" +:+ d]
               | None => parts
               end in
  let parts := if secure then parts ++ ["Secure"%string] else parts in
  let parts := if httponly then parts ++ ["HttpOnly"%string] else parts in
  mk (body r) (status_code r) (_headers r) (_cookies r ++ [join "; " parts]).

Definition delete_cookie (r : t) (name path : string) : t :=
  set_cookie r name "" (Some 0) path None false false "Lax".

(** The responses a handler can build: a new one, then any of the
    methods above. *)
Inductive built : t -> Prop :=
| built_init : built init
| built_set_header (r : t) (key value : string) :
    built r -> built (set_header r key value)
| built_json (r : t) (data : list (string * string)) (status : Z) :
    built r -> built (json r data status)
| built_html (r : t) (content : string) (status : Z) :
    built r -> built (html r content status)
| built_text (r : t) (content : string) (status : Z) :
    built r -> built (text r content status)
| built_redirect (r : t) (url : string) (permanent : bool) :
    built r -> built (redirect r url permanent)
| built_set_cookie (r : t) (name value : string) (max_age : option Z)
    (path : string) (domain : option string) (secure httponly : bool)
    (samesite : string) :
    built r ->
    built (set_cookie r name value max_age path domain secure httponly
             samesite)
| built_delete_cookie (r : t) (name path : string) :
    built r -> built (delete_cookie r name path).

End Response.

(** ** Middlewares of [middleware.py] *)

Module Middlewares.

(** What a middleware can read and change: the request and the response
    of the exchange. *)
Record Exchange : Type := mkExchange {
  request : Request.t;
  response : Response.t
}.

Definition set_response (s : Exchange) (r : Response.t) : Exchange :=
  mkExchange (request s) r.

Definition set_header (key value : string) (s : Exchange) : Exchange :=
  set_response s (Response.set_header (response s) key value).

(** [if collection:] on a set that may be [None]. *)
Definition set_truthy (o : option (gset string)) : bool :=
  match o with
  | Some members => bool_decide (members <> ∅)
  | None => false
  end.

Definition set_contains (o : option (gset string)) (x : string) : bool :=
  match o with
  | Some members => bool_decide (x ∈ members)
  | None => false
  end.

Section WithReturn.
(** What middlewares and handlers return; [res_object] is the response
    object itself, as in [return res]. *)
Variable R : Type.
Variable res_object : R.

Definition Middleware : Type :=
  MiddlewarePipeline.Middleware unit unit R Exchange.

(** *** [IPFilterMiddleware] *)

Record IPFilter : Type := mkIPFilter {
  whitelist : option (gset string);
  blacklist : option (gset string)
}.

(** [set(addresses) if addresses else None] *)
Definition set_or_none (addresses : option (list string))
    : option (gset string) :=
  match addresses with
  | Some (a :: rest) => Some (list_to_set (a :: rest))
  | _ => None
  end.

Definition ip_filter_init (whitelist blacklist : option (list string))
    : IPFilter :=
  mkIPFilter (set_or_none whitelist) (set_or_none blacklist).

Definition access_denied (s : Exchange) : R * Exchange :=
  (res_object,
   set_response s
     (Response.json (response s) [("error", "Access denied")]%string 403)).

Definition ip_filter (f : IPFilter) : Middleware :=
  fun req res next_fn s =>
    let ip := Request.remote_addr (request s) in
    if set_truthy (blacklist f) && set_contains (blacklist f) ip
    then access_denied s
    else if set_truthy (whitelist f) && negb (set_contains (whitelist f) ip)
    then access_denied s
    else next_fn s.

(** *** [SecurityHeadersMiddleware] *)

Record SecurityHeaders : Type := mkSecurityHeaders {
  csp : option string;
  hsts : bool;
  hsts_max_age : Z
}.

Definition security_headers (m : SecurityHeaders) : Middleware :=
  fun req res next_fn s =>
    let '(result, s) := next_fn s in
    let s := set_header "X-Content-Type-Options" "nosniff" s in
    let s := set_header "X-Frame-Options" "DENY" s in
    let s := set_header "X-XSS-Protection" "1; mode=block" s in
    let s := set_header "Referrer-Policy" "strict-origin-when-cross-origin" s in
    let s := set_header "Permissions-Policy"
               "camera=(), microphone=(), geolocation=()" s in
    let s := match truthy (csp m) with
             | Some policy => set_header "Content-Security-Policy" policy s
             | None => s
             end in
    let s := if hsts m
             then set_header "Strict-Transport-Security"
                    ("max-age=" +:+ str_of_Z (hsts_max_age m)
                     +:+ "; includeSubDomains") s
             else s in
    (result, s).

(** *** [CORSMiddleware] *)

(** [allow_origins]: a list, or anything else (a string such as "*"). *)
Inductive Origins : Type :=
| OriginList (origins : list string)
| OriginValue (value : string).

Record CORS : Type := mkCORS {
  allow_origins : Origins;
  allow_methods : list string;
  allow_headers : list string;
  expose_headers : list string;
  max_age : Z;
  allow_credentials : bool
}.

(** [xs or default] on a list that may be [None]. *)
Definition list_or (xs : option (list string)) (default : list string)
    : list string :=
  match xs with
  | Some (x :: rest) => x :: rest
  | _ => default
  end.

Definition cors_init (allow_origins : Origins)
    (allow_methods allow_headers expose_headers : option (list string))
    (max_age : Z) (allow_credentials : bool) : CORS :=
  mkCORS allow_origins
    (list_or allow_methods
       ["GET"; "POST"; "PUT"; "DELETE"; "PATCH"; "OPTIONS"]%string)
    (list_or allow_headers
       ["Content-Type"; "Authorization"; "X-Requested-With"]%string)
    (list_or expose_headers [])
    max_age allow_credentials.

Definition cors_allowed (c : CORS) (origin : string) : string :=
  match allow_origins c with
  | OriginList origins =>
      if bool_decide (origin ∈ origins) then origin else EmptyString
  | OriginValue value => value
  end.

Definition cors (c : CORS) : Middleware :=
  fun req res next_fn s =>
    let origin := default EmptyString (Request.headers (request s) "Origin") in
    let allowed := cors_allowed c origin in
    let s := set_header "Access-Control-Allow-Origin" allowed s in
    let s := set_header "Access-Control-Allow-Methods"
               (join ", " (allow_methods c)) s in
    let s := set_header "Access-Control-Allow-Headers"
               (join ", " (allow_headers c)) s in
    let s := match expose_headers c with
             | [] => s
             | _ => set_header "Access-Control-Expose-Headers"
                      (join ", " (expose_headers c)) s
             end in
    let s := if allow_credentials c
             then set_header "Access-Control-Allow-Credentials" "true" s
             else s in
    let s := set_header "Access-Control-Max-Age" (str_of_Z (max_age c)) s in
    if String.eqb (Request.method (request s)) "OPTIONS"
    then (res_object,
          set_response s
            (Response.mk (Response.Text "") 204
               (Response._headers (response s))
               (Response._cookies (response s))))
    else next_fn s.

End WithReturn.

End Middlewares.

(** ** [PhotonAPI.__call__] *)

Module PhotonAPI.

(** What the pipeline returns: a [StreamResponse] or anything else. *)
Inductive Result : Type :=
| Stream (status : Z) (content_type : string) (headers : list (string * string))
| NotStream.

(** What [__call__] hands to the server: the arguments of
    [start_response] and the body. *)
Inductive Wsgi : Type :=
| WsgiResponse (status : Z * string) (headers : list (string * string))
    (body : Response.Body)
| WsgiStream (status : Z) (headers : list (string * string)).

(** [res.as_wsgi(start_response)] *)
Definition as_wsgi (res : Response.t) : Wsgi :=
  WsgiResponse (Response.status res) (Response.build_headers res)
    (Response.body res).

Definition hop_by_hop : list string :=
  ["connection"; "keep-alive"; "proxy-authenticate"; "proxy-authorization";
   "te"; "trailers"; "transfer-encoding"; "upgrade"]%string.

Section App.
(** [Req] is the request object; [W] is everything that static
    serving, middlewares and route handlers can change beside the
    response object of the call. *)
Variables Req W : Type.

Definition St : Type := Response.t * W.

(** [self._serve_static(req, res)] and the closure [dispatch]. *)
Variable _serve_static : Req -> MiddlewarePipeline.M St bool.
Variable dispatch : MiddlewarePipeline.FinalHandler Req unit Result St.

Record t : Type := mk {
  _shutting_down : bool;
  _active_requests : Z;
  _middleware : MiddlewarePipeline.t Req unit Result St;
  world : W
}.

Definition set_active (a : t) (n : Z) : t :=
  mk (_shutting_down a) n (_middleware a) (world a).

Definition set_world (a : t) (w : W) : t :=
  mk (_shutting_down a) (_active_requests a) (_middleware a) w.

(** The first statement of [_graceful_shutdown] that has an effect. *)
Definition begin_shutdown (a : t) : t :=
  mk true (_active_requests a) (_middleware a) (world a).

(** The body of the [try] block. *)
Definition try_block (a : t) (req : Req) : Wsgi * t :=
  let res := Response.init in
  if _shutting_down a then
    let res := Response.json res [("error", "Server is shutting down")]%string 503 in
    let res := Response.set_header res "Connection" "close" in
    (as_wsgi res, a)
  else
    let '(served, (res, w)) := _serve_static req (res, world a) in
    if served then (as_wsgi res, set_world a w) else
    let '(result, (res, w)) :=
      MiddlewarePipeline.run (_middleware a) req tt dispatch (res, w) in
    match result with
    | Stream status content_type headers =>
        (WsgiStream status
           (("Content-Type"%string, content_type)
            :: List.filter
                 (fun kv => negb (existsb (String.eqb (Str.lower (fst kv)))
                                    hop_by_hop))
                 headers),
         set_world a w)
    | NotStream => (as_wsgi res, set_world a w)
    end.

(** Where a call stands: before the increment, inside [try], inside
    [finally] with the value to return, or returned. *)
Inductive Pc : Type :=
| AtEntry
| InTry
| InFinally (out : Wsgi)
| Returned (out : Wsgi).

(** One atomic step of a call for [req]. *)
Definition step (req : Req) (a : t) (pc : Pc) : t * Pc :=
  match pc with
  | AtEntry => (set_active a (_active_requests a + 1), InTry)
  | InTry => let '(out, a1) := try_block a req in (a1, InFinally out)
  | InFinally out => (set_active a (_active_requests a - 1), Returned out)
  | Returned out => (a, Returned out)
  end.

(** The application states a call goes through, the first being the
    one it starts from. *)
Fixpoint states (n : nat) (req : Req) (a : t) (pc : Pc) : list t :=
  match n with
  | O => [a]
  | S n' => let '(a1, pc1) := step req a pc in a :: states n' req a1 pc1
  end.

Fixpoint steps (n : nat) (req : Req) (a : t) (pc : Pc) : t * Pc :=
  match n with
  | O => (a, pc)
  | S n' => let '(a1, pc1) := step req a pc in steps n' req a1 pc1
  end.

(** [Request(environ)]: the constructor raises what [content_length]
    raises; otherwise [new_request environ n] is the object whose
    fields it has assigned, [n] being the content length. *)
Variable new_request : Environ -> Z -> Req.

Definition request_of (environ : Environ) : result Req :=
  match content_length environ with
  | Return n => Return (new_request environ n)
  | Raise e => Raise e
  end.

(** [__call__]: [req = Request(environ)], whose exception leaves the
    call before anything else has run; then increment, [try],
    [finally]. *)
Definition __call__ (a : t) (environ : Environ) : t * result Pc :=
  match request_of environ with
  | Return req => let '(a1, pc) := steps 3 req a AtEntry in (a1, Return pc)
  | Raise e => (a, Raise e)
  end.

(** Calls served by several threads: each call has its request and the
    place where it stands; a schedule names the call that takes the
    next step. *)
Definition in_flight (pc : Pc) : Z :=
  match pc with
  | InTry | InFinally _ => 1
  | AtEntry | Returned _ => 0
  end.

Fixpoint in_flight_total (calls : list (Req * Pc)) : Z :=
  match calls with
  | [] => 0
  | (_, pc) :: rest => in_flight pc + in_flight_total rest
  end.

Fixpoint interleave (schedule : list nat) (a : t) (calls : list (Req * Pc))
    : t * list (Req * Pc) :=
  match schedule with
  | [] => (a, calls)
  | i :: rest =>
      match calls !! i with
      | Some (req, pc) =>
          let '(a1, pc1) := step req a pc in
          interleave rest a1 (<[i := (req, pc1)]> calls)
      | None => interleave rest a calls
      end
  end.

End App.

Arguments _shutting_down {Req W}.
Arguments _active_requests {Req W}.
Arguments _middleware {Req W}.
Arguments world {Req W}.

End PhotonAPI.

(** ** [class Router] *)

Module Router.

Section Routes.
Variables Handler Params : Type.

(** [Route(pattern, ...).match(path)]: the regular expression that
    [_compile] builds from the pattern is not modelled, its verdict on a
    request path is an input.  [upper] is [str.upper]. *)
Variable route_match : string -> string -> option Params.
Variable upper : string -> string.

Record Route : Type := mkRoute {
  path : string;
  handler : Handler;
  methods : list string;
  name : string
}.

(** [Route(path, handler, methods, name)], the name already chosen. *)
Definition new_route (path : string) (handler : Handler)
    (methods : list string) (name : string) : Route :=
  mkRoute path handler (map upper methods) name.

Record t : Type := mk { routes : list Route }.

Definition init : t := mk [].

(** [methods = methods or ["GET"]] *)
Definition add_route (rt : t) (path : string) (handler : Handler)
    (methods : option (list string)) (name : string) : Route * t :=
  let methods :=
    match methods with
    | Some (m :: ms) => m :: ms
    | _ => ["GET"%string]
    end in
  let route := new_route path handler methods name in
  (route, mk (routes rt ++ [route])).

Inductive Resolved : Type :=
| Found (route : Route) (params : Params)
| MethodNotAllowed
| NotFound.

(** The [for] loop of [resolve] with its flag, and what follows it. *)
Fixpoint resolve_loop (rs : list Route) (request_path method : string)
    (method_mismatch : bool) : Resolved :=
  match rs with
  | [] => if method_mismatch then MethodNotAllowed else NotFound
  | route :: rest =>
      match route_match (path route) request_path with
      | Some params =>
          if bool_decide (upper method ∈ methods route)
          then Found route params
          else resolve_loop rest request_path method true
      | None => resolve_loop rest request_path method method_mismatch
      end
  end.

Definition resolve (rt : t) (request_path method : string) : Resolved :=
  resolve_loop (routes rt) request_path method false.

End Routes.

End Router.

(** * Properties *)

(** ** Rounding *)

Section Rounding.
Variable fl : Q -> Q.
Hypothesis fl_mono : forall x y : Q, (x <= y)%Q -> (fl x <= fl y)%Q.
Hypothesis fl_zero : (fl 0 == 0)%Q.

Lemma fl_nonneg (x : Q) : (0 <= x)%Q -> (0 <= fl x)%Q.
Proof using fl_mono fl_zero.
  intros Hx. rewrite <- fl_zero. now apply fl_mono.
Qed.

Lemma float_sub_nonneg (a b : Q) : (b <= a)%Q -> (0 <= Float.sub fl a b)%Q.
Proof using fl_mono fl_zero.
  intros Hab. apply fl_nonneg. lra.
Qed.

Lemma float_sub_mono_l (a a' b : Q) :
  (a <= a')%Q -> (Float.sub fl a b <= Float.sub fl a' b)%Q.
Proof using fl_mono.
  intros Ha. apply fl_mono. lra.
Qed.
End Rounding.

Lemma float_ltb_lt (a b : Q) : Float.ltb a b = true <-> (a < b)%Q.
Proof.
  unfold Float.ltb. rewrite negb_true_iff, <- not_true_iff_false, Qle_bool_iff.
  split; [apply Qnot_le_lt | apply Qlt_not_le].
Qed.

Lemma float_leb_le (a b : Q) : Float.leb a b = true <-> (a <= b)%Q.
Proof. apply Qle_bool_iff. Qed.

Lemma float_min_le_l (a b : Q) : (Float.min a b <= a)%Q.
Proof.
  unfold Float.min. destruct (Float.ltb b a) eqn:E.
  - apply float_ltb_lt in E. lra.
  - lra.
Qed.

Lemma float_min_nonneg (a b : Q) :
  (0 <= a)%Q -> (0 <= b)%Q -> (0 <= Float.min a b)%Q.
Proof. intros Ha Hb. unfold Float.min. now destruct (Float.ltb b a). Qed.

(** ** Token bucket *)

Section TokenBucketFacts.
Variable fl : Q -> Q.
Hypothesis fl_mono : forall x y : Q, (x <= y)%Q -> (fl x <= fl y)%Q.
Hypothesis fl_zero : (fl 0 == 0)%Q.

Import TokenBucket.

Lemma refilled_bounds (b : t) (now : Q) :
  bucket_ok fl b -> (last_refill b <= now)%Q ->
  (0 <= refilled fl b now)%Q /\ (refilled fl b now <= capacity b)%Q.
Proof using fl_mono fl_zero.
  intros (Hr & _ & H0 & Hc) Hnow. split; [| apply float_min_le_l].
  apply float_min_nonneg; [lra |].
  apply (fl_nonneg fl fl_mono fl_zero).
  pose proof (float_sub_nonneg fl fl_mono fl_zero _ _ Hnow) as He.
  assert (0 <= Float.mul fl (Float.sub fl now (last_refill b)) (refill_rate b))%Q.
  { apply (fl_nonneg fl fl_mono fl_zero). now apply Qmult_le_0_compat. }
  lra.
Qed.

Lemma consume_keeps_ok (b : t) (cost now : Q) :
  bucket_ok fl b -> (0 <= cost)%Q -> (last_refill b <= now)%Q ->
  bucket_ok fl (snd (consume fl b cost now)).
Proof using fl_mono fl_zero.
  intros Hok Hcost Hnow.
  destruct (refilled_bounds b now Hok Hnow) as [H0 Hc].
  destruct Hok as (Hr & Hfix & _ & _).
  unfold consume, bucket_ok.
  destruct (Float.leb cost (refilled fl b now)) eqn:E;
    cbn [snd tokens capacity refill_rate].
  - apply float_leb_le in E. repeat split; trivial.
    + now apply (float_sub_nonneg fl fl_mono fl_zero).
    + apply Qle_trans with (fl (capacity b)).
      * apply fl_mono. lra.
      * apply Qle_lteq. now right.
  - repeat split; trivial.
Qed.

Lemma reachable_ok (b : t) : reachable fl b -> bucket_ok fl b.
Proof using fl_mono fl_zero.
  induction 1 as [c r now Hc Hr Hfix | b cost now _ IH Hcost Hnow].
  - repeat split; cbn; trivial. lra.
  - now apply consume_keeps_ok.
Qed.
End TokenBucketFacts.

(** C1 (amended): for every token bucket built with a capacity and a
    refill rate that are not negative, and after every sequence of
    [consume] calls whose costs are not negative, made at clock readings
    that never go back, [tokens] is at least 0 and at most [capacity].
    Whatever the bucket, a [consume] that fails stores exactly the
    refilled amount, and one that succeeds stores the refilled amount
    less the cost.  The arithmetic is exact or rounded by a monotone
    [fl] that fixes 0; the capacity is a number that a float represents
    exactly, one that [fl] leaves unchanged. *)
Theorem token_bucket_conservation (fl : Q -> Q)
    (fl_mono : forall x y : Q, (x <= y)%Q -> (fl x <= fl y)%Q)
    (fl_zero : (fl 0 == 0)%Q) (b : TokenBucket.t) :
  TokenBucket.reachable fl b ->
  ((0 <= TokenBucket.tokens b)%Q
   /\ (TokenBucket.tokens b <= TokenBucket.capacity b)%Q)
  /\ forall cost now : Q,
       let r := TokenBucket.consume fl b cost now in
       let refilled := TokenBucket.refilled fl b now in
       (fst r = true <-> (cost <= refilled)%Q)
       /\ TokenBucket.tokens (snd r)
          = (if fst r then Float.sub fl refilled cost else refilled)
       /\ TokenBucket.capacity (snd r) = TokenBucket.capacity b.
Proof.
  intros Hreach. split.
  - destruct (reachable_ok fl fl_mono fl_zero b Hreach) as (_ & _ & H0 & Hc).
    now split.
  - intros cost now. cbn zeta. unfold TokenBucket.consume.
    destruct (Float.leb cost (TokenBucket.refilled fl b now)) eqn:E; cbn.
    + apply float_leb_le in E. tauto.
    + repeat split; trivial; try discriminate.
      intros H. apply float_leb_le in H. congruence.
Qed.

(** A bucket of capacity 10 refilled at 1 token per second, created at
    clock 0 and charged 3 tokens at clock 5. *)
Lemma token_bucket_conservation_witness :
  let b := snd (TokenBucket.consume Float.exact
                  (TokenBucket.init 10 1 0) 3 5) in
  (0 <= TokenBucket.tokens b)%Q
  /\ (TokenBucket.tokens b <= TokenBucket.capacity b)%Q.
Proof.
  refine (proj1 (token_bucket_conservation Float.exact _ _ _ _)).
  - intros x y H. exact H.
  - reflexivity.
  - apply TokenBucket.reach_consume.
    + apply TokenBucket.reach_init; [discriminate | discriminate | reflexivity].
    + discriminate.
    + discriminate.
Defined.

(** C1 as stated fails.  [consume(-5)] on a full bucket of capacity 10
    succeeds and leaves 15 tokens; a bucket built with capacity -5 holds
    -5 tokens from the start; a bucket of capacity 10 built with refill
    rate -1 holds -10 tokens after [consume(0)] twenty seconds later. *)
Lemma token_bucket_conservation_counterexample :
  (let r := TokenBucket.consume Float.exact (TokenBucket.init 10 1 0) (-5) 0 in
   fst r = true
   /\ (TokenBucket.capacity (snd r) < TokenBucket.tokens (snd r))%Q)
  /\ (TokenBucket.tokens (TokenBucket.init (-5) 0 0) < 0)%Q
  /\ (let r := TokenBucket.consume Float.exact
                 (TokenBucket.init 10 (-1) 0) 0 20 in
      (TokenBucket.tokens (snd r) < 0)%Q).
Proof. vm_compute. repeat split. Qed.

(** ** Fixed window *)

(** C3: a [hit(cost)] made when [now - window_start >= window] starts
    from count 0 and sets [window_start] to [now]; otherwise it starts
    from the stored count and leaves [window_start] alone.  Either way
    it succeeds exactly when that starting count plus [cost] is at most
    [limit], adds [cost] to the count when it succeeds, and leaves the
    starting count when it fails. *)
Theorem fixed_window_hit (fl : Q -> Q) (s : FixedWindowCounter.t)
    (cost : Z) (now : Q) :
  let elapsed := Float.sub fl now (FixedWindowCounter._window_start s) in
  let reset := Float.leb (FixedWindowCounter.window s) elapsed in
  let count0 := if reset then 0 else FixedWindowCounter._count s in
  let r := FixedWindowCounter.hit fl s cost now in
  (fst r = true <-> count0 + cost <= FixedWindowCounter.limit s)
  /\ FixedWindowCounter._count (snd r)
     = (if fst r then count0 + cost else count0)
  /\ FixedWindowCounter._window_start (snd r)
     = (if reset then now else FixedWindowCounter._window_start s)
  /\ FixedWindowCounter.limit (snd r) = FixedWindowCounter.limit s
  /\ FixedWindowCounter.window (snd r) = FixedWindowCounter.window s.
Proof.
  cbn zeta.
  unfold FixedWindowCounter.hit, FixedWindowCounter.rolled,
    FixedWindowCounter.expired.
  destruct (Float.leb _ _);
    cbn [FixedWindowCounter._count FixedWindowCounter.limit
         FixedWindowCounter.window FixedWindowCounter._window_start].
  - destruct (0 + cost <=? FixedWindowCounter.limit s) eqn:L; cbn;
      [apply Z.leb_le in L | apply Z.leb_gt in L];
      repeat split; trivial; try lia; discriminate.
  - destruct (FixedWindowCounter._count s + cost
              <=? FixedWindowCounter.limit s) eqn:L; cbn;
      [apply Z.leb_le in L | apply Z.leb_gt in L];
      repeat split; trivial; try lia; discriminate.
Qed.

(** A counter of limit 5 over 60 seconds that is full: a hit 59 seconds
    after the window opened is refused, one at 60 seconds opens a new
    window and is counted in it. *)
Example fixed_window_boundary :
  let s := FixedWindowCounter.mk 5 60 5 0 in
  FixedWindowCounter.hit Float.exact s 1 59 = (false, s)
  /\ FixedWindowCounter.hit Float.exact s 1 60
     = (true, FixedWindowCounter.mk 5 60 1 60).
Proof. split; reflexivity. Qed.

(** ** Sliding window *)

Lemma filter_filter_weaker {A : Type} (p q : A -> bool) (l : list A) :
  (forall x, p x = true -> q x = true) ->
  List.filter p (List.filter q l) = List.filter p l.
Proof.
  intros Hpq. induction l as [| x l IH]; cbn; trivial.
  destruct (q x) eqn:Eq; cbn.
  - now rewrite IH.
  - destruct (p x) eqn:Ep; trivial.
    apply Hpq in Ep. congruence.
Qed.

Lemma filter_length_bound {A : Type} (p : A -> bool) (l : list A) :
  (length (List.filter p l) <= length l)%nat.
Proof.
  induction l as [| x l IH]; cbn; trivial.
  destruct (p x); cbn; lia.
Qed.

Section SlidingWindowFacts.
Variable fl : Q -> Q.
Hypothesis fl_mono : forall x y : Q, (x <= y)%Q -> (fl x <= fl y)%Q.

Import SlidingWindowCounter.

Lemma hit_limit (s : t) (cost : Z) (now : Q) :
  limit (snd (hit fl s cost now)) = limit s.
Proof. unfold hit. now destruct (_ <=? _). Qed.

Lemma hit_window (s : t) (cost : Z) (now : Q) :
  window (snd (hit fl s cost now)) = window s.
Proof. unfold hit. now destruct (_ <=? _). Qed.

Lemma hit_hits (s : t) (cost : Z) (now : Q) :
  _hits (snd (hit fl s cost now))
  = kept fl s now
    ++ (if fst (hit fl s cost now) then repeat now (Z.to_nat cost) else []).
Proof.
  unfold hit. destruct (_ <=? _); cbn; trivial. now rewrite app_nil_r.
Qed.

Lemma hit_ok (s : t) (cost : Z) (now : Q) :
  fst (hit fl s cost now) = true
  <-> Z.of_nat (length (kept fl s now)) + cost <= limit s.
Proof.
  unfold hit.
  destruct (Z.of_nat (length (kept fl s now)) + cost <=? limit s) eqn:L; cbn.
  - apply Z.leb_le in L. now split.
  - apply Z.leb_gt in L. split; [discriminate | lia].
Qed.

(** A later clock reading has a later cutoff. *)
Lemma cutoff_mono (s : t) (t1 t2 : Q) :
  (t1 <= t2)%Q -> (cutoff fl s t1 <= cutoff fl s t2)%Q.
Proof using fl_mono. intros H. now apply float_sub_mono_l. Qed.

(** What the counter has purged can never be in a later window, and
    nothing recorded is later than the last call. *)
Lemma history_inv (s : t) (recorded : list Q) (last : Q) :
  history fl s recorded last ->
  Forall (fun h => (h <= last)%Q) recorded
  /\ (forall now, (last <= now)%Q ->
        kept fl s now
        = List.filter (fun h => Float.ltb (cutoff fl s now) h) recorded)
  /\ (0 <= limit s -> Z.of_nat (length (_hits s)) <= limit s).
Proof using fl_mono.
  induction 1 as [l w now | s recorded last cost now1 _ (IH1 & IH2 & IH3) Hnow1].
  - cbn. repeat split; trivial; lia.
  - assert (Hcut : forall now,
              cutoff fl (snd (hit fl s cost now1)) now = cutoff fl s now).
    { intros now. unfold cutoff. now rewrite hit_window. }
    split; [| split].
    + assert (Hold : Forall (fun h => (h <= now1)%Q) recorded).
      { eapply List.Forall_impl; [| exact IH1]. cbn. intros h Hh. lra. }
      destruct (fst (hit fl s cost now1)); trivial.
      apply List.Forall_app. split; trivial.
      apply List.Forall_forall. intros h Hh.
      apply repeat_spec in Hh. subst h. lra.
    + intros now Hnow.
      assert (E : kept fl s now
                  = List.filter (fun h => Float.ltb (cutoff fl s now) h)
                      recorded) by (apply IH2; lra).
      unfold kept in *. rewrite hit_hits, Hcut, List.filter_app.
      unfold kept. rewrite filter_filter_weaker.
      * rewrite E. destruct (fst (hit fl s cost now1)).
        -- now rewrite List.filter_app.
        -- cbn. now rewrite app_nil_r.
      * intros h Hh. apply float_ltb_lt in Hh. apply float_ltb_lt.
        pose proof (cutoff_mono s now1 now Hnow). lra.
    + rewrite hit_limit. intros Hlim. rewrite hit_hits.
      specialize (IH3 Hlim).
      assert (Hk : (length (kept fl s now1) <= length (_hits s))%nat)
        by apply filter_length_bound.
      destruct (fst (hit fl s cost now1)) eqn:Hok.
      * apply hit_ok in Hok. rewrite length_app, repeat_length. lia.
      * rewrite app_nil_r. lia.
Qed.

Lemma hit_cutoff (s : t) (cost : Z) (now1 now : Q) :
  cutoff fl (snd (hit fl s cost now1)) now = cutoff fl s now.
Proof. unfold cutoff. now rewrite hit_window. Qed.

(** The purge at [now] keeps the recorded hits of the window. *)
Lemma kept_in_window (s : t) (recorded : list Q) (last now : Q) :
  history fl s recorded last -> (last <= now)%Q ->
  kept fl s now = List.filter (in_window fl s now) recorded.
Proof using fl_mono.
  intros Hhist Hnow.
  destruct (history_inv s recorded last Hhist) as (Hle & Hkept & _).
  rewrite (Hkept now Hnow). apply List.filter_ext_in. intros h Hh.
  unfold in_window.
  assert (Float.leb h now = true) as ->; [| now rewrite andb_true_r].
  apply float_leb_le. rewrite List.Forall_forall in Hle.
  specialize (Hle h Hh). cbn in Hle. lra.
Qed.

(** Right after a call at [last], and when the cutoff computed at
    [last] is before [last] (a positive window), the stored list is
    the recorded hits of the window at [last], oldest first. *)
Lemma hits_fresh (s : t) (recorded : list Q) (last : Q) :
  history fl s recorded last -> (cutoff fl s last < last)%Q ->
  _hits s = List.filter (in_window fl s last) recorded.
Proof using fl_mono.
  intros Hhist. destruct Hhist as [l w now | s recorded last cost now Hhist Hnow].
  - reflexivity.
  - rewrite hit_cutoff. intros Hcut.
    assert (Hin : forall h, in_window fl (snd (hit fl s cost now)) now h
                            = in_window fl s now h).
    { intros h. unfold in_window. now rewrite hit_cutoff. }
    rewrite (List.filter_ext _ _ Hin), hit_hits.
    rewrite (kept_in_window s recorded last now Hhist Hnow).
    destruct (fst (hit fl s cost now)); [| apply app_nil_r].
    rewrite List.filter_app. f_equal.
    induction (Z.to_nat cost) as [| n IH]; cbn; trivial.
    assert (in_window fl s now now = true) as ->.
    { unfold in_window. apply andb_true_intro. split.
      - now apply float_ltb_lt.
      - apply float_leb_le. lra. }
    now rewrite <- IH.
Qed.

(** Read at the clock reading of the last call, [reset_at] is the first
    recorded hit of the window plus [window], or [last + window] when
    the window holds none. *)
Lemma reset_at_fresh (s : t) (recorded : list Q) (last : Q) :
  history fl s recorded last -> (cutoff fl s last < last)%Q ->
  reset_at fl s last
  = match List.filter (in_window fl s last) recorded with
    | h :: _ => Float.add fl h (window s)
    | [] => Float.add fl last (window s)
    end.
Proof using fl_mono.
  intros Hhist Hcut. unfold reset_at.
  now rewrite (hits_fresh s recorded last Hhist Hcut).
Qed.
End SlidingWindowFacts.

(** C2 (amended): take a sliding-window counter after any sequence of
    [hit] calls made at clock readings that never go back, and a clock
    reading [now] not before the last of them.  The hits that survive
    the purge at [now] are exactly the recorded hits in the window
    [(cutoff, now]], where [cutoff] is [now - window] as computed.
    [hit(cost)] succeeds if and only if their number plus [cost] is at
    most [limit]; it then appends [cost] copies of [now], and on failure
    it appends nothing.  When [limit] is not negative, [hit(0)] succeeds
    and appends nothing.  When [cost > limit], [hit(cost)] fails. *)
Theorem sliding_window_hit_semantics (fl : Q -> Q)
    (fl_mono : forall x y : Q, (x <= y)%Q -> (fl x <= fl y)%Q)
    (s : SlidingWindowCounter.t) (recorded : list Q) (last now : Q)
    (cost : Z) :
  SlidingWindowCounter.history fl s recorded last ->
  (last <= now)%Q ->
  let retained :=
    List.filter (SlidingWindowCounter.in_window fl s now) recorded in
  let r := SlidingWindowCounter.hit fl s cost now in
  SlidingWindowCounter.kept fl s now = retained
  /\ (fst r = true
      <-> Z.of_nat (length retained) + cost <= SlidingWindowCounter.limit s)
  /\ SlidingWindowCounter._hits (snd r)
     = retained ++ (if fst r then repeat now (Z.to_nat cost) else [])
  /\ (0 <= SlidingWindowCounter.limit s ->
      let r0 := SlidingWindowCounter.hit fl s 0 now in
      fst r0 = true /\ SlidingWindowCounter._hits (snd r0) = retained)
  /\ (SlidingWindowCounter.limit s < cost -> fst r = false).
Proof.
  intros Hhist Hnow. cbn zeta.
  destruct (history_inv fl fl_mono s recorded last Hhist) as (_ & _ & Hlen).
  pose proof (kept_in_window fl fl_mono s recorded last now Hhist Hnow) as Hret.
  split; [exact Hret |]. rewrite <- Hret.
  split; [apply hit_ok |]. split; [apply hit_hits |]. split.
  - intros Hlim. specialize (Hlen Hlim).
    assert (Hk : (length (SlidingWindowCounter.kept fl s now)
                  <= length (SlidingWindowCounter._hits s))%nat)
      by apply filter_length_bound.
    assert (Hok : fst (SlidingWindowCounter.hit fl s 0 now) = true)
      by (apply hit_ok; lia).
    split; [exact Hok |]. rewrite hit_hits, Hok. cbn. apply app_nil_r.
  - intros Hcost. apply not_true_iff_false. rewrite hit_ok. lia.
Qed.

(** A counter of limit 2 over 60 seconds, hit once at clock 10 and asked
    again at clock 30. *)
Lemma sliding_window_hit_semantics_witness :
  let s := snd (SlidingWindowCounter.hit Float.exact
                  (SlidingWindowCounter.init 2 60) 1 10) in
  SlidingWindowCounter.kept Float.exact s 30 = [10%Q]
  /\ fst (SlidingWindowCounter.hit Float.exact s 1 30) = true
  /\ fst (SlidingWindowCounter.hit Float.exact s 0 30) = true
  /\ fst (SlidingWindowCounter.hit Float.exact s 3 30) = false.
Proof.
  cbn zeta.
  assert (Hmono : forall x y : Q, (x <= y)%Q -> (Float.exact x <= Float.exact y)%Q)
    by (intros x y H; exact H).
  assert (Hhist : SlidingWindowCounter.history Float.exact
            (snd (SlidingWindowCounter.hit Float.exact
                    (SlidingWindowCounter.init 2 60) 1 10)) [10%Q] 10).
  { apply (SlidingWindowCounter.hist_hit Float.exact
             (SlidingWindowCounter.init 2 60) [] 0 1 10).
    - apply SlidingWindowCounter.hist_init.
    - discriminate. }
  assert (Hnow : (10 <= 30)%Q) by discriminate.
  pose proof (sliding_window_hit_semantics Float.exact Hmono _ _ _ _ 1
                Hhist Hnow) as (H1 & H2 & _ & H4 & _).
  pose proof (sliding_window_hit_semantics Float.exact Hmono _ _ _ _ 3
                Hhist Hnow) as (_ & _ & _ & _ & H5).
  split; [exact H1 |]. split; [apply H2; vm_compute; discriminate |].
  split; [apply H4; vm_compute; discriminate | apply H5; reflexivity].
Defined.

(** C2 as stated fails: on a counter built with limit -1, [hit(0)] on
    the empty window is refused. *)
Lemma sliding_window_hit_semantics_counterexample :
  fst (SlidingWindowCounter.hit Float.exact
         (SlidingWindowCounter.init (-1) 60) 0 0) = false.
Proof. reflexivity. Qed.

(** ** Rate strings *)

(** The builtins on a few inputs, as the interpreter answers them. *)
Example int_literals :
  Str.int "10" = Some 10 /\ Str.int " 5 " = Some 5
  /\ Str.int "-5" = Some (-5) /\ Str.int "+5" = Some 5
  /\ Str.int "1_0" = Some 10 /\ Str.int "010" = Some 10
  /\ Str.int "" = None /\ Str.int "+" = None /\ Str.int "+ 5" = None
  /\ Str.int "_1" = None /\ Str.int "1_" = None /\ Str.int "1__0" = None
  /\ Str.int "5 5" = None /\ Str.int "1.0" = None /\ Str.int "0x10" = None.
Proof. repeat split; reflexivity. Qed.

Example split_slash :
  Str.split "/" "a/b" = ["a"; "b"]%string
  /\ Str.split "/" "" = [""]%string
  /\ Str.split "/" "/" = [""; ""]%string
  /\ Str.split "/" "a//b" = ["a"; ""; "b"]%string.
Proof. repeat split; reflexivity. Qed.

Example parse_rate_lenient :
  _parse_rate " 1_0 / MiNute " = Return (10, 60)
  /\ _parse_rate "-5/d" = Return (-5, 86400)
  /\ _parse_rate "1/2/3" = Raise (ValueError (InvalidRateFormat "1/2/3"))
  /\ _parse_rate "x/min" = Raise (ValueError (InvalidLiteral "x"))
  /\ _parse_rate "5/week" = Raise (ValueError (UnknownTimePeriod "week")).
Proof. repeat split; reflexivity. Qed.

Lemma split_length (sep : ascii) (s : string) :
  length (Str.split sep s) = S (Str.count sep s).
Proof.
  induction s as [| c r IH]; cbn; trivial.
  destruct (Ascii.eqb c sep); cbn.
  - now rewrite IH.
  - destruct (Str.split sep r) as [| p ps]; cbn in *; [discriminate | exact IH].
Qed.

Lemma split_single (sep : ascii) (s b : string) :
  Str.split sep s = [b] -> s = b.
Proof.
  revert b. induction s as [| c r IH]; cbn; intros b H.
  - congruence.
  - destruct (Ascii.eqb c sep).
    + pose proof (split_length sep r) as L.
      destruct (Str.split sep r); cbn in L; [lia | discriminate].
    + destruct (Str.split sep r) as [| p ps] eqn:E.
      * pose proof (split_length sep r) as L. rewrite E in L. discriminate.
      * injection H as <- ->. now rewrite (IH p).
Qed.

Lemma split_pair (sep : ascii) (s a b : string) :
  Str.split sep s = [a; b] -> s = a +:+ String sep b.
Proof.
  revert a. induction s as [| c r IH]; cbn; intros a H.
  - discriminate.
  - destruct (Ascii.eqb_spec c sep) as [-> | _].
    + injection H as <- Hr. apply split_single in Hr. now subst r.
    + destruct (Str.split sep r) as [| p ps] eqn:E.
      * discriminate.
      * injection H as <- ->. cbn. now rewrite (IH p).
Qed.

(** [_parse_rate] returns exactly on the strings [count/period]. *)
Lemma parse_rate_returns (s : string) (count seconds : Z) :
  _parse_rate s = Return (count, seconds)
  <-> exists a b : string,
        Str.split "/" (Str.strip s) = [a; b]
        /\ Str.int a = Some count
        /\ dict_get multipliers (Str.lower (Str.strip b)) = Some seconds.
Proof.
  unfold _parse_rate. split.
  - destruct (Str.split "/" (Str.strip s)) as [| a [| b [| c l]]];
      try discriminate.
    destruct (Str.int a) as [n |] eqn:Ea; [| discriminate].
    destruct (dict_get multipliers _) as [m |] eqn:Eb; [| discriminate].
    intros [= <- <-]. now exists a, b.
  - intros (a & b & -> & -> & ->). reflexivity.
Qed.

(** Whatever [_parse_rate] raises is a [ValueError]; it raises when the
    stripped string does not hold exactly one slash, when the count is
    not an integer literal and when the period is not in the table. *)
Lemma parse_rate_raises (s : string) :
  (Str.count "/" (Str.strip s) <> 1%nat ->
   _parse_rate s = Raise (ValueError (InvalidRateFormat s)))
  /\ (forall a b, Str.split "/" (Str.strip s) = [a; b] ->
        Str.int a = None ->
        _parse_rate s = Raise (ValueError (InvalidLiteral a)))
  /\ (forall a b, Str.split "/" (Str.strip s) = [a; b] ->
        is_Some (Str.int a) ->
        dict_get multipliers (Str.lower (Str.strip b)) = None ->
        _parse_rate s
        = Raise (ValueError (UnknownTimePeriod (Str.lower (Str.strip b))))).
Proof.
  unfold _parse_rate. repeat split.
  - intros Hc. pose proof (split_length "/" (Str.strip s)) as L.
    destruct (Str.split "/" (Str.strip s)) as [| a [| b [| c l]]]; trivial.
    cbn in L. congruence.
  - intros a b -> ->. reflexivity.
  - intros a b -> [n ->] ->. reflexivity.
Qed.

Lemma multipliers_values (period : string) (seconds : Z) :
  dict_get multipliers period = Some seconds ->
  seconds = 1 \/ seconds = 60 \/ seconds = 3600 \/ seconds = 86400.
Proof.
  unfold multipliers. cbn [dict_get].
  repeat (destruct (String.eqb _ period);
          [intros [= <-]; tauto |]).
  discriminate.
Qed.

Lemma count_app (sep : ascii) (a b : string) :
  Str.count sep (a +:+ b) = (Str.count sep a + Str.count sep b)%nat.
Proof.
  induction a as [| c a IH]; trivial.
  change (String c a +:+ b) with (String c (a +:+ b)).
  cbn [Str.count]. rewrite IH. lia.
Qed.

Lemma split_no_sep (sep : ascii) (s : string) :
  Str.count sep s = 0%nat -> Str.split sep s = [s].
Proof.
  induction s as [| c r IH]; cbn; trivial.
  destruct (Ascii.eqb c sep); [discriminate |].
  cbn. intros H. now rewrite (IH H).
Qed.

Lemma split_pair_iff (sep : ascii) (s a b : string) :
  Str.split sep s = [a; b]
  <-> s = a +:+ String sep b
      /\ Str.count sep a = 0%nat /\ Str.count sep b = 0%nat.
Proof.
  split.
  - intros H. pose proof (split_length sep s) as L. rewrite H in L.
    apply split_pair in H. subst s. split; trivial.
    rewrite count_app in L. cbn in L. rewrite Ascii.eqb_refl in L.
    cbn in L. lia.
  - intros (-> & Ha & Hb). induction a as [| c a IH].
    + change ("" +:+ String sep b) with (String sep b). cbn [Str.split].
      rewrite Ascii.eqb_refl. now rewrite (split_no_sep sep b Hb).
    + change (String c a +:+ String sep b) with (String c (a +:+ String sep b)).
      cbn [Str.split]. cbn [Str.count] in Ha.
      destruct (Ascii.eqb c sep); [discriminate |].
      now rewrite (IH Ha).
Qed.

Lemma parse_rate_form (s : string) (count seconds : Z) :
  _parse_rate s = Return (count, seconds) <-> rate_form s count seconds.
Proof.
  rewrite parse_rate_returns. unfold rate_form.
  split; intros (a & b & H & Hrest); exists a, b.
  - apply split_pair_iff in H. tauto.
  - split; [apply split_pair_iff |]; tauto.
Qed.

Lemma parse_rate_total (s : string) :
  (exists count seconds, _parse_rate s = Return (count, seconds))
  \/ (exists why, _parse_rate s = Raise (ValueError why)).
Proof.
  destruct (_parse_rate s) as [[count seconds] | [why]]; eauto.
Qed.

(** ** Where a bad rate string surfaces *)

Section WrapperFacts.
Variable Req : Type.
Variable fl : Q -> Q.

Import RateLimiter.

Lemma use_bucket_outcome (rl : t Req) (client_key scope : string)
    (count window cost : Z) (msg : string) (now : Q) :
  fst (use_bucket Req fl rl client_key scope count window cost msg now)
    = Handler
  \/ fst (use_bucket Req fl rl client_key scope count window cost msg now)
     = RateExceeded msg count.
Proof.
  unfold use_bucket.
  destruct (_get_bucket _ _ _ _ _ _ _ _) as [b rl1].
  destruct (bucket_take _ _ _ _) as [[|] b']; cbn; tauto.
Qed.

(** Split on the two outcomes of the [use_bucket] call in the goal. *)
Ltac use_bucket_cases :=
  match goal with
  | |- context [fst (use_bucket _ _ ?a ?b ?c ?d ?e0 ?f ?g ?h)] =>
      destruct (use_bucket_outcome a b c d e0 f g h) as [-> | ->]
  end.

Lemma limit_wrapper_never_raises (w : LimitWrapper Req) (rl : t Req)
    (req : Req) (now : Q) (e : exn) :
  fst (limit_wrapper Req fl w rl req now) <> Raised e.
Proof.
  unfold limit_wrapper.
  destruct (enabled rl); cbn; [| discriminate].
  destruct (decide _); cbn; [discriminate |].
  destruct (decide _); cbn; [discriminate |].
  destruct (_redis_limiter rl) as [check |].
  - destruct (check _ _ _) as [[|] remaining]; cbn; discriminate.
  - use_bucket_cases; discriminate.
Qed.

Lemma shared_wrapper_never_raises (d : SharedDecorator Req) (rl : t Req)
    (req : Req) (now : Q) (e : exn) :
  fst (shared_wrapper Req fl d rl req now) <> Raised e.
Proof.
  unfold shared_wrapper.
  destruct (enabled rl); cbn; [| discriminate].
  destruct (decide _); cbn; [discriminate |].
  destruct (_redis_limiter rl) as [check |].
  - destruct (check _ _ _) as [[|] remaining]; cbn; discriminate.
  - use_bucket_cases; discriminate.
Qed.

Lemma dynamic_wrapper_raises (rate_func : Req -> string) (fn_name : string)
    (rl : t Req) (req : Req) (now : Q) (e : exn) :
  enabled rl = true ->
  _parse_rate (rate_func req) = Raise e ->
  dynamic_wrapper Req fl (dynamic Req rate_func fn_name) rl req now
  = (Raised e, rl).
Proof.
  intros Hen Hparse. unfold dynamic_wrapper, dynamic. cbn.
  now rewrite Hen, Hparse.
Qed.
End WrapperFacts.

(** C4 (amended): [_parse_rate("10/minute")] is [(10, 60)] and
    [_parse_rate("3/hour")] is [(3, 3600)]; [_parse_rate] returns
    exactly on the strings of the form [<count>/<period>] and raises a
    [ValueError] (the [ConfigError] of the specification) on every other
    input, such as ["bogus"].  With [limit] and [shared_limit] the error
    is raised when the route is registered, and their wrappers never
    raise it at request time.  With [dynamic] the rate string is
    computed from each request: registration cannot fail, and the error
    is raised at request time, when the limiter is enabled. *)
Theorem parse_rate_errors (Req : Type) (fl : Q -> Q) :
  _parse_rate "10/minute" = Return (10, 60)
  /\ _parse_rate "3/hour" = Return (3, 3600)
  /\ _parse_rate "bogus" = Raise (ValueError (InvalidRateFormat "bogus"))
  /\ (forall s count seconds,
        _parse_rate s = Return (count, seconds) <-> rate_form s count seconds)
  /\ (forall s, (forall count seconds, ~ rate_form s count seconds) ->
        exists why, _parse_rate s = Raise (ValueError why))
  /\ (forall s e, _parse_rate s = Raise e ->
        (forall key_func cost error_message scope,
           RateLimiter.limit Req s key_func cost error_message scope = Raise e)
        /\ (forall scope_name key_func cost,
              RateLimiter.shared_limit Req s scope_name key_func cost
              = Raise e))
  /\ (forall rl req now e,
        (forall w, fst (RateLimiter.limit_wrapper Req fl w rl req now)
                   <> RateLimiter.Raised e)
        /\ (forall d, fst (RateLimiter.shared_wrapper Req fl d rl req now)
                      <> RateLimiter.Raised e))
  /\ (forall rate_func fn_name rl req now e,
        RateLimiter.enabled rl = true ->
        _parse_rate (rate_func req) = Raise e ->
        RateLimiter.dynamic_wrapper Req fl
          (RateLimiter.dynamic Req rate_func fn_name) rl req now
        = (RateLimiter.Raised e, rl)).
Proof.
  split; [reflexivity |]. split; [reflexivity |]. split; [reflexivity |].
  split; [apply parse_rate_form |]. split.
  { intros s Hbad. destruct (parse_rate_total s) as [(c & w & H) | H]; trivial.
    apply parse_rate_form in H. now destruct (Hbad c w). }
  split.
  { intros s e H. split; intros; unfold RateLimiter.limit,
      RateLimiter.shared_limit; now rewrite H. }
  split.
  { intros rl req now e. split; intros.
    - apply limit_wrapper_never_raises.
    - apply shared_wrapper_never_raises. }
  intros. now apply dynamic_wrapper_raises.
Qed.

(** A limiter keyed by the remote address, and a route whose rate string
    a [dynamic] rate function gets wrong. *)
Lemma parse_rate_errors_witness :
  RateLimiter.limit string "bogus" None (fun _ => 1) None None
  = Raise (ValueError (InvalidRateFormat "bogus"))
  /\ RateLimiter.dynamic_wrapper string Float.exact
       (RateLimiter.dynamic string (fun _ => "bogus"%string) "app.index")
       (RateLimiter.init string (fun req => req) "sliding-window" true None)
       "10.0.0.1"%string 0
     = (RateLimiter.Raised (ValueError (InvalidRateFormat "bogus")),
        RateLimiter.init string (fun req => req) "sliding-window" true None).
Proof.
  destruct (parse_rate_errors string Float.exact)
    as (_ & _ & Hbogus & _ & _ & Hreg & _ & Hdyn).
  split.
  - apply (Hreg _ _ Hbogus).
  - apply Hdyn; [reflexivity | exact Hbogus].
Defined.

(** C4 as stated fails: a route decorated with [dynamic] registers
    without error although its rate function answers ["bogus"], and the
    [ValueError] leaves the wrapper when a request arrives. *)
Lemma parse_rate_errors_counterexample :
  let w := RateLimiter.dynamic string (fun _ => "bogus"%string) "app.index" in
  let rl := RateLimiter.init string (fun req => req) "sliding-window" true None in
  fst (RateLimiter.dynamic_wrapper string Float.exact w rl "10.0.0.1"%string 0)
  = RateLimiter.Raised (ValueError (InvalidRateFormat "bogus")).
Proof. reflexivity. Qed.

(** ** Whitelist *)

Section WhitelistFacts.
Variable Req : Type.
Variable fl : Q -> Q.

Import RateLimiter.

(** The wrappers of [limit] and [shared_limit] let a whitelisted key
    through before any bucket is fetched: the handler runs and the
    limiter is left as it was. *)
Lemma limit_wrapper_whitelisted (w : LimitWrapper Req) (rl : t Req)
    (req : Req) (now : Q) :
  default (key_func rl) (ld_key_func Req (lw_decorator Req w)) req
    ∈ _whitelist rl ->
  limit_wrapper Req fl w rl req now = (Handler, rl).
Proof.
  intros Hin. unfold limit_wrapper.
  destruct (enabled rl); cbn; trivial.
  destruct (decide _) as [_ | Hout]; [trivial | now destruct Hout].
Qed.

Lemma shared_wrapper_whitelisted (d : SharedDecorator Req) (rl : t Req)
    (req : Req) (now : Q) :
  default (key_func rl) (sd_key_func Req d) req ∈ _whitelist rl ->
  shared_wrapper Req fl d rl req now = (Handler, rl).
Proof.
  intros Hin. unfold shared_wrapper.
  destruct (enabled rl); cbn; trivial.
  destruct (decide _) as [_ | Hout]; [trivial | now destruct Hout].
Qed.
End WhitelistFacts.

(** C5 at its failing input.  The limiter is keyed by the remote
    address and has ["10.0.0.1"] on its whitelist; the route is
    decorated with [dynamic] and a rate function that answers
    ["1/minute"].  The first request of that address creates a bucket
    and records a hit in it; the second, one second later, is refused. *)
Theorem whitelist_bypass_dynamic :
  let rl0 :=
    RateLimiter.whitelist_key string
      (RateLimiter.init string (fun req => req) "sliding-window" true None)
      "10.0.0.1" in
  let w := RateLimiter.dynamic string (fun _ => "1/minute"%string) "app.index" in
  let r1 := RateLimiter.dynamic_wrapper string Float.exact w rl0 "10.0.0.1"%string 0 in
  let r2 := RateLimiter.dynamic_wrapper string Float.exact w (snd r1) "10.0.0.1"%string 1 in
  "10.0.0.1"%string ∈ RateLimiter._whitelist rl0
  /\ RateLimiter._buckets rl0 = ∅
  /\ fst r1 = RateLimiter.Handler
  /\ RateLimiter._buckets (snd r1) !! "10.0.0.1:app.index"%string
     = Some (RateLimiter.Sliding (SlidingWindowCounter.mk 1 (inject_Z 60) [0%Q]))
  /\ fst r2 = RateLimiter.RateExceeded "Rate limit exceeded" 1.
Proof.
  cbn zeta. split; [cbn; set_solver |]. split; [reflexivity |].
  vm_compute. repeat split.
Qed.

(** ** Bucket keys *)

Section BucketKeyFacts.
Variable Req : Type.
Variable fl : Q -> Q.

Import RateLimiter.

Lemma get_bucket_stored (rl : t Req) (key scope : string)
    (limit window : Z) (now : Q) :
  let r := _get_bucket Req fl rl key scope limit window now in
  _buckets (snd r) !! bucket_key key scope = Some (fst r).
Proof.
  cbn zeta. unfold _get_bucket.
  destruct (_buckets rl !! bucket_key key scope) eqn:E; cbn; trivial.
  apply lookup_insert_eq.
Qed.

(** Two pairs with one bucket key get one bucket: the second lookup
    finds what the first one stored and creates nothing. *)
Lemma get_bucket_collision (rl : t Req) (key1 scope1 key2 scope2 : string)
    (limit1 window1 limit2 window2 : Z) (now1 now2 : Q) :
  bucket_key key1 scope1 = bucket_key key2 scope2 ->
  let r1 := _get_bucket Req fl rl key1 scope1 limit1 window1 now1 in
  _get_bucket Req fl (snd r1) key2 scope2 limit2 window2 now2 = r1.
Proof.
  intros Hkey. cbn zeta.
  pose proof (get_bucket_stored rl key1 scope1 limit1 window1 now1) as H.
  cbn zeta in H. rewrite Hkey in H.
  unfold _get_bucket at 1. rewrite H.
  now destruct (_get_bucket Req fl rl key1 scope1 limit1 window1 now1).
Qed.
End BucketKeyFacts.

(** C10: the bucket key is [key + ":" + scope], and it is not injective:
    [("a:b", "c")] and [("a", "b:c")] are different pairs with the same
    key.  Whenever two pairs have the same key, [_get_bucket] for the
    second returns the bucket it stored for the first and leaves the
    registry alone.  So with a limit of one per minute, a request of
    client ["a:b"] on scope ["c"] uses up the quota of client ["a"] on
    scope ["b:c"]. *)
Theorem bucket_key_not_injective (Req : Type) (fl : Q -> Q) :
  (forall key scope : string,
     RateLimiter.bucket_key key scope = key +:+ ":" +:+ scope)
  /\ ("a:b", "c")%string <> ("a", "b:c")%string
  /\ RateLimiter.bucket_key "a:b" "c" = RateLimiter.bucket_key "a" "b:c"
  /\ (forall (rl : RateLimiter.t Req) key1 scope1 key2 scope2
        limit1 window1 limit2 window2 now1 now2,
        RateLimiter.bucket_key key1 scope1 = RateLimiter.bucket_key key2 scope2 ->
        let r1 := RateLimiter._get_bucket Req fl rl key1 scope1
                    limit1 window1 now1 in
        RateLimiter._get_bucket Req fl (snd r1) key2 scope2
          limit2 window2 now2 = r1)
  /\ (let rl := RateLimiter.init string (fun req => req)
                  "sliding-window" true None in
      let r1 := RateLimiter.use_bucket string Float.exact rl
                  "a:b" "c" 1 60 1 "Rate limit exceeded" 0 in
      let r2 := RateLimiter.use_bucket string Float.exact (snd r1)
                  "a" "b:c" 1 60 1 "Rate limit exceeded" 1 in
      fst r1 = RateLimiter.Handler
      /\ fst r2 = RateLimiter.RateExceeded "Rate limit exceeded" 1
      /\ size (RateLimiter._buckets (snd r2)) = 1%nat).
Proof.
  split; [reflexivity |]. split; [discriminate |]. split; [reflexivity |].
  split; [intros; now apply get_bucket_collision |].
  vm_compute. repeat split.
Qed.

(** The two colliding pairs on an empty sliding-window registry. *)
Lemma bucket_key_not_injective_witness :
  let rl := RateLimiter.init string (fun req => req) "sliding-window" true None in
  let r1 := RateLimiter._get_bucket string Float.exact rl "a:b" "c" 1 60 0 in
  RateLimiter._get_bucket string Float.exact (snd r1) "a" "b:c" 5 3600 1 = r1.
Proof.
  destruct (bucket_key_not_injective string Float.exact)
    as (_ & _ & Hkey & Hsame & _).
  apply (Hsame _ "a:b" "c" "a" "b:c" 1 60 5 3600 0%Q 1%Q Hkey)%string.
Defined.

(** ** Middleware pipeline *)

Section PipelineFacts.
Variables Req Res R St : Type.

Import MiddlewarePipeline.

Local Abbreviation Mw := (Middleware Req Res R St).

(** The body of [execute], with its [if] read off the lookup. *)
Lemma execute_unfold (chain : list Mw) (req : Req) (res : Res)
    (h : FinalHandler Req Res R St) (index : nat) :
  execute chain req res h index
  = match @lookup nat Mw (list Mw) _ index chain with
    | None => h req res
    | Some mw => mw req res (execute chain req res h (S index))
    end.
Proof.
  rewrite execute_equation_1.
  generalize (inspect (chain !! index)). intros [o Ho].
  destruct o; simp execute; now rewrite Ho.
Qed.

(** [index >= len(chain)] is the case where the lookup finds nothing. *)
Lemma execute_past_end (chain : list Mw) (req : Req) (res : Res)
    (h : FinalHandler Req Res R St) (index : nat) :
  (length chain <= index)%nat ->
  execute chain req res h index = h req res.
Proof.
  intros Hge. rewrite execute_unfold.
  destruct (_ !! _) eqn:E; trivial.
  apply lookup_lt_Some in E. lia.
Qed.

Lemma execute_nest (chain : list Mw) (req : Req) (res : Res)
    (h : FinalHandler Req Res R St) (index : nat) :
  execute chain req res h index = nest (drop index chain) req res h.
Proof.
  remember (length chain - index)%nat as n eqn:Hn.
  revert index Hn. induction n as [| n IH]; intros index Hn.
  - rewrite execute_past_end by lia. now rewrite drop_ge by lia.
  - rewrite execute_unfold.
    destruct (_ !! _) as [mw |] eqn:E.
    + rewrite (drop_S _ _ _ E). cbn. now rewrite (IH (S index)) by lia.
    + apply lookup_ge_None in E. lia.
Qed.

Lemma of_list_stack (mws : list Mw) : _stack (of_list mws) = mws.
Proof.
  unfold of_list.
  assert (H : forall p, _stack (fold_left add mws p) = _stack p ++ mws).
  { induction mws as [| mw mws IH]; intros p; cbn.
    - now rewrite app_nil_r.
    - rewrite IH. cbn. now rewrite <- app_assoc. }
  apply H.
Qed.

(** [run] performs the nested calls of the chain. *)
Lemma run_nest (mws : list Mw) (req : Req) (res : Res)
    (h : FinalHandler Req Res R St) :
  run (of_list mws) req res h = nest mws req res h.
Proof.
  unfold run. rewrite execute_nest, of_list_stack. now rewrite drop_0.
Qed.

Lemma nest_app (pre post : list Mw) (req : Req) (res : Res)
    (h : FinalHandler Req Res R St) :
  nest (pre ++ post) req res h
  = nest pre req res (fun _ _ => nest post req res h).
Proof.
  induction pre as [| mw pre IH]; cbn; trivial. now rewrite IH.
Qed.

(** The onion: the [before] parts run first to last, then the inside,
    then the [after] parts last to first, and the value of the inside
    comes out unchanged. *)
Lemma nest_wraps (ws : list (Wrap Req Res R St)) (req : Req) (res : Res)
    (inner : FinalHandler Req Res R St) (s : St) :
  nest (map wrap ws) req res inner s
  = let '(result, s1) := inner req res (enter_all ws req res s) in
    (result, exit_all ws req res result s1).
Proof.
  revert s. induction ws as [| [before after] ws IH]; intros s; cbn.
  - now destruct (inner req res s).
  - unfold wrap at 1, wrapping, bind, ret. cbn.
    destruct (before req res s) as [[] s1]. cbn.
    rewrite IH.
    destruct (inner req res (enter_all ws req res s1)) as [result s2].
    now destruct (after req res result (exit_all ws req res result s2)) as [[] s3].
Qed.
End PipelineFacts.

Section LoggingFacts.
Variables Req Res R : Type.

Import MiddlewarePipeline.

Lemma enter_all_logging (names : list string) (req : Req) (res : Res)
    (s : list string) :
  enter_all (map (@logging_wrap Req Res R) names) req res s
  = s ++ map (fun n => n +:+ "-enter") names.
Proof.
  revert s. induction names as [| n names IH]; intros s; cbn.
  - now rewrite app_nil_r.
  - rewrite IH. now rewrite <- app_assoc.
Qed.

Lemma exit_all_logging (names : list string) (req : Req) (res : Res)
    (result : R) (s : list string) :
  exit_all (map (@logging_wrap Req Res R) names) req res result s
  = s ++ map (fun n => n +:+ "-exit") (rev names).
Proof.
  induction names as [| n names IH]; cbn.
  - now rewrite app_nil_r.
  - rewrite IH, map_app. cbn. now rewrite <- app_assoc.
Qed.

Lemma logging_mws_wrap (names : list string) :
  map (@logging_mw Req Res R) names
  = map wrap (map (@logging_wrap Req Res R) names).
Proof. now rewrite map_map. Qed.
End LoggingFacts.

(** C6: a pipeline of middlewares that each log ["<name>-enter"], call
    their continuation, log ["<name>-exit"] and return what the
    continuation returned, run with a handler that logs ["handle"],
    appends to the log the enter lines in registration order, then
    ["handle"], then the exit lines in reverse registration order, and
    returns the handler's value.  For [[A, B, C]] that is A-enter,
    B-enter, C-enter, handle, C-exit, B-exit, A-exit. *)
Theorem middleware_onion_order (Req Res R : Type) (req : Req) (res : Res)
    (r : R) :
  (forall (names : list string) (log0 : list string),
     MiddlewarePipeline.run
       (MiddlewarePipeline.of_list
          (map MiddlewarePipeline.logging_mw names))
       req res (MiddlewarePipeline.logging_handler r) log0
     = (r, log0 ++ map (fun n => n +:+ "-enter") names
             ++ ["handle"%string]
             ++ map (fun n => n +:+ "-exit") (rev names)))
  /\ MiddlewarePipeline.run
       (MiddlewarePipeline.add
          (MiddlewarePipeline.add
             (MiddlewarePipeline.add MiddlewarePipeline.init
                (MiddlewarePipeline.logging_mw "A"))
             (MiddlewarePipeline.logging_mw "B"))
          (MiddlewarePipeline.logging_mw "C"))
       req res (MiddlewarePipeline.logging_handler r) []
     = (r, ["A-enter"; "B-enter"; "C-enter"; "handle";
            "C-exit"; "B-exit"; "A-exit"]%string).
Proof.
  assert (Hgen : forall (names : list string) (log0 : list string),
     MiddlewarePipeline.run
       (MiddlewarePipeline.of_list
          (map MiddlewarePipeline.logging_mw names))
       req res (MiddlewarePipeline.logging_handler r) log0
     = (r, log0 ++ map (fun n => n +:+ "-enter") names
             ++ ["handle"%string]
             ++ map (fun n => n +:+ "-exit") (rev names))).
  { intros names log0.
    rewrite run_nest, logging_mws_wrap, nest_wraps.
    rewrite enter_all_logging. cbn.
    rewrite exit_all_logging. now rewrite <- !app_assoc. }
  split; [exact Hgen |].
  exact (Hgen ["A"; "B"; "C"]%string []).
Qed.

(** C7 (amended): if the middleware at some index of the chain is
    entered in a state where it returns without calling its
    continuation, then [execute] at that index does and returns exactly
    what that middleware does and returns: no later middleware and not
    the terminal handler runs.  When every middleware before it is of
    the wrapping kind, which returns what its continuation returned,
    [run] enters them first to last, runs the short-circuiting
    middleware, completes them last to first and returns that
    middleware's value; in particular this is so when it is the first
    of the chain. *)
Theorem middleware_short_circuit (Req Res R St : Type) (req : Req) (res : Res)
    (mw : MiddlewarePipeline.Middleware Req Res R St)
    (k : MiddlewarePipeline.M St R) :
  (forall (chain : list (MiddlewarePipeline.Middleware Req Res R St))
     (h : MiddlewarePipeline.FinalHandler Req Res R St) (index : nat) (s : St),
     chain !! index = Some mw ->
     MiddlewarePipeline.skips_next mw req res s ->
     MiddlewarePipeline.execute chain req res h index s = mw req res k s)
  /\ (forall (ws : list (MiddlewarePipeline.Wrap Req Res R St))
        (post : list (MiddlewarePipeline.Middleware Req Res R St))
        (h : MiddlewarePipeline.FinalHandler Req Res R St) (s : St),
        let s1 := MiddlewarePipeline.enter_all ws req res s in
        MiddlewarePipeline.skips_next mw req res s1 ->
        MiddlewarePipeline.run
          (MiddlewarePipeline.of_list
             (map MiddlewarePipeline.wrap ws ++ mw :: post))
          req res h s
        = let '(result, s2) := mw req res k s1 in
          (result, MiddlewarePipeline.exit_all ws req res result s2)).
Proof.
  split.
  - intros chain h index s Hmw Hskip.
    rewrite execute_unfold.
    replace (@lookup nat _ _ _ index chain) with (Some mw).
    apply Hskip.
  - intros ws post h s s1 Hskip.
    rewrite run_nest, nest_app, nest_wraps. fold s1. cbn.
    now rewrite (Hskip _ k).
Qed.

(** [[A, B, C]] where [B] logs its entry and returns 7 at once, and a
    handler that would return 0. *)
Lemma middleware_short_circuit_witness :
  MiddlewarePipeline.run
    (MiddlewarePipeline.of_list
       [MiddlewarePipeline.logging_mw "A";
        MiddlewarePipeline.stopping_mw "B" 7;
        MiddlewarePipeline.logging_mw "C"])
    tt tt (MiddlewarePipeline.logging_handler 0) []
  = (7, ["A-enter"; "B-enter"; "A-exit"]%string).
Proof.
  refine (proj2 (middleware_short_circuit unit unit Z (list string) tt tt
                   (MiddlewarePipeline.stopping_mw "B" 7)
                   (MiddlewarePipeline.ret 0))
            [MiddlewarePipeline.logging_wrap "A"]
            [MiddlewarePipeline.logging_mw "C"]
            (MiddlewarePipeline.logging_handler 0) [] _).
  intros k k'. reflexivity.
Defined.

(** C7 as stated fails: [B] returns ["b"] without calling its
    continuation, but the middleware before it returns ["a"] whatever
    its continuation returned, and ["a"] is the result of [run]. *)
Lemma middleware_short_circuit_counterexample :
  let chain :=
    [MiddlewarePipeline.replacing_mw "a"%string;
     MiddlewarePipeline.stopping_mw "B" "b"%string] in
  let h := MiddlewarePipeline.logging_handler "h"%string in
  MiddlewarePipeline.skips_next
    (MiddlewarePipeline.stopping_mw "B" "b"%string) tt tt []
  /\ MiddlewarePipeline.execute chain tt tt h 1 [] = ("b"%string, ["B-enter"%string])
  /\ MiddlewarePipeline.run (MiddlewarePipeline.of_list chain) tt tt h []
     = ("a"%string, ["B-enter"%string]).
Proof.
  cbn zeta. split; [intros k k'; reflexivity |].
  split; reflexivity.
Qed.

(** ** Sliding window: [reset_at] *)

(** C9 at its failing input.  A counter of limit 5 over 60 seconds is
    hit once at clock 0 and read at clock 100 with no call in between.
    No hit is left in the window (40, 100] and [remaining] says so, yet
    [reset_at] answers 0 + 60 = 60, a time in the past, where the claim
    asks for 100 + 60 = 160. *)
Theorem sliding_window_reset_at_stale :
  let s := snd (SlidingWindowCounter.hit Float.exact
                  (SlidingWindowCounter.init 5 60) 1 0) in
  SlidingWindowCounter._hits s = [0%Q]
  /\ SlidingWindowCounter.kept Float.exact s 100 = []
  /\ SlidingWindowCounter.remaining Float.exact s 100 = 5
  /\ (SlidingWindowCounter.reset_at Float.exact s 100 == 60)%Q
  /\ ~ (SlidingWindowCounter.reset_at Float.exact s 100 == 100 + 60)%Q.
Proof. vm_compute. repeat split; discriminate. Qed.

(** ** Shutdown *)

Section ShutdownFacts.
Variables Req W : Type.
Variable _serve_static : Req -> MiddlewarePipeline.M (PhotonAPI.St W) bool.
Variable dispatch :
  MiddlewarePipeline.FinalHandler Req unit PhotonAPI.Result (PhotonAPI.St W).

Import PhotonAPI.

(** The response of a call that finds the flag set. *)
Lemma try_block_shutting_down (a : t Req W) (req : Req) :
  _shutting_down a = true ->
  try_block Req W _serve_static dispatch a req
  = (WsgiResponse (503, "Service Unavailable"%string)
       [("Content-Type", "application/json; charset=utf-8");
        ("Connection", "close")]%string
       (Response.JsonDumps [("error", "Server is shutting down")]%string),
     a).
Proof. intros H. unfold try_block. now rewrite H. Qed.
End ShutdownFacts.

(** C8 (amended): a request that arrives while the shutting-down flag
    is set and whose [Request] object can be built gets the 503
    response with the header [Connection: close]; static serving, the
    middleware pipeline and the route handler are not called, so the
    application is left exactly as it was.  The request is counted
    while it is being refused: the in-flight counter is one higher from
    the entry of the call to its [finally] block, which brings it back
    to its value before the call.  The [Request] object cannot be built
    exactly when CONTENT_LENGTH is there, not empty and not a literal
    that [int()] accepts: the [ValueError] then leaves the call before
    the counter is touched and before the flag is read, no response is
    returned and the application is unchanged. *)
Theorem shutdown_rejection (Req W : Type)
    (_serve_static : Req -> MiddlewarePipeline.M (PhotonAPI.St W) bool)
    (dispatch : MiddlewarePipeline.FinalHandler Req unit PhotonAPI.Result
                  (PhotonAPI.St W))
    (new_request : Environ -> Z -> Req)
    (a : PhotonAPI.t Req W) (environ : Environ) :
  PhotonAPI._shutting_down a = true ->
  (forall length : Z,
     content_length environ = Return length ->
     let req := new_request environ length in
     PhotonAPI.__call__ Req W _serve_static dispatch new_request a environ
     = (a, Return
             (PhotonAPI.Returned
                (PhotonAPI.WsgiResponse (503, "Service Unavailable"%string)
                   [("Content-Type", "application/json; charset=utf-8");
                    ("Connection", "close")]%string
                   (Response.JsonDumps
                      [("error", "Server is shutting down")]%string))))
     /\ (let n := PhotonAPI._active_requests a in
         map PhotonAPI._active_requests
           (PhotonAPI.states Req W _serve_static dispatch 3 req a
              PhotonAPI.AtEntry)
         = [n; n + 1; n + 1; n])
     /\ Forall (fun a' => PhotonAPI.world a' = PhotonAPI.world a)
          (PhotonAPI.states Req W _serve_static dispatch 3 req a
             PhotonAPI.AtEntry))
  /\ (forall e : exn,
        content_length environ = Raise e ->
        PhotonAPI.__call__ Req W _serve_static dispatch new_request a environ
        = (a, Raise e))
  /\ ((exists e, content_length environ = Raise e)
      <-> exists literal,
            environ "CONTENT_LENGTH"%string = Some literal
            /\ literal <> EmptyString /\ Str.int literal = None).
Proof.
  intros Hflag. split; [| split].
  - intros length Hlen. cbn zeta.
    unfold PhotonAPI.__call__, PhotonAPI.request_of. rewrite Hlen.
    destruct a as [flag n mws w]. cbn in Hflag. subst flag. cbn.
    replace (n + 1 - 1) with n by lia.
    repeat split; repeat constructor.
  - intros e He. unfold PhotonAPI.__call__, PhotonAPI.request_of.
    now rewrite He.
  - unfold content_length, truthy.
    destruct (environ "CONTENT_LENGTH"%string) as [literal |].
    + destruct (String.eqb literal "") eqn:Ee.
      * apply String.eqb_eq in Ee. split.
        -- intros [e H]. discriminate.
        -- intros (l & [= <-] & Hne & _). contradiction.
      * apply String.eqb_neq in Ee.
        destruct (Str.int literal) as [n |] eqn:Ei.
        -- split.
           ++ intros [e H]. discriminate.
           ++ intros (l & [= <-] & _ & Hn). congruence.
        -- split; [| eauto]. intros _. exists literal. now repeat split.
    + split.
      * intros [e H]. discriminate.
      * intros (l & H & _). discriminate.
Qed.

(** An application with nothing in flight whose shutdown has begun,
    and a request without body. *)
Lemma shutdown_rejection_witness :
  let a := PhotonAPI.begin_shutdown unit unit
             (PhotonAPI.mk unit unit false 0 MiddlewarePipeline.init tt) in
  fst (PhotonAPI.__call__ unit unit
         (fun _ => MiddlewarePipeline.ret false)
         (fun _ _ => MiddlewarePipeline.ret PhotonAPI.NotStream)
         (fun _ _ => tt) a (fun _ => None)) = a.
Proof.
  cbn zeta.
  rewrite (proj1 (proj1 (shutdown_rejection unit unit
                           (fun _ => MiddlewarePipeline.ret false)
                           (fun _ _ => MiddlewarePipeline.ret PhotonAPI.NotStream)
                           (fun _ _ => tt)
                           (PhotonAPI.begin_shutdown unit unit
                              (PhotonAPI.mk unit unit false 0
                                 MiddlewarePipeline.init tt))
                           (fun _ => None) eq_refl)
                    0 eq_refl)).
  reflexivity.
Defined.

(** C8 as stated fails, twice.  A request refused by an application
    with nothing in flight is counted, the counter reading 1 while the
    response is built.  And a request whose CONTENT_LENGTH is ["abc"]
    gets no 503 response: [Request(environ)] raises. *)
Lemma shutdown_rejection_counterexample :
  let a := PhotonAPI.begin_shutdown unit unit
             (PhotonAPI.mk unit unit false 0 MiddlewarePipeline.init tt) in
  map PhotonAPI._active_requests
    (PhotonAPI.states unit unit
       (fun _ => MiddlewarePipeline.ret false)
       (fun _ _ => MiddlewarePipeline.ret PhotonAPI.NotStream)
       3 tt a PhotonAPI.AtEntry)
  = [0; 1; 1; 0]
  /\ PhotonAPI.__call__ unit unit
       (fun _ => MiddlewarePipeline.ret false)
       (fun _ _ => MiddlewarePipeline.ret PhotonAPI.NotStream)
       (fun _ _ => tt) a
       (fun key => if String.eqb key "CONTENT_LENGTH"
                   then Some "abc"%string else None)
     = (a, Raise (ValueError (InvalidLiteral "abc"))).
Proof. split; reflexivity. Qed.

(** * Further properties of the limiter *)

(** ** Sliding window: what it guarantees *)

Section SlidingWindowGuarantee.
Variable fl : Q -> Q.
Hypothesis fl_mono : forall x y : Q, (x <= y)%Q -> (fl x <= fl y)%Q.

Import SlidingWindowCounter.

Lemma in_window_hit (s : t) (cost : Z) (now1 now h : Q) :
  in_window fl (snd (hit fl s cost now1)) now h = in_window fl s now h.
Proof. unfold in_window. now rewrite hit_cutoff. Qed.

Lemma filter_repeat_false {A : Type} (p : A -> bool) (x : A) (n : nat) :
  p x = false -> List.filter p (repeat x n) = [].
Proof. intros H. induction n as [| n IH]; cbn; trivial. now rewrite H. Qed.

Lemma filter_length_weaker {A : Type} (p q : A -> bool) (l : list A) :
  (forall x, p x = true -> q x = true) ->
  (length (List.filter p l) <= length (List.filter q l))%nat.
Proof.
  intros Hpq. induction l as [| x l IH]; cbn; trivial.
  destruct (p x) eqn:Ep.
  - rewrite (Hpq x Ep). cbn. lia.
  - destruct (q x); cbn; lia.
Qed.

(** In every window, wherever it ends, at most [limit] hits were
    granted. *)
Lemma history_window_bound (s : t) (recorded : list Q) (last : Q) :
  history fl s recorded last -> 0 <= limit s ->
  forall t : Q,
    Z.of_nat (length (List.filter (in_window fl s t) recorded)) <= limit s.
Proof using fl_mono.
  induction 1 as [l w now | s recorded last cost now Hhist IH Hnow];
    intros Hlim t.
  - cbn in *. lia.
  - rewrite hit_limit in *. specialize (IH Hlim).
    rewrite (List.filter_ext _ _ (in_window_hit s cost now t)).
    destruct (fst (hit fl s cost now)) eqn:Hok; [| apply IH].
    destruct (Qlt_le_dec t now) as [Hlt | Hge].
    + rewrite List.filter_app, filter_repeat_false, app_nil_r; [apply IH |].
      unfold in_window. apply andb_false_intro2.
      apply not_true_iff_false. rewrite float_leb_le. lra.
    + destruct (history_inv fl fl_mono s recorded last Hhist)
        as (_ & Hkept & Hlen).
      specialize (Hlen Hlim). apply hit_ok in Hok.
      pose proof (Hkept now Hnow) as E.
      set (q := fun h : Q => Float.ltb (cutoff fl s now) h) in *.
      pose proof (filter_length_weaker (in_window fl s t) q
                    (recorded ++ repeat now (Z.to_nat cost))) as Hw.
      rewrite (List.filter_app q), length_app, <- E in Hw.
      pose proof (filter_length_bound q (repeat now (Z.to_nat cost))) as Hr.
      rewrite repeat_length in Hr.
      assert (Hk : (length (kept fl s now) <= length (_hits s))%nat)
        by apply filter_length_bound.
      assert (Himp : forall x, in_window fl s t x = true -> q x = true).
      { intros x Hx. unfold in_window in Hx. apply andb_prop in Hx as [Hx _].
        apply float_ltb_lt in Hx. apply float_ltb_lt.
        pose proof (cutoff_mono fl fl_mono s now t Hge). lra. }
      specialize (Hw Himp). lia.
Qed.
End SlidingWindowGuarantee.

(** X1: a sliding-window counter with a limit that is not negative never
    grants more than [limit] hits in one window: after any sequence of
    [hit] calls at clock readings that never go back, and for every
    instant [t], at most [limit] of the recorded timestamps lie in
    [(cutoff t, t]]. *)
Theorem sliding_window_rate_bound (fl : Q -> Q)
    (fl_mono : forall x y : Q, (x <= y)%Q -> (fl x <= fl y)%Q)
    (s : SlidingWindowCounter.t) (recorded : list Q) (last t : Q) :
  SlidingWindowCounter.history fl s recorded last ->
  0 <= SlidingWindowCounter.limit s ->
  Z.of_nat (length (List.filter (SlidingWindowCounter.in_window fl s t) recorded))
  <= SlidingWindowCounter.limit s.
Proof.
  intros Hhist Hlim. now apply (history_window_bound fl fl_mono s recorded last).
Qed.

(** Limit 2 over 60 seconds: two hits at clock 10, a third refused at
    clock 30. *)
Lemma sliding_window_rate_bound_witness :
  let s1 := snd (SlidingWindowCounter.hit Float.exact
                   (SlidingWindowCounter.init 2 60) 2 10) in
  let s2 := snd (SlidingWindowCounter.hit Float.exact s1 1 30) in
  Z.of_nat (length (List.filter (SlidingWindowCounter.in_window Float.exact s2 45)
                      [10%Q; 10%Q]))
  <= SlidingWindowCounter.limit s2.
Proof.
  cbn zeta.
  apply (sliding_window_rate_bound Float.exact (fun x y H => H) _ _ 30 45).
  - apply (SlidingWindowCounter.hist_hit Float.exact
             (snd (SlidingWindowCounter.hit Float.exact
                     (SlidingWindowCounter.init 2 60) 2 10))
             [10%Q; 10%Q] 10 1 30).
    + apply (SlidingWindowCounter.hist_hit Float.exact
               (SlidingWindowCounter.init 2 60) [] 0 2 10).
      * apply SlidingWindowCounter.hist_init.
      * discriminate.
    + discriminate.
  - discriminate.
Defined.

(** ** Sliding window: the order of the stored hits *)

Lemma strongly_sorted_filter {A : Type} (R : A -> A -> Prop) (p : A -> bool)
    (l : list A) :
  StronglySorted R l -> StronglySorted R (List.filter p l).
Proof.
  induction 1 as [| x l Hs IH Hx]; cbn; [constructor |].
  destruct (p x); trivial. constructor; trivial.
  apply List.Forall_forall. intros y Hy. apply List.filter_In in Hy as [Hy _].
  rewrite List.Forall_forall in Hx. now apply Hx.
Qed.

Lemma strongly_sorted_app {A : Type} (R : A -> A -> Prop) (l1 l2 : list A) :
  StronglySorted R l1 -> StronglySorted R l2 ->
  (forall x y, In x l1 -> In y l2 -> R x y) ->
  StronglySorted R (l1 ++ l2).
Proof.
  intros H1 H2 H12. induction H1 as [| x l1 Hs IH Hx]; cbn; trivial.
  constructor.
  - apply IH. intros a b Ha Hb. apply H12; [now right | trivial].
  - apply List.Forall_app. split; trivial.
    apply List.Forall_forall. intros y Hy. apply H12; [now left | trivial].
Qed.

Lemma strongly_sorted_repeat (x : Q) (n : nat) :
  StronglySorted Qle (repeat x n).
Proof.
  induction n as [| n IH]; cbn; constructor; trivial.
  apply List.Forall_forall. intros y Hy. apply repeat_spec in Hy. subst y.
  apply Qle_refl.
Qed.

Lemma history_hits_sorted (fl : Q -> Q)
    (s : SlidingWindowCounter.t) (recorded : list Q) (last : Q) :
  SlidingWindowCounter.history fl s recorded last ->
  StronglySorted Qle (SlidingWindowCounter._hits s)
  /\ Forall (fun h => (h <= last)%Q) (SlidingWindowCounter._hits s).
Proof.
  induction 1 as [l w now | s recorded last cost now _ [IHs IHl] Hnow].
  - split; constructor.
  - rewrite hit_hits.
    assert (Hk : Forall (fun h => (h <= now)%Q)
                   (SlidingWindowCounter.kept fl s now)).
    { apply List.Forall_forall. intros h Hh.
      apply List.filter_In in Hh as [Hh _].
      rewrite List.Forall_forall in IHl. specialize (IHl h Hh). cbn in IHl. lra. }
    assert (Hr : forall n h, In h (repeat now n) -> h = now)
      by (intros n h Hh; now apply repeat_spec in Hh).
    destruct (fst (SlidingWindowCounter.hit fl s cost now)).
    + split.
      * apply strongly_sorted_app.
        -- now apply strongly_sorted_filter.
        -- apply strongly_sorted_repeat.
        -- intros x y Hx Hy. apply Hr in Hy. subst y.
           rewrite List.Forall_forall in Hk. now apply Hk.
      * apply List.Forall_app. split; trivial.
        apply List.Forall_forall. intros h Hh. apply Hr in Hh. subst h.
        apply Qle_refl.
    + rewrite app_nil_r. split; trivial. now apply strongly_sorted_filter.
Qed.

(** X2: the list a sliding-window counter stores is in time order,
    oldest first, and holds nothing later than the last call: [_hits[0]]
    is the oldest stored hit and [_hits[-1]] the most recent one, which
    is what [reset_at] and [_cleanup_expired] read them as. *)
Theorem sliding_window_hits_sorted (fl : Q -> Q)
    (s : SlidingWindowCounter.t) (recorded : list Q) (last : Q) :
  SlidingWindowCounter.history fl s recorded last ->
  StronglySorted Qle (SlidingWindowCounter._hits s)
  /\ Forall (fun h => (h <= last)%Q) (SlidingWindowCounter._hits s).
Proof. apply history_hits_sorted. Qed.

(** Hits at clocks 10, 10 and 30 under a limit of 5. *)
Lemma sliding_window_hits_sorted_witness :
  let s1 := snd (SlidingWindowCounter.hit Float.exact
                   (SlidingWindowCounter.init 5 60) 2 10) in
  let s2 := snd (SlidingWindowCounter.hit Float.exact s1 1 30) in
  StronglySorted Qle (SlidingWindowCounter._hits s2)
  /\ Forall (fun h => (h <= 30)%Q) (SlidingWindowCounter._hits s2).
Proof.
  cbn zeta.
  apply (sliding_window_hits_sorted Float.exact _ [10%Q; 10%Q; 30%Q] 30).
  apply (SlidingWindowCounter.hist_hit Float.exact
           (snd (SlidingWindowCounter.hit Float.exact
                   (SlidingWindowCounter.init 5 60) 2 10))
           [10%Q; 10%Q] 10 1 30).
  - apply (SlidingWindowCounter.hist_hit Float.exact
             (SlidingWindowCounter.init 5 60) [] 0 2 10).
    + apply SlidingWindowCounter.hist_init.
    + discriminate.
  - discriminate.
Defined.

(** ** Sliding window: [remaining] and [hit] *)

Lemma filter_repeat_true {A : Type} (p : A -> bool) (x : A) (n : nat) :
  p x = true -> List.filter p (repeat x n) = repeat x n.
Proof.
  intros H. induction n as [| n IH]; cbn; trivial. now rewrite H, IH.
Qed.

(** X3: for a cost above 0, [hit(cost)] succeeds exactly when [cost] is
    at most what [remaining] answers at the same clock reading; and when
    it succeeds, and the cutoff is before that reading (a positive
    window), [remaining] read again at that reading has gone down by
    exactly [cost]. *)
Theorem sliding_window_remaining_predicts_hit (fl : Q -> Q)
    (s : SlidingWindowCounter.t) (cost : Z) (now : Q) :
  0 < cost ->
  let r := SlidingWindowCounter.hit fl s cost now in
  (fst r = true <-> cost <= SlidingWindowCounter.remaining fl s now)
  /\ (fst r = true ->
      (SlidingWindowCounter.cutoff fl s now < now)%Q ->
      SlidingWindowCounter.remaining fl (snd r) now
      = SlidingWindowCounter.remaining fl s now - cost).
Proof.
  intros Hcost. cbn zeta. split.
  - rewrite hit_ok. unfold SlidingWindowCounter.remaining. cbn zeta. lia.
  - intros Hok Hcut. unfold SlidingWindowCounter.remaining. cbn zeta.
    assert (Hlen : length (SlidingWindowCounter.kept fl
                             (snd (SlidingWindowCounter.hit fl s cost now)) now)
                   = (length (SlidingWindowCounter.kept fl s now)
                      + Z.to_nat cost)%nat).
    { unfold SlidingWindowCounter.kept at 1.
      rewrite hit_cutoff, hit_hits, Hok, List.filter_app.
      unfold SlidingWindowCounter.kept at 1.
      rewrite filter_filter_weaker by trivial.
      rewrite filter_repeat_true by now apply float_ltb_lt.
      now rewrite length_app, repeat_length. }
    rewrite Hlen, hit_limit. apply hit_ok in Hok. lia.
Qed.

(** Limit 5, two hits stored, a call of cost 2. *)
Lemma sliding_window_remaining_predicts_hit_witness :
  let s := SlidingWindowCounter.mk 5 60 [1%Q; 2%Q] in
  SlidingWindowCounter.remaining Float.exact s 10 = 3
  /\ fst (SlidingWindowCounter.hit Float.exact s 2 10) = true
  /\ SlidingWindowCounter.remaining Float.exact
       (snd (SlidingWindowCounter.hit Float.exact s 2 10)) 10 = 1.
Proof.
  cbn zeta.
  pose proof (sliding_window_remaining_predicts_hit Float.exact
                (SlidingWindowCounter.mk 5 60 [1%Q; 2%Q]) 2 10 eq_refl)
    as [H1 H2].
  split; [reflexivity |]. split; [apply H1; vm_compute; discriminate |].
  rewrite H2; [reflexivity | apply H1; vm_compute; discriminate | reflexivity].
Defined.

(** ** Exact arithmetic *)

Lemma exact_mono (x y : Q) : (x <= y)%Q -> (Float.exact x <= Float.exact y)%Q.
Proof. intros H. exact H. Qed.

Lemma exact_zero : (Float.exact 0 == 0)%Q.
Proof. reflexivity. Qed.

(** ** Fixed window: what it guarantees *)

Section FixedWindowFacts.
Variable fl : Q -> Q.

Import FixedWindowCounter.

Lemma fixed_hit_ok (s : t) (cost : Z) (now : Q) :
  fst (hit fl s cost now) = true
  <-> _count (rolled fl s now) + cost <= limit s.
Proof.
  unfold hit.
  assert (Hl : limit (rolled fl s now) = limit s)
    by (unfold rolled; now destruct (expired fl s now)).
  rewrite Hl.
  destruct (_count (rolled fl s now) + cost <=? limit s) eqn:L; cbn.
  - apply Z.leb_le in L. now split.
  - apply Z.leb_gt in L. split; [discriminate | lia].
Qed.

Lemma fixed_hit_limit (s : t) (cost : Z) (now : Q) :
  limit (snd (hit fl s cost now)) = limit s.
Proof.
  unfold hit, rolled.
  destruct (expired fl s now); cbn; destruct (_ <=? _); reflexivity.
Qed.

Lemma fixed_hit_count (s : t) (cost : Z) (now : Q) :
  _count (snd (hit fl s cost now))
  = _count (rolled fl s now) + (if fst (hit fl s cost now) then cost else 0).
Proof. unfold hit. destruct (_ <=? _); cbn; lia. Qed.

Lemma rolled_count (s : t) (now : Q) :
  _count (rolled fl s now) = if expired fl s now then 0 else _count s.
Proof. unfold rolled. now destruct (expired fl s now). Qed.
End FixedWindowFacts.

(** X5: a fixed-window counter built with a limit that is not negative
    and hit with costs that are not negative always has a count between
    0 and [limit]: within one window it never grants more than
    [limit]. *)
Theorem fixed_window_count_bound (fl : Q -> Q) (s : FixedWindowCounter.t) :
  FixedWindowCounter.reachable fl s ->
  0 <= FixedWindowCounter._count s <= FixedWindowCounter.limit s.
Proof.
  induction 1 as [l w now Hl | s cost now _ IH Hcost].
  - cbn. lia.
  - rewrite fixed_hit_limit, fixed_hit_count, rolled_count.
    pose proof (fixed_hit_ok fl s cost now) as Hok.
    rewrite rolled_count in Hok.
    destruct (fst (FixedWindowCounter.hit fl s cost now)).
    + destruct Hok as [Hok _]. specialize (Hok eq_refl).
      destruct (FixedWindowCounter.expired fl s now); lia.
    + destruct (FixedWindowCounter.expired fl s now); lia.
Qed.

(** Limit 3 over 60 seconds, hit with costs 2, 2 and 1. *)
Lemma fixed_window_count_bound_witness :
  let s0 := FixedWindowCounter.init 3 60 0 in
  let s1 := snd (FixedWindowCounter.hit Float.exact s0 2 1) in
  let s2 := snd (FixedWindowCounter.hit Float.exact s1 2 2) in
  let s3 := snd (FixedWindowCounter.hit Float.exact s2 1 3) in
  0 <= FixedWindowCounter._count s3 <= FixedWindowCounter.limit s3.
Proof.
  cbn zeta. apply (fixed_window_count_bound Float.exact).
  repeat (apply FixedWindowCounter.reach_hit; [| lia]).
  apply FixedWindowCounter.reach_init. lia.
Defined.

(** X6: for a cost above 0, a fixed-window [hit(cost)] succeeds exactly
    when [cost] is at most what [remaining] answers at the same clock
    reading; when it succeeds, and a window that opens at that reading
    has not run out at once (a positive window), [remaining] read again
    at that reading has gone down by exactly [cost]. *)
Theorem fixed_window_remaining_predicts_hit (fl : Q -> Q)
    (s : FixedWindowCounter.t) (cost : Z) (now : Q) :
  0 < cost ->
  let r := FixedWindowCounter.hit fl s cost now in
  (fst r = true <-> cost <= FixedWindowCounter.remaining fl s now)
  /\ (fst r = true ->
      (Float.sub fl now now < FixedWindowCounter.window s)%Q ->
      FixedWindowCounter.remaining fl (snd r) now
      = FixedWindowCounter.remaining fl s now - cost).
Proof.
  intros Hcost. cbn zeta.
  pose proof (fixed_hit_ok fl s cost now) as Hok.
  rewrite rolled_count in Hok. split.
  - rewrite Hok. unfold FixedWindowCounter.remaining.
    destruct (FixedWindowCounter.expired fl s now); lia.
  - intros Hr Hpos. apply Hok in Hr.
    assert (Hexp : FixedWindowCounter.expired fl
                     (snd (FixedWindowCounter.hit fl s cost now)) now = false).
    { unfold FixedWindowCounter.hit, FixedWindowCounter.rolled.
      destruct (FixedWindowCounter.expired fl s now) eqn:E; cbn;
        destruct (_ <=? _); cbn; trivial;
        unfold FixedWindowCounter.expired; cbn;
        apply not_true_iff_false; rewrite float_leb_le; lra. }
    unfold FixedWindowCounter.remaining at 1.
    rewrite Hexp, fixed_hit_limit, fixed_hit_count, rolled_count.
    assert (Hfst : fst (FixedWindowCounter.hit fl s cost now) = true)
      by (apply fixed_hit_ok; now rewrite rolled_count).
    rewrite Hfst. unfold FixedWindowCounter.remaining.
    destruct (FixedWindowCounter.expired fl s now); lia.
Qed.

(** Limit 5, count 3, window opened at clock 0, a call of cost 2 at
    clock 10. *)
Lemma fixed_window_remaining_predicts_hit_witness :
  let s := FixedWindowCounter.mk 5 60 3 0 in
  FixedWindowCounter.remaining Float.exact s 10 = 2
  /\ fst (FixedWindowCounter.hit Float.exact s 2 10) = true
  /\ FixedWindowCounter.remaining Float.exact
       (snd (FixedWindowCounter.hit Float.exact s 2 10)) 10 = 0.
Proof.
  cbn zeta.
  pose proof (fixed_window_remaining_predicts_hit Float.exact
                (FixedWindowCounter.mk 5 60 3 0) 2 10 eq_refl) as [H1 H2].
  split; [reflexivity |]. split; [apply H1; vm_compute; discriminate |].
  rewrite H2; [reflexivity | apply H1; vm_compute; discriminate | reflexivity].
Defined.

(** X7: the fixed window lets twice the limit through around a window
    boundary.  A counter with count 0 hit with cost [limit] at a reading
    [t1] at which its window has not run out, and again with cost
    [limit] at a reading [t2] at which it has, grants both, however
    close [t1] and [t2] are. *)
Theorem fixed_window_boundary_burst (fl : Q -> Q)
    (s : FixedWindowCounter.t) (t1 t2 : Q) :
  FixedWindowCounter._count s = 0 ->
  0 <= FixedWindowCounter.limit s ->
  FixedWindowCounter.expired fl s t1 = false ->
  FixedWindowCounter.expired fl s t2 = true ->
  let r1 := FixedWindowCounter.hit fl s (FixedWindowCounter.limit s) t1 in
  let r2 := FixedWindowCounter.hit fl (snd r1) (FixedWindowCounter.limit s) t2 in
  fst r1 = true /\ fst r2 = true
  /\ FixedWindowCounter._count (snd r1) = FixedWindowCounter.limit s
  /\ FixedWindowCounter._count (snd r2) = FixedWindowCounter.limit s.
Proof.
  intros Hc Hl H1 H2. cbn zeta.
  assert (L : (0 + FixedWindowCounter.limit s <=? FixedWindowCounter.limit s)
              = true) by (apply Z.leb_le; lia).
  assert (Hr1 : FixedWindowCounter.hit fl s (FixedWindowCounter.limit s) t1
                = (true, FixedWindowCounter.mk (FixedWindowCounter.limit s)
                           (FixedWindowCounter.window s)
                           (0 + FixedWindowCounter.limit s)
                           (FixedWindowCounter._window_start s))).
  { unfold FixedWindowCounter.hit, FixedWindowCounter.rolled.
    now rewrite H1, Hc, L. }
  rewrite Hr1. cbn [fst snd].
  unfold FixedWindowCounter.hit, FixedWindowCounter.rolled.
  unfold FixedWindowCounter.expired in *. cbn. rewrite H2. cbn.
  rewrite L. cbn. repeat split; lia.
Qed.

(** Limit 5 over 60 seconds from clock 0: five at clock 59.9, five more
    at clock 60. *)
Lemma fixed_window_boundary_burst_witness :
  let s := FixedWindowCounter.init 5 60 0 in
  let r1 := FixedWindowCounter.hit Float.exact s 5 (599 # 10) in
  let r2 := FixedWindowCounter.hit Float.exact (snd r1) 5 60 in
  fst r1 = true /\ fst r2 = true
  /\ FixedWindowCounter._count (snd r1) = 5
  /\ FixedWindowCounter._count (snd r2) = 5.
Proof.
  cbn zeta.
  apply (fixed_window_boundary_burst Float.exact
           (FixedWindowCounter.init 5 60 0) (599 # 10) 60);
    [reflexivity | discriminate | reflexivity | reflexivity].
Defined.

(** * Further properties of the registry *)

Section RegistryFacts.
Variable Req : Type.
Variable fl : Q -> Q.

Import RateLimiter.

Lemma get_bucket_frame (rl : t Req) (key scope : string) (limit window : Z)
    (now : Q) (k : string) :
  k <> bucket_key key scope ->
  _buckets (snd (_get_bucket Req fl rl key scope limit window now)) !! k
  = _buckets rl !! k.
Proof.
  intros Hk. unfold _get_bucket.
  destruct (_buckets rl !! bucket_key key scope); cbn; trivial.
  now apply lookup_insert_ne.
Qed.

Lemma get_bucket_fields (rl : t Req) (key scope : string) (limit window : Z)
    (now : Q) :
  let rl' := snd (_get_bucket Req fl rl key scope limit window now) in
  key_func rl' = key_func rl /\ strategy rl' = strategy rl
  /\ enabled rl' = enabled rl /\ _route_limits rl' = _route_limits rl
  /\ _redis_limiter rl' = _redis_limiter rl
  /\ _whitelist rl' = _whitelist rl /\ _blacklist rl' = _blacklist rl.
Proof.
  cbn zeta. unfold _get_bucket.
  destruct (_buckets rl !! bucket_key key scope); cbn; repeat split.
Qed.

(** Charging one bucket leaves every bucket under another key, and
    every other field of the limiter, as it was. *)
Lemma use_bucket_frame (rl : t Req) (client_key scope : string)
    (count window cost : Z) (msg : string) (now : Q) :
  let rl' := snd (use_bucket Req fl rl client_key scope count window cost
                    msg now) in
  (forall k, k <> bucket_key client_key scope ->
             _buckets rl' !! k = _buckets rl !! k)
  /\ key_func rl' = key_func rl /\ strategy rl' = strategy rl
  /\ enabled rl' = enabled rl /\ _route_limits rl' = _route_limits rl
  /\ _redis_limiter rl' = _redis_limiter rl
  /\ _whitelist rl' = _whitelist rl /\ _blacklist rl' = _blacklist rl.
Proof.
  cbn zeta. unfold use_bucket.
  pose proof (get_bucket_frame rl client_key scope count window now) as Hf.
  pose proof (get_bucket_fields rl client_key scope count window now) as Hg.
  cbn zeta in Hg.
  destruct (_get_bucket Req fl rl client_key scope count window now)
    as [b rl1]. cbn [snd] in *.
  destruct (bucket_take fl b cost now) as [[|] b']; cbn [snd];
    (split; [intros k Hk; cbn; rewrite lookup_insert_ne by congruence;
             now apply Hf | exact Hg]).
Qed.

(** The bucket the call charged is stored under its key. *)
Lemma use_bucket_stored (rl : t Req) (client_key scope : string)
    (count window cost : Z) (msg : string) (now : Q) :
  is_Some (_buckets (snd (use_bucket Req fl rl client_key scope count window
                            cost msg now))
           !! bucket_key client_key scope).
Proof.
  unfold use_bucket.
  destruct (_get_bucket Req fl rl client_key scope count window now)
    as [b rl1].
  destruct (bucket_take fl b cost now) as [[|] b']; cbn;
    rewrite lookup_insert_eq; eauto.
Qed.
End RegistryFacts.

(** X8: a request charges one bucket at most.  Whatever wrapper handles
    it ([limit], [shared_limit] or [dynamic]), every bucket stored under
    a key other than [client_key + ":" + scope] is left as it was, and
    so are the whitelist, the blacklist and the strategy. *)
Theorem request_charges_one_bucket (Req : Type) (fl : Q -> Q)
    (rl : RateLimiter.t Req) (req : Req) (now : Q) (k : string) :
  (forall (w : RateLimiter.LimitWrapper Req),
     let client_key :=
       default (RateLimiter.key_func rl)
         (RateLimiter.ld_key_func Req (RateLimiter.lw_decorator Req w)) req in
     let rl' := snd (RateLimiter.limit_wrapper Req fl w rl req now) in
     (k <> RateLimiter.bucket_key client_key (RateLimiter.lw_fn_scope Req w) ->
      RateLimiter._buckets rl' !! k = RateLimiter._buckets rl !! k)
     /\ RateLimiter._whitelist rl' = RateLimiter._whitelist rl
     /\ RateLimiter._blacklist rl' = RateLimiter._blacklist rl
     /\ RateLimiter.strategy rl' = RateLimiter.strategy rl)
  /\ (forall (d : RateLimiter.SharedDecorator Req),
        let client_key :=
          default (RateLimiter.key_func rl) (RateLimiter.sd_key_func Req d) req in
        let rl' := snd (RateLimiter.shared_wrapper Req fl d rl req now) in
        (k <> RateLimiter.bucket_key client_key (RateLimiter.sd_scope_name Req d) ->
         RateLimiter._buckets rl' !! k = RateLimiter._buckets rl !! k)
        /\ RateLimiter._whitelist rl' = RateLimiter._whitelist rl
        /\ RateLimiter._blacklist rl' = RateLimiter._blacklist rl
        /\ RateLimiter.strategy rl' = RateLimiter.strategy rl)
  /\ (forall (w : RateLimiter.DynamicWrapper Req),
        let rl' := snd (RateLimiter.dynamic_wrapper Req fl w rl req now) in
        (k <> RateLimiter.bucket_key (RateLimiter.key_func rl req)
                (RateLimiter.dw_fn_name Req w) ->
         RateLimiter._buckets rl' !! k = RateLimiter._buckets rl !! k)
        /\ RateLimiter._whitelist rl' = RateLimiter._whitelist rl
        /\ RateLimiter._blacklist rl' = RateLimiter._blacklist rl
        /\ RateLimiter.strategy rl' = RateLimiter.strategy rl).
Proof.
  split; [| split].
  - intros w. cbn zeta. unfold RateLimiter.limit_wrapper.
    destruct (RateLimiter.enabled rl); cbn; [| tauto].
    destruct (decide _); cbn; [tauto |].
    destruct (decide _); cbn; [tauto |].
    destruct (RateLimiter._redis_limiter rl) as [check |].
    + destruct (check _ _ _) as [[|] remaining]; cbn; tauto.
    + match goal with
      | |- context [RateLimiter.use_bucket _ _ ?a ?b ?c ?d ?e ?f ?g ?h] =>
          pose proof (use_bucket_frame Req fl a b c d e f g h) as Hf
      end.
      cbn zeta in Hf. destruct Hf as (Hb & _ & Hs & _ & _ & _ & Hw & Hbl).
      repeat split; trivial. intros Hk. now apply Hb.
  - intros d. cbn zeta. unfold RateLimiter.shared_wrapper.
    destruct (RateLimiter.enabled rl); cbn; [| tauto].
    destruct (decide _); cbn; [tauto |].
    destruct (RateLimiter._redis_limiter rl) as [check |].
    + destruct (check _ _ _) as [[|] remaining]; cbn; tauto.
    + match goal with
      | |- context [RateLimiter.use_bucket _ _ ?a ?b ?c ?d ?e ?f ?g ?h] =>
          pose proof (use_bucket_frame Req fl a b c d e f g h) as Hf
      end.
      cbn zeta in Hf. destruct Hf as (Hb & _ & Hs & _ & _ & _ & Hw & Hbl).
      repeat split; trivial. intros Hk. now apply Hb.
  - intros w. cbn zeta. unfold RateLimiter.dynamic_wrapper.
    destruct (RateLimiter.enabled rl); cbn; [| tauto].
    destruct (_parse_rate _) as [[count window] | e]; cbn; [| tauto].
    match goal with
    | |- context [RateLimiter.use_bucket _ _ ?a ?b ?c ?d ?e ?f ?g ?h] =>
        pose proof (use_bucket_frame Req fl a b c d e f g h) as Hf
    end.
    cbn zeta in Hf. destruct Hf as (Hb & _ & Hs & _ & _ & _ & Hw & Hbl).
    repeat split; trivial. intros Hk. now apply Hb.
Qed.

(** Two wild-card keys and one request. *)
Lemma request_charges_one_bucket_witness :
  let rl := RateLimiter.init string (fun req => req) "sliding-window" true None in
  let w := RateLimiter.dynamic string (fun _ => "1/minute"%string) "app.index" in
  let rl1 := snd (RateLimiter.dynamic_wrapper string Float.exact w rl "10.0.0.1"%string 0) in
  let rl2 := snd (RateLimiter.dynamic_wrapper string Float.exact w rl1 "10.0.0.2"%string 1) in
  RateLimiter._buckets rl2 !! "10.0.0.1:app.index"%string
  = RateLimiter._buckets rl1 !! "10.0.0.1:app.index"%string.
Proof.
  cbn zeta.
  refine (proj1 (proj2 (proj2 (request_charges_one_bucket string Float.exact _
                                 "10.0.0.2"%string 1
                                 "10.0.0.1:app.index"%string)) _) _).
  discriminate.
Defined.

Section RegistryDecisions.
Variable Req : Type.
Variable fl : Q -> Q.

Import RateLimiter.

Lemma use_bucket_existing (rl : t Req) (client_key scope : string)
    (count window cost : Z) (msg : string) (now : Q) (b : Bucket) :
  _buckets rl !! bucket_key client_key scope = Some b ->
  use_bucket Req fl rl client_key scope count window cost msg now
  = (if fst (bucket_take fl b cost now) then Handler
     else RateExceeded msg count,
     set_buckets Req rl
       (<[bucket_key client_key scope := snd (bucket_take fl b cost now)]>
          (_buckets rl))).
Proof.
  intros Hb. unfold use_bucket, _get_bucket. rewrite Hb.
  now destruct (bucket_take fl b cost now) as [[|] b'].
Qed.

(** The blacklist plays no part in [use_bucket]. *)
Lemma use_bucket_blacklist (rl : t Req) (key client_key scope : string)
    (count window cost : Z) (msg : string) (now : Q) :
  let r := use_bucket Req fl rl client_key scope count window cost msg now in
  let r' := use_bucket Req fl (blacklist_key Req rl key) client_key scope
              count window cost msg now in
  fst r' = fst r /\ _buckets (snd r') = _buckets (snd r).
Proof.
  cbn zeta. unfold use_bucket, _get_bucket, blacklist_key, new_bucket. cbn.
  destruct (_buckets rl !! bucket_key client_key scope) as [b |]; cbn.
  - destruct (bucket_take fl b cost now) as [[|] b']; cbn; now split.
  - destruct (bucket_take fl _ cost now) as [[|] b']; cbn; now split.
Qed.
End RegistryDecisions.

(** X9: once a client has a bucket on a [dynamic] route, the rate string
    the rate function returns no longer matters for admission: two
    rate functions whose strings both parse lead, on the same request,
    to the same registry and to the same decision to run the handler
    or to refuse.  The bucket keeps the limit and window it was created
    with. *)
Theorem dynamic_rate_change_ignored (Req : Type) (fl : Q -> Q)
    (rl : RateLimiter.t Req) (req : Req) (now : Q)
    (rate_func1 rate_func2 : Req -> string) (fn_name : string)
    (count1 window1 count2 window2 : Z) :
  RateLimiter.enabled rl = true ->
  is_Some (RateLimiter._buckets rl
           !! RateLimiter.bucket_key (RateLimiter.key_func rl req) fn_name) ->
  _parse_rate (rate_func1 req) = Return (count1, window1) ->
  _parse_rate (rate_func2 req) = Return (count2, window2) ->
  let r1 := RateLimiter.dynamic_wrapper Req fl
              (RateLimiter.dynamic Req rate_func1 fn_name) rl req now in
  let r2 := RateLimiter.dynamic_wrapper Req fl
              (RateLimiter.dynamic Req rate_func2 fn_name) rl req now in
  snd r1 = snd r2
  /\ (fst r1 = RateLimiter.Handler <-> fst r2 = RateLimiter.Handler).
Proof.
  intros Hen [b Hb] H1 H2. cbn zeta.
  unfold RateLimiter.dynamic_wrapper, RateLimiter.dynamic. cbn.
  rewrite Hen, H1, H2. cbn.
  rewrite !(use_bucket_existing Req fl rl _ _ _ _ _ _ _ b Hb).
  cbn. split; trivial.
  destruct (fst (RateLimiter.bucket_take fl b 1 now)); [tauto |].
  split; discriminate.
Qed.

(** A client created under 1 per minute is refused at once even when
    the rate function has moved to 100 per minute. *)
Lemma dynamic_rate_change_ignored_witness :
  let rl0 := RateLimiter.init string (fun req => req) "sliding-window" true None in
  let w1 := RateLimiter.dynamic string (fun _ => "1/minute"%string) "app.index" in
  let w2 := RateLimiter.dynamic string (fun _ => "100/minute"%string) "app.index" in
  let rl1 := snd (RateLimiter.dynamic_wrapper string Float.exact w1 rl0 "10.0.0.1"%string 0) in
  fst (RateLimiter.dynamic_wrapper string Float.exact w2 rl1 "10.0.0.1"%string 1)
  = RateLimiter.RateExceeded "Rate limit exceeded" 100.
Proof.
  cbn zeta.
  pose proof (dynamic_rate_change_ignored string Float.exact
                (snd (RateLimiter.dynamic_wrapper string Float.exact
                        (RateLimiter.dynamic string (fun _ => "1/minute"%string)
                           "app.index")
                        (RateLimiter.init string (fun req => req)
                           "sliding-window" true None)
                        "10.0.0.1"%string 0))
                "10.0.0.1"%string 1
                (fun _ => "1/minute"%string) (fun _ => "100/minute"%string)
                "app.index" 1 60 100 60 eq_refl) as H.
  cbn zeta in H.
  destruct H as [_ H]; [vm_compute; eauto | reflexivity | reflexivity |].
  vm_compute. reflexivity.
Defined.

(** X10: the order in which the wrapper of [limit] decides.  A disabled
    limiter runs the handler; otherwise a whitelisted key runs the
    handler, blacklisted or not; otherwise a blacklisted key is refused
    with "Access denied".  In all three cases the limiter is left as it
    was: no bucket is created or charged and Redis is not asked. *)
Theorem limit_wrapper_precedence (Req : Type) (fl : Q -> Q)
    (w : RateLimiter.LimitWrapper Req) (rl : RateLimiter.t Req) (req : Req)
    (now : Q) :
  let d := RateLimiter.lw_decorator Req w in
  let client_key :=
    default (RateLimiter.key_func rl) (RateLimiter.ld_key_func Req d) req in
  let r := RateLimiter.limit_wrapper Req fl w rl req now in
  (RateLimiter.enabled rl = false -> r = (RateLimiter.Handler, rl))
  /\ (client_key ∈ RateLimiter._whitelist rl -> r = (RateLimiter.Handler, rl))
  /\ (RateLimiter.enabled rl = true ->
      client_key ∉ RateLimiter._whitelist rl ->
      client_key ∈ RateLimiter._blacklist rl ->
      r = (RateLimiter.RateExceeded "Access denied" (RateLimiter.ld_count Req d),
           rl)).
Proof.
  cbn zeta. unfold RateLimiter.limit_wrapper. repeat split.
  - now intros ->.
  - intros Hin. destruct (RateLimiter.enabled rl); cbn; trivial.
    destruct (decide _) as [_ | Hout]; [trivial | now destruct Hout].
  - intros -> Hout Hin. cbn.
    destruct (decide _) as [Hw | _]; [now destruct Hout |].
    destruct (decide _) as [_ | Hb]; [trivial | now destruct Hb].
Qed.

(** X11: the blacklist only exists for [limit].  Blacklisting a key
    changes neither what the wrappers of [shared_limit] and [dynamic]
    answer to any request nor the buckets they leave. *)
Theorem blacklist_ignored_by_shared_and_dynamic (Req : Type) (fl : Q -> Q)
    (rl : RateLimiter.t Req) (key : string) (req : Req) (now : Q) :
  (forall d : RateLimiter.SharedDecorator Req,
     let r := RateLimiter.shared_wrapper Req fl d rl req now in
     let r' := RateLimiter.shared_wrapper Req fl d
                 (RateLimiter.blacklist_key Req rl key) req now in
     fst r' = fst r
     /\ RateLimiter._buckets (snd r') = RateLimiter._buckets (snd r))
  /\ (forall w : RateLimiter.DynamicWrapper Req,
        let r := RateLimiter.dynamic_wrapper Req fl w rl req now in
        let r' := RateLimiter.dynamic_wrapper Req fl w
                    (RateLimiter.blacklist_key Req rl key) req now in
        fst r' = fst r
        /\ RateLimiter._buckets (snd r') = RateLimiter._buckets (snd r)).
Proof.
  split.
  - intros d. cbn zeta. unfold RateLimiter.shared_wrapper.
    change (RateLimiter.enabled (RateLimiter.blacklist_key Req rl key))
      with (RateLimiter.enabled rl).
    change (RateLimiter.key_func (RateLimiter.blacklist_key Req rl key))
      with (RateLimiter.key_func rl).
    change (RateLimiter._whitelist (RateLimiter.blacklist_key Req rl key))
      with (RateLimiter._whitelist rl).
    change (RateLimiter._redis_limiter (RateLimiter.blacklist_key Req rl key))
      with (RateLimiter._redis_limiter rl).
    destruct (RateLimiter.enabled rl); cbn [negb]; [| now split].
    destruct (decide _); [now split |].
    destruct (RateLimiter._redis_limiter rl) as [check |].
    + destruct (check _ _ _) as [[|] remaining]; now split.
    + apply use_bucket_blacklist.
  - intros w. cbn zeta. unfold RateLimiter.dynamic_wrapper.
    change (RateLimiter.enabled (RateLimiter.blacklist_key Req rl key))
      with (RateLimiter.enabled rl).
    change (RateLimiter.key_func (RateLimiter.blacklist_key Req rl key))
      with (RateLimiter.key_func rl).
    destruct (RateLimiter.enabled rl); cbn [negb]; [| now split].
    destruct (_parse_rate _) as [[count window] | e]; [| now split].
    apply use_bucket_blacklist.
Qed.

(** Whitelisted and blacklisted at once: the handler runs. *)
Lemma limit_wrapper_precedence_witness :
  let rl := RateLimiter.blacklist_key string
              (RateLimiter.whitelist_key string
                 (RateLimiter.init string (fun req => req)
                    "sliding-window" true None)
                 "10.0.0.1")
              "10.0.0.1" in
  let w := RateLimiter.mkLimitWrapper string
             (RateLimiter.mkLimitDecorator string 1 60 "1/minute" None
                (fun _ => 1) None None)
             "app.index" in
  RateLimiter.limit_wrapper string Float.exact w rl "10.0.0.1"%string 0
  = (RateLimiter.Handler, rl).
Proof.
  cbn zeta.
  refine (proj1 (proj2 (limit_wrapper_precedence string Float.exact _ _
                          "10.0.0.1"%string 0)) _).
  cbn. set_solver.
Defined.

(** ** A key without a bucket *)

Section FreshKey.
Variable Req : Type.
Variable fl : Q -> Q.
Hypothesis fl_mono : forall x y : Q, (x <= y)%Q -> (fl x <= fl y)%Q.
Hypothesis fl_zero : (fl 0 == 0)%Q.

Import RateLimiter.

Lemma fl_proper (x y : Q) : (x == y)%Q -> (fl x == fl y)%Q.
Proof using fl_mono.
  intros H. apply Qle_antisym; apply fl_mono; rewrite H; apply Qle_refl.
Qed.

(** A bucket that refills at a rate that is not negative is still full
    when it is read at or after the clock reading of its creation. *)
Lemma refilled_init (capacity rate created now : Q) :
  (fl capacity == capacity)%Q -> (0 <= rate)%Q -> (created <= now)%Q ->
  TokenBucket.refilled fl (TokenBucket.init capacity rate created) now
  = capacity.
Proof using fl_mono fl_zero.
  intros Hcap Hrate Hnow. unfold TokenBucket.refilled, TokenBucket.init. cbn.
  unfold Float.min.
  destruct (Float.ltb _ capacity) eqn:L; trivial.
  apply float_ltb_lt in L. exfalso.
  unfold Float.add, Float.mul, Float.sub in L.
  assert (He : (0 <= fl (now - created))%Q).
  { apply (fl_nonneg fl fl_mono fl_zero). lra. }
  assert (Hm : (0 <= fl (fl (now - created) * rate))%Q).
  { apply (fl_nonneg fl fl_mono fl_zero). now apply Qmult_le_0_compat. }
  assert (Ha : (fl capacity
                <= fl (capacity + fl (fl (now - created) * rate)))%Q).
  { apply fl_mono. lra. }
  assert (Hc : (capacity <= fl capacity)%Q).
  { apply Qle_lteq. right. symmetry. exact Hcap. }
  lra.
Qed.

(** The rate [limit / window] of a new token bucket. *)
Lemma new_rate_nonneg (count window : Z) :
  0 <= count -> 0 < window ->
  (0 <= Float.div fl (inject_Z count) (inject_Z window))%Q.
Proof using fl_mono fl_zero.
  intros Hc Hw. unfold Float.div. apply (fl_nonneg fl fl_mono fl_zero).
  assert (Hw' : (0 < inject_Z window)%Q) by (unfold Qlt; cbn; lia).
  assert (Hc' : (0 <= inject_Z count)%Q) by (unfold Qle; cbn; lia).
  apply Qle_shift_div_l; [exact Hw' | lra].
Qed.

(** What the first charge of a new bucket answers. *)
Lemma new_bucket_take (rl : t Req) (count window cost : Z) (created now : Q) :
  (fl (inject_Z count) == inject_Z count)%Q ->
  (created <= now)%Q ->
  (strategy rl = "token-bucket"%string -> 0 <= count /\ 0 < window) ->
  fst (bucket_take fl (new_bucket Req fl rl count window created) cost now)
  = true
  <-> cost <= count.
Proof using fl_mono fl_zero.
  intros Hcount Hnow Htoken. unfold new_bucket.
  destruct (String.eqb (strategy rl) "token-bucket") eqn:Es.
  - apply String.eqb_eq in Es. destruct (Htoken Es) as [Hc Hw].
    cbn [bucket_take]. unfold TokenBucket.consume.
    rewrite (refilled_init _ _ _ _ Hcount (new_rate_nonneg _ _ Hc Hw) Hnow).
    destruct (Float.leb (inject_Z cost) (inject_Z count)) eqn:L; cbn.
    + apply float_leb_le in L. rewrite <- Zle_Qle in L. tauto.
    + apply not_true_iff_false in L. rewrite float_leb_le, <- Zle_Qle in L.
      split; [discriminate | tauto].
  - destruct (String.eqb (strategy rl) "fixed-window").
    + cbn [bucket_take].
      pose proof (fixed_hit_ok fl (FixedWindowCounter.init count
                                     (inject_Z window) created) cost now) as H.
      rewrite rolled_count in H.
      destruct (FixedWindowCounter.hit fl _ cost now) as [ok s'].
      cbn in *. rewrite H. destruct (FixedWindowCounter.expired fl _ now); lia.
    + cbn [bucket_take].
      pose proof (hit_ok fl (SlidingWindowCounter.init count (inject_Z window))
                    cost now) as H.
      destruct (SlidingWindowCounter.hit fl _ cost now) as [ok s'].
      cbn in *. rewrite H. lia.
Qed.

(** The call of [use_bucket_at] for a key that has no bucket. *)
Lemma use_bucket_at_fresh (rl : t Req) (client_key scope : string)
    (count window cost : Z) (msg : string) (created now : Q) :
  _buckets rl !! bucket_key client_key scope = None ->
  fst (use_bucket_at Req fl rl client_key scope count window cost msg
         created now)
  = if fst (bucket_take fl (new_bucket Req fl rl count window created)
              cost now)
    then Handler else RateExceeded msg count.
Proof.
  intros Hb. unfold use_bucket_at, _get_bucket. rewrite Hb.
  now destruct (bucket_take fl _ cost now) as [[|] b'].
Qed.

(** [use_bucket_at] leaves every bucket under another key, and every
    other field of the limiter, as it was. *)
Lemma use_bucket_at_frame (rl : t Req) (client_key scope : string)
    (count window cost : Z) (msg : string) (created now : Q) :
  let rl' := snd (use_bucket_at Req fl rl client_key scope count window cost
                    msg created now) in
  (forall k, k <> bucket_key client_key scope ->
             _buckets rl' !! k = _buckets rl !! k)
  /\ key_func rl' = key_func rl /\ strategy rl' = strategy rl
  /\ enabled rl' = enabled rl /\ _route_limits rl' = _route_limits rl
  /\ _redis_limiter rl' = _redis_limiter rl
  /\ _whitelist rl' = _whitelist rl /\ _blacklist rl' = _blacklist rl.
Proof.
  cbn zeta. unfold use_bucket_at.
  pose proof (get_bucket_frame Req fl rl client_key scope count window
                created) as Hf.
  pose proof (get_bucket_fields Req fl rl client_key scope count window
                created) as Hg.
  cbn zeta in Hg.
  destruct (_get_bucket Req fl rl client_key scope count window created)
    as [b rl1]. cbn [snd] in *.
  destruct (bucket_take fl b cost now) as [[|] b']; cbn [snd];
    (split; [intros k Hk; cbn; rewrite lookup_insert_ne by congruence;
             now apply Hf | exact Hg]).
Qed.

(** When the clock does not advance during the call, the wrapper is
    the one of the other sections. *)
Lemma limit_wrapper_at_once (w : LimitWrapper Req) (rl : t Req) (req : Req)
    (now : Q) :
  limit_wrapper_at Req fl w rl req now now = limit_wrapper Req fl w rl req now.
Proof. reflexivity. Qed.
End FreshKey.

(** X12: a client that has no bucket on a route is admitted exactly when
    the cost of its request is at most the route's count; this is the
    case of every client after [reset()].  Stated for the wrapper of
    [limit] on an enabled limiter without Redis and a key on neither
    list.  The constructor of the new bucket reads the clock at
    [created] and the charge reads it at [now], not before.  The
    arithmetic is exact or rounded by a monotone [fl] that fixes 0 and
    the count (a float represents the count exactly); with the
    token-bucket strategy the count is not negative and the window is
    positive, so that the bucket does not drain between the two
    readings. *)
Theorem first_request_admission (Req : Type) (fl : Q -> Q)
    (fl_mono : forall x y : Q, (x <= y)%Q -> (fl x <= fl y)%Q)
    (fl_zero : (fl 0 == 0)%Q)
    (w : RateLimiter.LimitWrapper Req) (rl : RateLimiter.t Req) (req : Req)
    (created now : Q) :
  let d := RateLimiter.lw_decorator Req w in
  let client_key :=
    default (RateLimiter.key_func rl) (RateLimiter.ld_key_func Req d) req in
  (fl (inject_Z (RateLimiter.ld_count Req d))
   == inject_Z (RateLimiter.ld_count Req d))%Q ->
  (created <= now)%Q ->
  (RateLimiter.strategy rl = "token-bucket"%string ->
   0 <= RateLimiter.ld_count Req d /\ 0 < RateLimiter.ld_window Req d) ->
  RateLimiter.enabled rl = true ->
  RateLimiter._redis_limiter rl = None ->
  client_key ∉ RateLimiter._whitelist rl ->
  client_key ∉ RateLimiter._blacklist rl ->
  (RateLimiter._buckets rl
   !! RateLimiter.bucket_key client_key (RateLimiter.lw_fn_scope Req w) = None ->
   (fst (RateLimiter.limit_wrapper_at Req fl w rl req created now)
    = RateLimiter.Handler
    <-> RateLimiter.ld_cost Req d req <= RateLimiter.ld_count Req d))
  /\ (fst (RateLimiter.limit_wrapper_at Req fl w (RateLimiter.reset Req rl)
             req created now)
      = RateLimiter.Handler
      <-> RateLimiter.ld_cost Req d req <= RateLimiter.ld_count Req d).
Proof.
  cbn zeta. intros Hcount Hnow Htoken Hen Hredis Hw Hb.
  assert (Hgen : forall rl0 : RateLimiter.t Req,
            RateLimiter.enabled rl0 = true ->
            RateLimiter._redis_limiter rl0 = None ->
            RateLimiter.key_func rl0 = RateLimiter.key_func rl ->
            RateLimiter.strategy rl0 = RateLimiter.strategy rl ->
            RateLimiter._whitelist rl0 = RateLimiter._whitelist rl ->
            RateLimiter._blacklist rl0 = RateLimiter._blacklist rl ->
            RateLimiter._buckets rl0
            !! RateLimiter.bucket_key
                 (default (RateLimiter.key_func rl)
                    (RateLimiter.ld_key_func Req (RateLimiter.lw_decorator Req w))
                    req)
                 (RateLimiter.lw_fn_scope Req w) = None ->
            (fst (RateLimiter.limit_wrapper_at Req fl w rl0 req created now)
             = RateLimiter.Handler
             <-> RateLimiter.ld_cost Req (RateLimiter.lw_decorator Req w) req
                 <= RateLimiter.ld_count Req (RateLimiter.lw_decorator Req w))).
  { intros rl0 Hen0 Hredis0 Hkf Hst Hw0 Hb0 Hfresh.
    unfold RateLimiter.limit_wrapper_at.
    rewrite Hen0, Hredis0, Hkf, Hw0, Hb0. cbn.
    destruct (decide _) as [Hin | _]; [now destruct Hw |].
    destruct (decide _) as [Hin | _]; [now destruct Hb |].
    rewrite (use_bucket_at_fresh Req fl rl0 _ _ _ _ _ _ _ _ Hfresh).
    rewrite <- Hst in Htoken.
    pose proof (new_bucket_take Req fl fl_mono fl_zero rl0
                  (RateLimiter.ld_count Req (RateLimiter.lw_decorator Req w))
                  (RateLimiter.ld_window Req (RateLimiter.lw_decorator Req w))
                  (RateLimiter.ld_cost Req (RateLimiter.lw_decorator Req w) req)
                  created now Hcount Hnow Htoken) as Hnew.
    destruct (fst (RateLimiter.bucket_take fl _ _ now)).
    - tauto.
    - split; [discriminate |]. intros H. apply Hnew in H. discriminate. }
  split.
  - intros Hfresh. now apply Hgen.
  - apply Hgen; trivial; cbn; apply lookup_empty.
Qed.

(** A token bucket of 1 per minute built at clock 0 and charged at
    clock 1: the client is refused at its second request and admitted
    again after [reset()]. *)
Lemma first_request_admission_witness :
  let rl0 := RateLimiter.init string (fun req => req) "token-bucket" true None in
  let w := RateLimiter.mkLimitWrapper string
             (RateLimiter.mkLimitDecorator string 1 60 "1/minute" None
                (fun _ => 1) None None)
             "app.index" in
  let rl1 := snd (RateLimiter.limit_wrapper_at string Float.exact w rl0
                    "10.0.0.1"%string 0 1) in
  fst (RateLimiter.limit_wrapper_at string Float.exact w rl1
         "10.0.0.1"%string 1 1)
  = RateLimiter.RateExceeded "Rate limit exceeded" 1
  /\ fst (RateLimiter.limit_wrapper_at string Float.exact w
            (RateLimiter.reset string rl1) "10.0.0.1"%string 1 2)
     = RateLimiter.Handler.
Proof.
  cbn zeta. split; [vm_compute; reflexivity |].
  refine (proj2 (proj2 (first_request_admission string Float.exact
                          exact_mono exact_zero _ _ "10.0.0.1"%string 1 2
                          _ _ _ _ _ _ _)) _);
    try reflexivity; try discriminate; try (cbn; set_solver).
  intros _. cbn. split; lia.
Defined.

(** ** [_cleanup_expired] *)

Lemma last_cons {A : Type} (rest : list A) (y h : A) :
  List.last (y :: rest) h = List.last rest y.
Proof.
  revert y h. induction rest as [| z rest IH]; intros y h; trivial.
  change (List.last (y :: z :: rest) h) with (List.last (z :: rest) h).
  now rewrite (IH z h), (IH z y).
Qed.

Lemma filter_none {A : Type} (p : A -> bool) (l : list A) :
  (forall x, In x l -> p x = false) -> List.filter p l = [].
Proof.
  induction l as [| x l IH]; intros H; cbn; trivial.
  rewrite (H x) by now left. apply IH. intros y Hy. apply H. now right.
Qed.

Lemma strongly_sorted_last (h : Q) (rest : list Q) :
  StronglySorted Qle (h :: rest) ->
  Forall (fun x => (x <= List.last rest h)%Q) (h :: rest).
Proof.
  revert h. induction rest as [| y rest IH]; intros h Hs.
  - cbn. constructor; [apply Qle_refl | constructor].
  - apply StronglySorted_inv in Hs as [Hs Hh].
    specialize (IH y Hs).
    rewrite last_cons.
    constructor; trivial.
    apply List.Forall_inv in Hh. apply List.Forall_inv in IH. lra.
Qed.

(** X13: [_cleanup_expired] only deletes, and only sliding-window
    buckets that pass its test: a token bucket or a fixed-window counter
    is never removed, a bucket that fails the test stays as it is, and
    every bucket found afterwards was there before, unchanged.  With
    the token-bucket and fixed-window strategies the registry therefore
    never shrinks. *)
Theorem cleanup_only_deletes_expired (Req : Type) (fl : Q -> Q)
    (rl : RateLimiter.t Req) (now : Q) (k : string) :
  let rl' := RateLimiter._cleanup_expired Req fl rl now in
  (forall b, RateLimiter._buckets rl' !! k = Some b ->
             RateLimiter._buckets rl !! k = Some b)
  /\ (forall b, RateLimiter._buckets rl !! k = Some b ->
                RateLimiter.cleanup_expired fl b now = false ->
                RateLimiter._buckets rl' !! k = Some b)
  /\ (forall b, RateLimiter._buckets rl !! k = Some b ->
                RateLimiter.cleanup_expired fl b now = true ->
                RateLimiter._buckets rl' !! k = None)
  /\ (forall b, RateLimiter._buckets rl !! k = Some (RateLimiter.Token b) ->
                RateLimiter._buckets rl' !! k = Some (RateLimiter.Token b))
  /\ (forall b, RateLimiter._buckets rl !! k = Some (RateLimiter.Fixed b) ->
                RateLimiter._buckets rl' !! k = Some (RateLimiter.Fixed b))
  /\ RateLimiter._whitelist rl' = RateLimiter._whitelist rl
  /\ RateLimiter._blacklist rl' = RateLimiter._blacklist rl.
Proof.
  cbn zeta. unfold RateLimiter._cleanup_expired. cbn.
  repeat split.
  - intros b Hb. now apply map_lookup_filter_Some in Hb as [Hb _].
  - intros b Hb He. apply map_lookup_filter_Some. now split.
  - intros b Hb He. apply map_lookup_filter_None. right.
    intros b' Hb' Hne. cbn in Hne. congruence.
  - intros b Hb. apply map_lookup_filter_Some. now split.
  - intros b Hb. apply map_lookup_filter_Some. now split.
Qed.

(** One idle sliding counter and one fixed-window counter. *)
Lemma cleanup_only_deletes_expired_witness :
  let rl := RateLimiter.set_buckets string
              (RateLimiter.init string (fun req => req) "sliding-window" true None)
              (<["a:s"%string :=
                   RateLimiter.Sliding (SlidingWindowCounter.mk 5 60 [0%Q])]>
                 (<["b:s"%string :=
                      RateLimiter.Fixed (FixedWindowCounter.mk 5 60 1 0)]> ∅)) in
  let rl' := RateLimiter._cleanup_expired string Float.exact rl 1000 in
  RateLimiter._buckets rl' !! "a:s"%string = None
  /\ RateLimiter._buckets rl' !! "b:s"%string
     = Some (RateLimiter.Fixed (FixedWindowCounter.mk 5 60 1 0)).
Proof.
  cbn zeta.
  destruct (cleanup_only_deletes_expired string Float.exact
              (RateLimiter.set_buckets string
                 (RateLimiter.init string (fun req => req)
                    "sliding-window" true None)
                 (<["a:s"%string :=
                      RateLimiter.Sliding (SlidingWindowCounter.mk 5 60 [0%Q])]>
                    (<["b:s"%string :=
                         RateLimiter.Fixed (FixedWindowCounter.mk 5 60 1 0)]> ∅)))
              1000 "a:s"%string) as (_ & _ & Ha & _).
  destruct (cleanup_only_deletes_expired string Float.exact
              (RateLimiter.set_buckets string
                 (RateLimiter.init string (fun req => req)
                    "sliding-window" true None)
                 (<["a:s"%string :=
                      RateLimiter.Sliding (SlidingWindowCounter.mk 5 60 [0%Q])]>
                    (<["b:s"%string :=
                         RateLimiter.Fixed (FixedWindowCounter.mk 5 60 1 0)]> ∅)))
              1000 "b:s"%string) as (_ & _ & _ & _ & Hb & _).
  split.
  - apply (Ha (RateLimiter.Sliding (SlidingWindowCounter.mk 5 60 [0%Q])));
      reflexivity.
  - apply Hb. reflexivity.
Defined.

Section CleanupFacts.
Variable Req : Type.
Variable fl : Q -> Q.
Hypothesis fl_mono : forall x y : Q, (x <= y)%Q -> (fl x <= fl y)%Q.

Import RateLimiter.

(** A counter that passes the test at [swept] keeps none of its hits at
    a later reading: they are all more than two windows old, and a
    stored hit is a clock reading, which rounding leaves alone. *)
Lemma expired_kept_nil (s : SlidingWindowCounter.t) (recorded : list Q)
    (last swept now : Q) :
  SlidingWindowCounter.history fl s recorded last ->
  (0 <= SlidingWindowCounter.window s)%Q ->
  Forall (fun h => (fl h == h)%Q) (SlidingWindowCounter._hits s) ->
  (swept <= now)%Q ->
  cleanup_expired fl (Sliding s) swept = true ->
  SlidingWindowCounter.kept fl s now = [].
Proof using fl_mono.
  intros Hhist Hw Hfix Hnow Hexp.
  destruct (history_hits_sorted _ _ _ _ Hhist) as [Hs _].
  unfold SlidingWindowCounter.kept. cbn in Hexp.
  destruct (SlidingWindowCounter._hits s) as [| h rest] eqn:E; trivial.
  apply float_ltb_lt in Hexp. unfold Float.mul, Float.sub in Hexp.
  pose proof (strongly_sorted_last h rest Hs) as Hmax.
  rewrite List.Forall_forall in Hmax, Hfix.
  assert (Hold : (SlidingWindowCounter.window s * 2
                  < swept - List.last rest h)%Q).
  { destruct (Qlt_le_dec (SlidingWindowCounter.window s * 2)
                (swept - List.last rest h)) as [Hlt | Hle]; trivial.
    apply fl_mono in Hle. lra. }
  apply filter_none. intros x Hx.
  specialize (Hmax x Hx). cbn in Hmax. specialize (Hfix x Hx). cbn in Hfix.
  apply not_true_iff_false. rewrite float_ltb_lt.
  unfold SlidingWindowCounter.cutoff, Float.sub.
  assert (Hc : (fl x <= fl (now - SlidingWindowCounter.window s))%Q).
  { apply fl_mono. lra. }
  assert (Hx' : (x <= fl x)%Q).
  { apply Qle_lteq. right. symmetry. exact Hfix. }
  lra.
Qed.
End CleanupFacts.

(** X14: [_cleanup_expired] is invisible to a route decorated with
    [limit] on a sliding-window limiter.  If the bucket of the client
    on that route, when there is one, is a sliding counter with the
    route's count as limit, a window that is not negative and stored
    hits that are clock readings, then the wrapper decides the same
    (handler or refusal) whether or not [_cleanup_expired] ran at an
    earlier or equal clock reading: a bucket that it dropped held no
    hit in the window any more, and the one built in its place has the
    same limit.  This does not extend to [dynamic] or to a scope shared
    by routes with different rates, where the bucket built in its place
    takes the count of the request at hand.  The arithmetic is exact or
    rounded by a monotone [fl] that fixes the clock readings. *)
Theorem cleanup_drops_idle_buckets (Req : Type) (fl : Q -> Q)
    (fl_mono : forall x y : Q, (x <= y)%Q -> (fl x <= fl y)%Q)
    (w : RateLimiter.LimitWrapper Req) (rl : RateLimiter.t Req) (req : Req)
    (swept created now : Q) :
  let d := RateLimiter.lw_decorator Req w in
  let client_key :=
    default (RateLimiter.key_func rl) (RateLimiter.ld_key_func Req d) req in
  (swept <= now)%Q ->
  RateLimiter.strategy rl <> "token-bucket"%string ->
  RateLimiter.strategy rl <> "fixed-window"%string ->
  (forall b,
     RateLimiter._buckets rl
     !! RateLimiter.bucket_key client_key (RateLimiter.lw_fn_scope Req w)
     = Some b ->
     exists s recorded last,
       b = RateLimiter.Sliding s
       /\ SlidingWindowCounter.history fl s recorded last
       /\ SlidingWindowCounter.limit s = RateLimiter.ld_count Req d
       /\ (0 <= SlidingWindowCounter.window s)%Q
       /\ Forall (fun h => (fl h == h)%Q) (SlidingWindowCounter._hits s)) ->
  fst (RateLimiter.limit_wrapper_at Req fl w
         (RateLimiter._cleanup_expired Req fl rl swept) req created now)
  = fst (RateLimiter.limit_wrapper_at Req fl w rl req created now).
Proof.
  cbn zeta. intros Hnow Hs1 Hs2 Hstored.
  unfold RateLimiter.limit_wrapper_at, RateLimiter._cleanup_expired.
  cbn [RateLimiter.enabled RateLimiter.key_func RateLimiter._whitelist
       RateLimiter._blacklist RateLimiter._redis_limiter
       RateLimiter.set_buckets].
  destruct (RateLimiter.enabled rl); cbn [negb]; [| reflexivity].
  destruct (decide _); [reflexivity |]. destruct (decide _); [reflexivity |].
  destruct (RateLimiter._redis_limiter rl) as [check |].
  { now destruct (check _ _ _) as [[|] remaining]. }
  set (key := RateLimiter.bucket_key _ _) in *.
  unfold RateLimiter.use_bucket_at, RateLimiter._get_bucket.
  fold key. cbn [RateLimiter._buckets RateLimiter.set_buckets].
  set (kept_buckets :=
         filter (fun kb => RateLimiter.cleanup_expired fl (snd kb) swept = false)
           (RateLimiter._buckets rl)).
  destruct (RateLimiter._buckets rl !! key) as [b |] eqn:Eb.
  - destruct (Hstored b eq_refl)
      as (s & recorded & last & -> & Hh & Hl & Hw & Hfix).
    destruct (RateLimiter.cleanup_expired fl (RateLimiter.Sliding s) swept)
      eqn:Ec.
    + assert (Hnone : kept_buckets !! key = None).
      { apply map_lookup_filter_None. right.
        intros b' Hb' Hne. cbn in Hne. congruence. }
      rewrite Hnone.
      unfold RateLimiter.new_bucket.
      change (RateLimiter.strategy (RateLimiter.set_buckets Req rl kept_buckets))
        with (RateLimiter.strategy rl).
      apply String.eqb_neq in Hs1, Hs2. rewrite Hs1, Hs2.
      cbn [RateLimiter.bucket_take]. unfold SlidingWindowCounter.hit.
      rewrite (expired_kept_nil fl fl_mono s recorded last swept now
                 Hh Hw Hfix Hnow Ec).
      unfold SlidingWindowCounter.kept. cbn. rewrite Hl.
      now destruct (_ <=? _).
    + assert (Hsome : kept_buckets !! key = Some (RateLimiter.Sliding s)).
      { apply map_lookup_filter_Some. now split. }
      rewrite Hsome.
      now destruct (RateLimiter.bucket_take fl _ _ now) as [[|] b'].
  - assert (Hnone : kept_buckets !! key = None).
    { apply map_lookup_filter_None. now left. }
    rewrite Hnone.
    unfold RateLimiter.new_bucket.
    change (RateLimiter.strategy (RateLimiter.set_buckets Req rl kept_buckets))
      with (RateLimiter.strategy rl).
    now destruct (RateLimiter.bucket_take fl _ _ now) as [[|] b'].
Qed.

(** A client that used its one request per minute at clock 0, swept and
    served again at clock 1000. *)
Lemma cleanup_drops_idle_buckets_witness :
  let rl := RateLimiter.set_buckets string
              (RateLimiter.init string (fun req => req) "sliding-window" true None)
              (<["10.0.0.1:app.index"%string :=
                   RateLimiter.Sliding (SlidingWindowCounter.mk 1 60 [0%Q])]> ∅) in
  let w := RateLimiter.mkLimitWrapper string
             (RateLimiter.mkLimitDecorator string 1 60 "1/minute" None
                (fun _ => 1) None None)
             "app.index" in
  fst (RateLimiter.limit_wrapper_at string Float.exact w
         (RateLimiter._cleanup_expired string Float.exact rl 1000)
         "10.0.0.1"%string 1000 1000)
  = fst (RateLimiter.limit_wrapper_at string Float.exact w rl
           "10.0.0.1"%string 1000 1000).
Proof.
  cbn zeta.
  apply (cleanup_drops_idle_buckets string Float.exact exact_mono).
  - discriminate.
  - discriminate.
  - discriminate.
  - intros b Hb.
    assert (E : b = RateLimiter.Sliding (SlidingWindowCounter.mk 1 60 [0%Q])).
    { vm_compute in Hb. now injection Hb as <-. }
    subst b.
    exists (SlidingWindowCounter.mk 1 60 [0%Q]), [0%Q], 0%Q.
    split; [reflexivity |]. split.
    + exact (SlidingWindowCounter.hist_hit Float.exact
               (SlidingWindowCounter.init 1 60) [] 0 1 0
               (SlidingWindowCounter.hist_init Float.exact 1 60 0)
               (Qle_refl 0)).
    + split; [reflexivity |]. split; [discriminate |].
      repeat constructor.
Defined.

(** * Further properties of [_parse_rate] *)

(** X15: whenever [_parse_rate] returns, the window is 1, 60, 3600 or
    86400 seconds, so it is positive: the division [limit / window]
    that builds a token bucket is never a division by zero. *)
Theorem parse_rate_window_positive (s : string) (count seconds : Z) :
  _parse_rate s = Return (count, seconds) ->
  (seconds = 1 \/ seconds = 60 \/ seconds = 3600 \/ seconds = 86400)
  /\ 0 < seconds.
Proof.
  intros H. apply parse_rate_returns in H as (a & b & _ & _ & Hp).
  apply multipliers_values in Hp. split; [exact Hp | lia].
Qed.

Lemma parse_rate_window_positive_witness :
  (3600 = 1 \/ 3600 = 60 \/ 3600 = 3600 \/ 3600 = 86400) /\ 0 < 3600.
Proof. exact (parse_rate_window_positive "3/hr" 3 3600 eq_refl). Defined.

Section StripFacts.
Variable p : ascii -> bool.

Lemma lstrip_app (a b : string) :
  Str.lstrip_with p (a +:+ b)
  = match Str.lstrip_with p a with
    | EmptyString => Str.lstrip_with p b
    | a' => a' +:+ b
    end.
Proof.
  induction a as [| c a IH]; trivial.
  change (String c a +:+ b) with (String c (a +:+ b)).
  cbn [Str.lstrip_with]. destruct (p c); trivial.
Qed.

Lemma rstrip_app (a b : string) :
  Str.rstrip_with p (a +:+ b)
  = match Str.rstrip_with p b with
    | EmptyString => Str.rstrip_with p a
    | b' => a +:+ b'
    end.
Proof.
  induction a as [| c a IH].
  - change ("" +:+ b) with b. now destruct (Str.rstrip_with p b).
  - change (String c a +:+ b) with (String c (a +:+ b)).
    cbn [Str.rstrip_with]. rewrite IH.
    destruct (Str.rstrip_with p b) as [| c' b']; trivial.
    now destruct a.
Qed.

Lemma rstrip_empty_lstrip (s : string) :
  Str.rstrip_with p s = EmptyString -> Str.lstrip_with p s = EmptyString.
Proof.
  induction s as [| c s IH]; trivial. cbn.
  destruct (Str.rstrip_with p s) as [| c' s']; [| discriminate].
  destruct (p c); [intros _; now apply IH | discriminate].
Qed.

Lemma lstrip_empty_rstrip (s : string) :
  Str.lstrip_with p s = EmptyString -> Str.rstrip_with p s = EmptyString.
Proof.
  induction s as [| c s IH]; trivial. cbn.
  destruct (p c); [| discriminate]. intros H. now rewrite (IH H).
Qed.

Lemma lstrip_idem (s : string) :
  Str.lstrip_with p (Str.lstrip_with p s) = Str.lstrip_with p s.
Proof.
  induction s as [| c s IH]; trivial. cbn.
  destruct (p c) eqn:Ec; trivial. cbn. now rewrite Ec.
Qed.

Lemma strip_empty_lstrip (s : string) :
  Str.strip_with p s = EmptyString -> Str.lstrip_with p s = EmptyString.
Proof.
  unfold Str.strip_with. intros H. apply rstrip_empty_lstrip in H.
  now rewrite lstrip_idem in H.
Qed.

(** Stripping is blind to what it would strip. *)
Lemma strip_padding (pre s post : string) :
  Str.strip_with p pre = EmptyString ->
  Str.strip_with p post = EmptyString ->
  Str.strip_with p (pre +:+ s +:+ post) = Str.strip_with p s.
Proof.
  intros Hpre Hpost.
  pose proof (strip_empty_lstrip pre Hpre) as Hpre'.
  pose proof (strip_empty_lstrip post Hpost) as Hpost'.
  unfold Str.strip_with.
  rewrite lstrip_app, Hpre', lstrip_app.
  destruct (Str.lstrip_with p s) as [| c s'] eqn:Es.
  - now rewrite Hpost'.
  - rewrite rstrip_app. now rewrite (lstrip_empty_rstrip post Hpost').
Qed.
End StripFacts.

(** X16: white space around a rate string does not count: when
    [rate_string] parses, so does [rate_string] with any white space
    before and after it, to the same count and window, and conversely. *)
Theorem parse_rate_ignores_padding (pre s post : string) (count seconds : Z) :
  Str.strip pre = EmptyString -> Str.strip post = EmptyString ->
  (_parse_rate (pre +:+ s +:+ post) = Return (count, seconds)
   <-> _parse_rate s = Return (count, seconds)).
Proof.
  intros Hpre Hpost. rewrite !parse_rate_returns.
  unfold Str.strip in *. now rewrite (strip_padding _ pre s post Hpre Hpost).
Qed.

Lemma parse_rate_ignores_padding_witness :
  _parse_rate ("  " +:+ "10/minute" +:+ " ") = Return (10, 60).
Proof.
  apply (parse_rate_ignores_padding "  " "10/minute" " " 10 60);
    reflexivity.
Defined.

(** * The key functions *)

Lemma split_head_no_sep (sep : ascii) (s : string) :
  exists first rest, Str.split sep s = first :: rest
                     /\ Str.count sep first = 0%nat.
Proof.
  induction s as [| c s (first & rest & E & Hc)]; cbn.
  - now exists EmptyString, [].
  - destruct (Ascii.eqb c sep) eqn:Ec.
    + now exists EmptyString, (Str.split sep s).
    + rewrite E. exists (String c first), rest. split; trivial.
      cbn. now rewrite Ec.
Qed.

Lemma split_head_app (sep : ascii) (a b : string) :
  Str.count sep a = 0%nat ->
  exists rest, Str.split sep (a +:+ String sep b) = a :: rest.
Proof.
  intros Ha. induction a as [| c a IH].
  - change ("" +:+ String sep b) with (String sep b). cbn.
    rewrite Ascii.eqb_refl. eauto.
  - change (String c a +:+ String sep b) with (String c (a +:+ String sep b)).
    cbn in *. destruct (Ascii.eqb c sep); [discriminate |].
    destruct (IH Ha) as [rest ->]. eauto.
Qed.

Lemma rstrip_no_sep (p : ascii -> bool) (sep : ascii) (s : string) :
  Str.count sep s = 0%nat -> Str.count sep (Str.rstrip_with p s) = 0%nat.
Proof.
  induction s as [| c s IH]; trivial. cbn.
  destruct (Ascii.eqb c sep) eqn:Ec; [discriminate |]. cbn. intros H.
  specialize (IH H).
  destruct (Str.rstrip_with p s) as [| c' s'].
  - destruct (p c); cbn; trivial. now rewrite Ec.
  - cbn in *. now rewrite Ec.
Qed.

Lemma lstrip_no_sep (p : ascii -> bool) (sep : ascii) (s : string) :
  Str.count sep s = 0%nat -> Str.count sep (Str.lstrip_with p s) = 0%nat.
Proof.
  induction s as [| c s IH]; trivial. cbn.
  destruct (Ascii.eqb c sep) eqn:Ec; [discriminate |]. cbn. intros H.
  destruct (p c); [now apply IH |]. cbn. now rewrite Ec.
Qed.

(** X17: [get_remote_address] prefers [X-Forwarded-For] to [X-Real-IP]
    and both to the peer address, an empty header counting as absent.
    The key it takes from [X-Forwarded-For] never contains a comma.  It
    asks no proof of the header: a request whose [X-Forwarded-For]
    starts with a field [k] that has no comma and no white space around
    it gets the key [k], whatever the peer address is. *)
Theorem get_remote_address_trusts_header (req : Request.t) :
  (forall forwarded, Request.headers req "X-Forwarded-For" = Some forwarded ->
     forwarded <> EmptyString ->
     Str.count "," (get_remote_address req) = 0%nat)
  /\ (forall k rest,
        Request.headers req "X-Forwarded-For" = Some (k +:+ String "," rest) ->
        Str.count "," k = 0%nat -> Str.strip k = k ->
        get_remote_address req = k)
  /\ (forall k,
        Request.headers req "X-Forwarded-For" = Some k ->
        k <> EmptyString -> Str.count "," k = 0%nat -> Str.strip k = k ->
        get_remote_address req = k)
  /\ (truthy (Request.headers req "X-Forwarded-For") = None ->
      forall real_ip, Request.headers req "X-Real-IP" = Some real_ip ->
        real_ip <> EmptyString ->
        get_remote_address req = Str.strip real_ip)
  /\ (truthy (Request.headers req "X-Forwarded-For") = None ->
      truthy (Request.headers req "X-Real-IP") = None ->
      get_remote_address req = Request.remote_addr req).
Proof.
  unfold get_remote_address. repeat split.
  - intros forwarded -> Hne. unfold truthy.
    destruct (String.eqb_spec forwarded ""); [contradiction |].
    unfold first_field.
    destruct (split_head_no_sep "," forwarded) as (first & rest & -> & Hc).
    unfold Str.strip, Str.strip_with.
    now apply rstrip_no_sep, lstrip_no_sep.
  - intros k rest -> Hc Hs. unfold truthy.
    destruct (String.eqb_spec (k +:+ String "," rest) "") as [E |].
    { destruct k; discriminate. }
    unfold first_field.
    destruct (split_head_app "," k rest Hc) as [l ->]. exact Hs.
  - intros k -> Hne Hc Hs. unfold truthy.
    destruct (String.eqb_spec k ""); [contradiction |].
    unfold first_field. now rewrite (split_no_sep "," k Hc).
  - intros -> real_ip -> Hne. unfold truthy.
    now destruct (String.eqb_spec real_ip "").
  - now intros -> ->.
Qed.

(** A peer at 203.0.113.9 that writes another address in the header. *)
Lemma get_remote_address_trusts_header_witness :
  get_remote_address
    (Request.mk "GET" "203.0.113.9" "http" "localhost"
       (fun name => if String.eqb name "X-Forwarded-For"
                    then Some "10.0.0.1, 172.16.0.1"%string else None)
       None)
  = "10.0.0.1"%string.
Proof.
  refine (proj1 (proj2 (get_remote_address_trusts_header _))
            "10.0.0.1"%string " 172.16.0.1"%string _ _ _); reflexivity.
Defined.

(** * Clients with different keys *)

Lemma append_length (a b : string) :
  String.length (a +:+ b) = (String.length a + String.length b)%nat.
Proof.
  induction a as [| c a IH]; trivial.
  change (String c a +:+ b) with (String c (a +:+ b)). cbn. now rewrite IH.
Qed.

Lemma append_cancel_r (a b c : string) : a +:+ c = b +:+ c -> a = b.
Proof.
  revert b. induction a as [| x a IH]; intros [| y b] H; trivial.
  - apply (f_equal String.length) in H.
    change ("" +:+ c) with c in H.
    change (String y b +:+ c) with (String y (b +:+ c)) in H.
    cbn in H. rewrite append_length in H. lia.
  - apply (f_equal String.length) in H.
    change ("" +:+ c) with c in H.
    change (String x a +:+ c) with (String x (a +:+ c)) in H.
    cbn in H. rewrite append_length in H. lia.
  - change (String x a +:+ c) with (String x (a +:+ c)) in H.
    change (String y b +:+ c) with (String y (b +:+ c)) in H.
    injection H as -> H. now rewrite (IH b H).
Qed.

(** On one scope, different clients have different bucket keys. *)
Lemma bucket_key_inj_client (Req : Type) (key1 key2 scope : string) :
  RateLimiter.bucket_key key1 scope = RateLimiter.bucket_key key2 scope ->
  key1 = key2.
Proof. unfold RateLimiter.bucket_key. apply append_cancel_r. Qed.

Section DistinctKeys.
Variable Req : Type.
Variable fl : Q -> Q.
Hypothesis fl_mono : forall x y : Q, (x <= y)%Q -> (fl x <= fl y)%Q.
Hypothesis fl_zero : (fl 0 == 0)%Q.

Import RateLimiter.

Variable w : LimitWrapper Req.
Variable kfn : Req -> string.
Hypothesis fl_count :
  (fl (inject_Z (ld_count Req (lw_decorator Req w)))
   == inject_Z (ld_count Req (lw_decorator Req w)))%Q.

(** What [serve] needs of the limiter and of the requests left. *)
Local Abbreviation serve_ready rl requests :=
  (enabled rl = true /\ _redis_limiter rl = None
   /\ kfn = default (key_func rl) (ld_key_func Req (lw_decorator Req w))
   /\ (strategy rl = "token-bucket"%string ->
       0 <= ld_count Req (lw_decorator Req w)
       /\ 0 < ld_window Req (lw_decorator Req w))
   /\ Forall (fun r : Req * (Q * Q) =>
        (fst (snd r) <= snd (snd r))%Q
        /\ (kfn (fst r) ∉ _blacklist rl)
        /\ _buckets rl !! bucket_key (kfn (fst r)) (lw_fn_scope Req w) = None
        /\ ld_cost Req (lw_decorator Req w) (fst r)
           <= ld_count Req (lw_decorator Req w)) requests).

Lemma serve_distinct (requests : list (Req * (Q * Q))) (rl : t Req) :
  NoDup (map (fun r => kfn (fst r)) requests) ->
  serve_ready rl requests ->
  Forall (fun o => o = Handler) (fst (serve Req fl w rl requests)).
Proof using fl_mono fl_zero fl_count.
  revert rl. induction requests as [| [req [created now]] requests IH];
    intros rl Hnd (Hen & Hredis & Hk & Htoken & Hall).
  - constructor.
  - apply NoDup_cons in Hnd as [Hnotin Hnd].
    apply List.Forall_cons_iff in Hall as [(Hnow & Hbl & Hfresh & Hcost) Hall].
    cbn [fst snd] in *. cbn [serve].
    assert (Hstep : fst (limit_wrapper_at Req fl w rl req created now) = Handler
                    /\ serve_ready
                         (snd (limit_wrapper_at Req fl w rl req created now))
                         requests).
    { unfold limit_wrapper_at. rewrite Hen, Hredis, <- Hk. cbn [negb].
      destruct (decide (kfn req ∈ _whitelist rl)).
      { split; trivial. repeat split; trivial; now apply Htoken. }
      destruct (decide (kfn req ∈ _blacklist rl)); [contradiction |].
      pose proof (use_bucket_at_frame Req fl rl (kfn req) (lw_fn_scope Req w)
                    (ld_count Req (lw_decorator Req w))
                    (ld_window Req (lw_decorator Req w))
                    (ld_cost Req (lw_decorator Req w) req)
                    (exceeded_message (ld_error_message Req (lw_decorator Req w)))
                    created now) as Hf.
      cbn zeta in Hf.
      destruct Hf as (Hb & Hkf & Hst & Hen' & _ & Hredis' & _ & Hbl').
      split.
      - rewrite (use_bucket_at_fresh Req fl rl _ _ _ _ _ _ _ _ Hfresh).
        pose proof (new_bucket_take Req fl fl_mono fl_zero rl _
                      (ld_window Req (lw_decorator Req w))
                      (ld_cost Req (lw_decorator Req w) req) created now
                      fl_count Hnow Htoken)
          as Hnew.
        destruct (fst (bucket_take fl _ _ now)); trivial.
        apply Hnew in Hcost. discriminate.
      - split; [congruence |]. split; [congruence |].
        split; [congruence |].
        split; [intros Hs; apply Htoken; congruence |].
        apply List.Forall_forall. intros r Hr.
        rewrite List.Forall_forall in Hall.
        destruct (Hall r Hr) as (H0 & H1 & H2 & H3).
        rewrite Hbl'. repeat split; trivial.
        rewrite Hb; trivial.
        intros E. apply (bucket_key_inj_client Req) in E.
        apply Hnotin. rewrite <- E.
        apply list_elem_of_In, in_map_iff. now exists r. }
    destruct Hstep as [Ho Hready].
    destruct (limit_wrapper_at Req fl w rl req created now) as [o rl1].
    cbn [fst snd] in *.
    specialize (IH rl1 Hnd Hready).
    destruct (serve Req fl w rl1 requests) as [os rl2]. cbn [fst] in *.
    now constructor.
Qed.
End DistinctKeys.

(** X18: requests with pairwise different client keys never compete.
    On a route decorated with [limit], with the limiter enabled and
    without Redis, a sequence of requests whose keys are all different,
    not blacklisted and without a bucket yet, each with a cost of at
    most the route's count, is admitted one and all, however many they
    are.  With [get_remote_address] as key function the key is what the
    client writes in [X-Forwarded-For].  Each call reads the clock
    twice, in the constructor of the bucket and then in the charge, the
    second reading not before the first.  The arithmetic is exact or
    rounded by a monotone [fl] that fixes 0 and the count; with the
    token-bucket strategy the count is not negative and the window is
    positive. *)
Theorem distinct_keys_all_admitted (Req : Type) (fl : Q -> Q)
    (fl_mono : forall x y : Q, (x <= y)%Q -> (fl x <= fl y)%Q)
    (fl_zero : (fl 0 == 0)%Q)
    (w : RateLimiter.LimitWrapper Req) (rl : RateLimiter.t Req)
    (requests : list (Req * (Q * Q))) :
  let d := RateLimiter.lw_decorator Req w in
  let kfn := default (RateLimiter.key_func rl) (RateLimiter.ld_key_func Req d) in
  (fl (inject_Z (RateLimiter.ld_count Req d))
   == inject_Z (RateLimiter.ld_count Req d))%Q ->
  (RateLimiter.strategy rl = "token-bucket"%string ->
   0 <= RateLimiter.ld_count Req d /\ 0 < RateLimiter.ld_window Req d) ->
  RateLimiter.enabled rl = true ->
  RateLimiter._redis_limiter rl = None ->
  NoDup (map (fun r => kfn (fst r)) requests) ->
  Forall (fun r : Req * (Q * Q) =>
    (fst (snd r) <= snd (snd r))%Q
    /\ (kfn (fst r) ∉ RateLimiter._blacklist rl)
    /\ RateLimiter._buckets rl
       !! RateLimiter.bucket_key (kfn (fst r)) (RateLimiter.lw_fn_scope Req w)
       = None
    /\ RateLimiter.ld_cost Req d (fst r) <= RateLimiter.ld_count Req d)
    requests ->
  Forall (fun o => o = RateLimiter.Handler)
    (fst (RateLimiter.serve Req fl w rl requests)).
Proof.
  cbn zeta. intros Hcount Htoken Hen Hredis Hnd Hall.
  apply (serve_distinct Req fl fl_mono fl_zero w _ Hcount requests rl Hnd).
  repeat split; trivial; now apply Htoken.
Qed.

(** One peer, a token bucket of 1 per minute, three requests that each
    name another address in [X-Forwarded-For]. *)
Lemma distinct_keys_all_admitted_witness :
  let request forwarded :=
    Request.mk "GET" "203.0.113.9" "http" "localhost"
      (fun name => if String.eqb name "X-Forwarded-For"
                   then Some forwarded else None)
      None in
  let rl := RateLimiter.init Request.t get_remote_address
              "token-bucket" true None in
  let w := RateLimiter.mkLimitWrapper Request.t
             (RateLimiter.mkLimitDecorator Request.t 1 60 "1/minute" None
                (fun _ => 1) None None)
             "app.index" in
  Forall (fun o => o = RateLimiter.Handler)
    (fst (RateLimiter.serve Request.t Float.exact w rl
            [(request "10.0.0.1"%string, (0%Q, 1%Q));
             (request "10.0.0.2"%string, (1%Q, 1%Q));
             (request "10.0.0.3"%string, (1%Q, 2%Q))])).
Proof.
  cbn zeta.
  apply (distinct_keys_all_admitted Request.t Float.exact exact_mono exact_zero);
    try reflexivity.
  - intros _. cbn. split; lia.
  - vm_compute.
    repeat (constructor;
            [rewrite ?elem_of_cons, elem_of_nil; intuition discriminate |]).
    constructor.
  - repeat constructor; cbn; try apply not_elem_of_empty; try discriminate; lia.
Defined.

(** * Further properties of the pipeline *)

(** X19: how [add] and [run] compose.  Running a pipeline to which a
    middleware was added last is running the pipeline as it was, with a
    terminal handler that calls this middleware around the real one;
    and running a pipeline without middleware is calling the terminal
    handler. *)
Theorem pipeline_add_wraps_handler (Req Res R St : Type)
    (p : MiddlewarePipeline.t Req Res R St)
    (mw : MiddlewarePipeline.Middleware Req Res R St)
    (req : Req) (res : Res)
    (final_handler : MiddlewarePipeline.FinalHandler Req Res R St) :
  MiddlewarePipeline.run (MiddlewarePipeline.add p mw) req res final_handler
  = MiddlewarePipeline.run p req res
      (fun _ _ => mw req res (final_handler req res))
  /\ MiddlewarePipeline.run MiddlewarePipeline.init req res final_handler
     = final_handler req res.
Proof.
  unfold MiddlewarePipeline.run. cbn [MiddlewarePipeline._stack
    MiddlewarePipeline.add MiddlewarePipeline.init].
  rewrite !execute_nest, !drop_0. split; [| reflexivity].
  now rewrite nest_app.
Qed.

(** * The router *)

Section RouterFacts.
Variables Handler Params : Type.
Variable route_match : string -> string -> option Params.
Variable upper : string -> string.
Variables request_path method : string.

Import Router.

Local Abbreviation Rt := (Route Handler).

(** The route matches the path and lists the method. *)
Local Abbreviation serves r :=
  (is_Some (route_match (path Handler r) request_path)
   /\ upper method ∈ methods Handler r).

Lemma resolve_loop_spec (rs : list Rt) (mismatch : bool) :
  (forall r params,
     resolve_loop Handler Params route_match upper rs request_path method mismatch
     = Found Handler Params r params
     <-> exists pre post,
           rs = pre ++ r :: post
           /\ route_match (path Handler r) request_path = Some params
           /\ upper method ∈ methods Handler r
           /\ Forall (fun r' => ~ serves r') pre)
  /\ (resolve_loop Handler Params route_match upper rs request_path method mismatch
      = MethodNotAllowed Handler Params
      <-> Forall (fun r' => ~ serves r') rs
          /\ (mismatch = true
              \/ Exists (fun r' =>
                   is_Some (route_match (path Handler r') request_path)) rs))
  /\ (resolve_loop Handler Params route_match upper rs request_path method mismatch
      = NotFound Handler Params
      <-> mismatch = false
          /\ Forall (fun r' => route_match (path Handler r') request_path = None)
               rs).
Proof.
  revert mismatch. induction rs as [| r0 rs IH]; intros mismatch.
  - cbn. split; [| split].
    + intros r params. split.
      * destruct mismatch; discriminate.
      * intros (pre & post & E & _). now destruct pre.
    + split.
      * destruct mismatch; [intros _; split; [constructor | now left]
                           | discriminate].
      * intros [_ [-> | He]]; [reflexivity | inversion He].
    + split.
      * destruct mismatch; [discriminate
                           | intros _; split; [trivial | constructor]].
      * now intros [-> _].
  - cbn [resolve_loop].
    destruct (route_match (path Handler r0) request_path) as [ps |] eqn:Em.
    + destruct (bool_decide (upper method ∈ methods Handler r0)) eqn:Ed.
      * apply bool_decide_eq_true in Ed. split; [| split].
        -- intros r params. split.
           ++ intros [= <- <-]. exists [], rs.
              repeat split; trivial; constructor.
           ++ intros (pre & post & E & Hm & Hin & Hpre).
              destruct pre as [| r1 pre]; cbn in E.
              ** injection E as <- <-. congruence.
              ** injection E as <- _. apply List.Forall_inv in Hpre.
                 destruct Hpre. split; [rewrite Em; eauto | trivial].
        -- split; [discriminate |].
           intros [Hall _]. apply List.Forall_inv in Hall.
           destruct Hall. split; [rewrite Em; eauto | trivial].
        -- split; [discriminate |].
           intros [_ Hall]. apply List.Forall_inv in Hall. congruence.
      * apply bool_decide_eq_false in Ed.
        destruct (IH true) as (IHf & IHm & IHn). split; [| split].
        -- intros r params. split.
           ++ intros H. apply IHf in H as (pre & post & -> & Hm & Hin & Hpre).
              exists (r0 :: pre), post. repeat split; trivial.
              constructor; [tauto | trivial].
           ++ intros (pre & post & E & Hm & Hin & Hpre).
              destruct pre as [| r1 pre]; cbn in E.
              ** injection E as <- <-. contradiction.
              ** injection E as <- ->. apply IHf. exists pre, post.
                 repeat split; trivial.
                 now apply List.Forall_inv_tail in Hpre.
        -- split.
           ++ intros H. apply IHm in H as [Hall _]. split.
              ** constructor; [tauto | trivial].
              ** right. constructor. rewrite Em. eauto.
           ++ intros [Hall _]. apply IHm. split; [| now left].
              now apply List.Forall_inv_tail in Hall.
        -- split.
           ++ intros H. apply IHn in H as [H _]. discriminate.
           ++ intros [_ Hall]. apply List.Forall_inv in Hall. congruence.
    + destruct (IH mismatch) as (IHf & IHm & IHn).
      assert (Hno : ~ serves r0).
      { rewrite Em. intros [[x Hx] _]. discriminate. }
      split; [| split].
      * intros r params. split.
        -- intros H. apply IHf in H as (pre & post & -> & Hm & Hin & Hpre).
           exists (r0 :: pre), post. repeat split; trivial.
           now constructor.
        -- intros (pre & post & E & Hm & Hin & Hpre).
           destruct pre as [| r1 pre]; cbn in E.
           ++ injection E as <- <-. congruence.
           ++ injection E as <- ->. apply IHf. exists pre, post.
              repeat split; trivial. now apply List.Forall_inv_tail in Hpre.
      * split.
        -- intros H. apply IHm in H as [Hall Hex]. split.
           ++ now constructor.
           ++ destruct Hex as [-> | Hex]; [now left | right].
              now apply List.Exists_cons_tl.
        -- intros [Hall Hex]. apply IHm. split.
           ++ now apply List.Forall_inv_tail in Hall.
           ++ destruct Hex as [-> | Hex]; [now left | right].
              apply List.Exists_cons in Hex as [[x Hx] | Hex];
                [congruence | trivial].
      * split.
        -- intros H. apply IHn in H as [-> Hall]. split; trivial.
           now constructor.
        -- intros [-> Hall]. apply IHn. split; trivial.
           now apply List.Forall_inv_tail in Hall.
Qed.
End RouterFacts.

(** X20: what [Router.resolve] answers.  It returns a route with its
    parameters exactly when that route matches the path and lists the
    method in upper case, and no route registered before it does both:
    the first registered route wins.  It answers METHOD_NOT_ALLOWED
    exactly when no route does both but some route matches the path,
    and [None] exactly when no route matches the path. *)
Theorem router_resolve_first_match (Handler Params : Type)
    (route_match : string -> string -> option Params)
    (upper : string -> string) (rt : Router.t Handler)
    (request_path method : string) :
  let answer := Router.resolve Handler Params route_match upper rt
                  request_path method in
  let matches r :=
    is_Some (route_match (Router.path Handler r) request_path) in
  let serves r := matches r /\ upper method ∈ Router.methods Handler r in
  (forall r params,
     answer = Router.Found Handler Params r params
     <-> exists pre post,
           Router.routes Handler rt = pre ++ r :: post
           /\ route_match (Router.path Handler r) request_path = Some params
           /\ upper method ∈ Router.methods Handler r
           /\ Forall (fun r' => ~ serves r') pre)
  /\ (answer = Router.MethodNotAllowed Handler Params
      <-> Forall (fun r' => ~ serves r') (Router.routes Handler rt)
          /\ Exists matches (Router.routes Handler rt))
  /\ (answer = Router.NotFound Handler Params
      <-> Forall (fun r' => ~ matches r') (Router.routes Handler rt)).
Proof.
  cbn zeta. unfold Router.resolve.
  destruct (resolve_loop_spec Handler Params route_match upper request_path
              method (Router.routes Handler rt) false) as (Hf & Hm & Hn).
  split; [exact Hf |]. split.
  - rewrite Hm. split; intros [H1 H2]; split; trivial.
    + now destruct H2.
    + now right.
  - rewrite Hn. split.
    + intros [_ H]. eapply List.Forall_impl; [| exact H].
      cbn. intros r -> [x Hx]. discriminate.
    + intros H. split; trivial. eapply List.Forall_impl; [| exact H].
      cbn. intros r Hr. destruct (route_match _ request_path); trivial.
      destruct Hr. eauto.
Qed.

Section RouterAppend.
Variables Handler Params : Type.
Variable route_match : string -> string -> option Params.
Variable upper : string -> string.
Variables request_path method : string.

Import Router.

Lemma resolve_loop_app (rs rs' : list (Route Handler)) (mismatch : bool) :
  resolve_loop Handler Params route_match upper (rs ++ rs') request_path
    method mismatch
  = match resolve_loop Handler Params route_match upper rs request_path
            method mismatch with
    | Found _ _ r params => Found Handler Params r params
    | MethodNotAllowed _ _ =>
        resolve_loop Handler Params route_match upper rs' request_path
          method true
    | NotFound _ _ =>
        resolve_loop Handler Params route_match upper rs' request_path
          method false
    end.
Proof.
  revert mismatch. induction rs as [| r rs IH]; intros mismatch; cbn.
  - now destruct mismatch.
  - destruct (route_match (path Handler r) request_path); [| apply IH].
    destruct (bool_decide _); [reflexivity | apply IH].
Qed.
End RouterAppend.

(** X21: registering a route never changes the answer to a request that
    already resolves to a route: [add_route] appends, and [resolve]
    stops at the first route that serves the request.  A request that
    did not resolve is answered by the new route alone, a method
    mismatch seen before being remembered. *)
Theorem add_route_keeps_resolved (Handler Params : Type)
    (route_match : string -> string -> option Params)
    (upper : string -> string) (rt : Router.t Handler)
    (path : string) (handler : Handler) (methods : option (list string))
    (name : string) (request_path method : string) :
  let added := Router.add_route Handler upper rt path handler methods name in
  Router.resolve Handler Params route_match upper (snd added) request_path method
  = match Router.resolve Handler Params route_match upper rt request_path method with
    | Router.Found _ _ r params => Router.Found Handler Params r params
    | Router.MethodNotAllowed _ _ =>
        Router.resolve_loop Handler Params route_match upper [fst added]
          request_path method true
    | Router.NotFound _ _ =>
        Router.resolve_loop Handler Params route_match upper [fst added]
          request_path method false
    end.
Proof.
  cbn zeta. unfold Router.resolve, Router.add_route. cbn [snd fst Router.routes].
  apply resolve_loop_app.
Qed.

(** * The response headers *)

(** Reading a dictionary after an assignment. *)
Lemma dict_get_set (d : list (string * string)) (k v k' : string) :
  Response.dict_get (Response.dict_set d k v) k'
  = if String.eqb k k' then Some v else Response.dict_get d k'.
Proof.
  induction d as [| [k0 v0] d IH]; cbn.
  - reflexivity.
  - destruct (String.eqb k0 k) eqn:E0; cbn.
    + apply String.eqb_eq in E0. subst k0.
      now destruct (String.eqb k k').
    + rewrite IH. destruct (String.eqb k0 k') eqn:E1; trivial.
      apply String.eqb_eq in E1. subst k'. now rewrite String.eqb_sym, E0.
Qed.

(** An assignment keeps the keys and their order, a new key going last. *)
Lemma dict_set_keys (d : list (string * string)) (k v : string) :
  map fst (Response.dict_set d k v)
  = if bool_decide (k ∈ map fst d) then map fst d else map fst d ++ [k].
Proof.
  induction d as [| [k0 v0] d IH]; cbn.
  - reflexivity.
  - destruct (String.eqb k0 k) eqn:E0; cbn.
    + apply String.eqb_eq in E0. subst k0.
      rewrite bool_decide_eq_true_2 by apply list_elem_of_here. reflexivity.
    + apply String.eqb_neq in E0. rewrite IH.
      destruct (bool_decide (k ∈ map fst d)) eqn:Ed.
      * apply bool_decide_eq_true in Ed.
        rewrite bool_decide_eq_true_2; [reflexivity |].
        now apply list_elem_of_further.
      * apply bool_decide_eq_false in Ed.
        rewrite bool_decide_eq_false_2; [reflexivity |].
        rewrite elem_of_cons. intros [-> | H]; [now apply E0 | now apply Ed].
Qed.

Lemma dict_set_nodup (d : list (string * string)) (k v : string) :
  NoDup (map fst d) -> NoDup (map fst (Response.dict_set d k v)).
Proof.
  intros Hd. rewrite dict_set_keys.
  destruct (bool_decide (k ∈ map fst d)) eqn:Ed; trivial.
  apply bool_decide_eq_false in Ed.
  apply NoDup_app. split; [trivial |]. split.
  - intros x Hx Hk. apply list_elem_of_singleton in Hk. now subst x.
  - apply NoDup_singleton.
Qed.

Lemma dict_get_some_key (d : list (string * string)) (k : string) :
  is_Some (Response.dict_get d k) <-> k ∈ map fst d.
Proof.
  induction d as [| [k0 v0] d IH]; cbn.
  - split; [intros [x Hx]; discriminate | intros H; inversion H].
  - destruct (String.eqb k0 k) eqn:E0.
    + apply String.eqb_eq in E0. subst k0.
      split; [intros _; apply list_elem_of_here | eauto].
    + apply String.eqb_neq in E0. rewrite IH, elem_of_cons.
      split; [tauto | intros [-> | H]; [now destruct E0 | trivial]].
Qed.

(** The entries of a given name in a list of headers. *)
Local Abbreviation named name headers :=
  (List.filter (fun kv : string * string => String.eqb (fst kv) name) headers).

Lemma named_once (d : list (string * string)) (k : string) :
  NoDup (map fst d) -> k ∈ map fst d ->
  exists v, named k d = [(k, v)] /\ Response.dict_get d k = Some v.
Proof.
  induction d as [| [k0 v0] d IH]; cbn; intros Hd Hk.
  - inversion Hk.
  - apply NoDup_cons in Hd as [Hk0 Hd].
    destruct (String.eqb k0 k) eqn:E0.
    + apply String.eqb_eq in E0. subst k0. exists v0. split; trivial.
      f_equal. clear IH Hk Hd. induction d as [| [k1 v1] d IH]; cbn; trivial.
      cbn in Hk0. rewrite not_elem_of_cons in Hk0. destruct Hk0 as [Hne Hk0].
      destruct (String.eqb k1 k) eqn:E1.
      * apply String.eqb_eq in E1. congruence.
      * now apply IH.
    + apply String.eqb_neq in E0. apply elem_of_cons in Hk as [-> | Hk].
      * now destruct E0.
      * now apply IH.
Qed.

Lemma built_headers_inv (r : Response.t) :
  Response.built r ->
  NoDup (map fst (Response._headers r))
  /\ "Content-Type"%string ∈ map fst (Response._headers r).
Proof.
  assert (Hset : forall d k v,
            NoDup (map fst d) /\ "Content-Type"%string ∈ map fst d ->
            NoDup (map fst (Response.dict_set d k v))
            /\ "Content-Type"%string ∈ map fst (Response.dict_set d k v)).
  { intros d k v [Hd Hc]. split; [now apply dict_set_nodup |].
    rewrite dict_set_keys. destruct (bool_decide _); trivial.
    apply elem_of_app. now left. }
  induction 1; cbn; try (now apply Hset); trivial.
  split.
  - apply NoDup_singleton.
  - apply list_elem_of_here.
Qed.

(** X22: whatever sequence of [set_header], [json], [html], [text],
    [redirect], [set_cookie] and [delete_cookie] calls built a response,
    no header name occurs twice in its dictionary, and the list that
    [build_headers] hands to the server has exactly one entry named
    Content-Type, carrying the value that [get_header] reads. *)
Theorem response_headers_unique (r : Response.t) :
  Response.built r ->
  NoDup (map fst (Response._headers r))
  /\ exists content_type,
       Response.get_header r "Content-Type" = Some content_type
       /\ List.filter
            (fun kv : string * string => String.eqb (fst kv) "Content-Type")
            (Response.build_headers r)
          = [("Content-Type"%string, content_type)].
Proof.
  intros Hb. destruct (built_headers_inv r Hb) as [Hd Hc].
  split; trivial.
  destruct (named_once _ _ Hd Hc) as (v & Hv & Hg).
  exists v. split; trivial.
  unfold Response.build_headers. rewrite List.filter_app, Hv.
  replace (named "Content-Type"
             (map (fun cookie => ("Set-Cookie"%string, cookie))
                (Response._cookies r))) with (@nil (string * string)).
  - reflexivity.
  - induction (Response._cookies r) as [| c cs IH]; cbn; trivial.
Qed.

(** A 404 answer that sets a header, a cookie, and then its JSON body. *)
Lemma response_headers_unique_witness :
  let r := Response.json
             (Response.set_cookie
                (Response.set_header Response.init "Content-Type" "text/csv")
                "sid" "1" None "/" None false true "Lax")
             [("error", "Not Found")]%string 404 in
  NoDup (map fst (Response._headers r))
  /\ exists content_type,
       Response.get_header r "Content-Type" = Some content_type
       /\ List.filter
            (fun kv : string * string => String.eqb (fst kv) "Content-Type")
            (Response.build_headers r)
          = [("Content-Type"%string, content_type)].
Proof.
  cbn zeta. apply response_headers_unique.
  repeat constructor.
Defined.

(** X23: a header that is set is the one read back, under the very
    name it was set with (names are compared as written, case
    included), and setting it leaves every other header as it was.
    The body methods are assignments to Content-Type: after [json],
    [html] or [text] the content type is the method's own, whatever a
    handler or a middleware set before. *)
Theorem response_header_round_trip (r : Response.t) (key value other : string)
    (data : list (string * string)) (content : string) (status : Z) :
  Response.get_header (Response.set_header r key value) key = Some value
  /\ (other <> key ->
      Response.get_header (Response.set_header r key value) other
      = Response.get_header r other)
  /\ Response.get_header (Response.json r data status) "Content-Type"
     = Some "application/json; charset=utf-8"%string
  /\ Response.get_header (Response.html r content status) "Content-Type"
     = Some "text/html; charset=utf-8"%string
  /\ Response.get_header (Response.text r content status) "Content-Type"
     = Some "text/plain; charset=utf-8"%string
  /\ (other <> "Content-Type"%string ->
      Response.get_header (Response.json r data status) other
      = Response.get_header r other
      /\ Response.get_header (Response.html r content status) other
         = Response.get_header r other
      /\ Response.get_header (Response.text r content status) other
         = Response.get_header r other).
Proof.
  unfold Response.get_header, Response.set_header, Response.json,
    Response.html, Response.text. cbn [Response._headers].
  rewrite !dict_get_set, String.eqb_refl.
  repeat split; trivial.
  - intros Hne. apply not_eq_sym, String.eqb_neq in Hne. now rewrite Hne.
  - apply not_eq_sym, String.eqb_neq in H. now rewrite H.
  - apply not_eq_sym, String.eqb_neq in H. now rewrite H.
  - apply not_eq_sym, String.eqb_neq in H. now rewrite H.
Qed.

(** * The middlewares *)

Section MiddlewareFacts.
Variable R : Type.
Variable res_object : R.

Import Middlewares.

(** The two tests of [IPFilterMiddleware] read on the lists given to its
    constructor. *)
Lemma ip_filter_banned (addresses : option (list string)) (ip : string) :
  set_truthy (set_or_none addresses) && set_contains (set_or_none addresses) ip
  = bool_decide (ip ∈ default [] addresses).
Proof.
  destruct addresses as [[| a rest] |]; cbn [set_or_none set_truthy
    set_contains default andb].
  - symmetry. apply bool_decide_eq_false_2. apply not_elem_of_nil.
  - rewrite bool_decide_eq_true_2.
    + cbn [andb]. apply bool_decide_ext. apply elem_of_list_to_set.
    + intros H. assert (Ha : a ∈ (list_to_set (a :: rest) : gset string)).
      { apply elem_of_list_to_set, list_elem_of_here. }
      rewrite H in Ha. now apply not_elem_of_empty in Ha.
  - symmetry. apply bool_decide_eq_false_2. apply not_elem_of_nil.
Qed.

Lemma ip_filter_not_admitted (addresses : option (list string)) (ip : string) :
  set_truthy (set_or_none addresses)
  && negb (set_contains (set_or_none addresses) ip)
  = bool_decide (default [] addresses <> [] /\ ip ∉ default [] addresses).
Proof.
  destruct addresses as [[| a rest] |]; cbn [set_or_none set_truthy
    set_contains default andb].
  - symmetry. apply bool_decide_eq_false_2. now intros [H _].
  - rewrite bool_decide_eq_true_2.
    + cbn [andb]. rewrite <- bool_decide_not. apply bool_decide_ext.
      rewrite elem_of_list_to_set. split; [now split | tauto].
    + intros H. assert (Ha : a ∈ (list_to_set (a :: rest) : gset string)).
      { apply elem_of_list_to_set, list_elem_of_here. }
      rewrite H in Ha. now apply not_elem_of_empty in Ha.
  - symmetry. apply bool_decide_eq_false_2. now intros [H _].
Qed.

(** Headers set one after the other, read back. *)
Lemma get_set_header (key value name : string) (s : Exchange) :
  Response.get_header (response (set_header key value s)) name
  = if String.eqb key name then Some value
    else Response.get_header (response s) name.
Proof. apply dict_get_set. Qed.

End MiddlewareFacts.

(** X24: what [IPFilterMiddleware] decides.  An address on the
    blacklist is refused whether or not it is on the whitelist; with a
    whitelist that is not empty, an address outside it is refused; an
    empty whitelist or blacklist is no list at all.  A refused request
    gets the 403 JSON answer and the middleware returns the response
    without calling its continuation, so neither a later middleware
    nor the handler runs; any other request goes through the rest of
    the pipeline as if the filter were not registered. *)
Theorem ip_filter_verdict (R : Type) (res_object : R)
    (whitelist blacklist : option (list string))
    (post : list (Middlewares.Middleware R))
    (final_handler :
       MiddlewarePipeline.FinalHandler unit unit R Middlewares.Exchange)
    (s : Middlewares.Exchange) :
  let ip := Request.remote_addr (Middlewares.request s) in
  let banned := default [] blacklist in
  let admitted := default [] whitelist in
  let denied := ip ∈ banned \/ (admitted <> [] /\ ip ∉ admitted) in
  let mw := Middlewares.ip_filter R res_object
              (Middlewares.ip_filter_init whitelist blacklist) in
  let p := MiddlewarePipeline.of_list (mw :: post) in
  (denied ->
   MiddlewarePipeline.skips_next mw tt tt s
   /\ MiddlewarePipeline.run p tt tt final_handler s
      = (res_object,
         Middlewares.set_response s
           (Response.json (Middlewares.response s)
              [("error", "Access denied")]%string 403)))
  /\ (~ denied ->
      MiddlewarePipeline.run p tt tt final_handler s
      = MiddlewarePipeline.run (MiddlewarePipeline.of_list post) tt tt
          final_handler s).
Proof.
  cbn zeta. rewrite !run_nest. cbn [MiddlewarePipeline.nest].
  unfold MiddlewarePipeline.skips_next, Middlewares.ip_filter.
  cbn [Middlewares.ip_filter_init Middlewares.blacklist Middlewares.whitelist].
  rewrite ip_filter_banned, ip_filter_not_admitted.
  split.
  - intros [Hb | Hw].
    + rewrite (bool_decide_eq_true_2 _ Hb). now split.
    + rewrite (bool_decide_eq_true_2 _ Hw).
      split; [intros k k' |]; now destruct (bool_decide _).
  - intros Hn.
    rewrite bool_decide_eq_false_2 by tauto.
    rewrite bool_decide_eq_false_2 by tauto.
    reflexivity.
Qed.

(** An address that is on both lists is refused: the handler, which
    would answer 200, is not reached. *)
Lemma ip_filter_verdict_witness :
  let req := Request.mk "GET" "10.0.0.9" "http" "localhost"
               (fun _ => None) None in
  let mw := Middlewares.ip_filter string "res"
              (Middlewares.ip_filter_init (Some ["10.0.0.9"]%string)
                 (Some ["10.0.0.9"]%string)) in
  let out := MiddlewarePipeline.run (MiddlewarePipeline.of_list [mw]) tt tt
               (fun _ _ s => ("handled"%string, s))
               (Middlewares.mkExchange req Response.init) in
  fst out = "res"%string
  /\ Response.status_code (Middlewares.response (snd out)) = 403.
Proof.
  cbn zeta.
  rewrite (proj2 (proj1 (ip_filter_verdict string "res"
                           (Some ["10.0.0.9"]%string) (Some ["10.0.0.9"]%string)
                           [] (fun _ _ s => ("handled"%string, s))
                           (Middlewares.mkExchange
                              (Request.mk "GET" "10.0.0.9" "http" "localhost"
                                 (fun _ => None) None)
                              Response.init))
                   (or_introl (list_elem_of_here _ _)))).
  split; reflexivity.
Defined.

(** X25: [SecurityHeadersMiddleware] runs the rest of the pipeline
    first and returns its value; it then assigns its five headers, so a
    handler or an inner middleware cannot change or remove them: they
    carry the middleware's values whatever was set before.  The content
    security policy is assigned only when one is configured and not
    empty, the transport security header only when [hsts] is on; the
    request, the body, the status, the cookies and every other header
    are as the rest of the pipeline left them. *)
Theorem security_headers_override (R : Type) (m : Middlewares.SecurityHeaders)
    (post : list (Middlewares.Middleware R))
    (final_handler :
       MiddlewarePipeline.FinalHandler unit unit R Middlewares.Exchange)
    (s : Middlewares.Exchange) :
  let mw := Middlewares.security_headers R m in
  let inner := MiddlewarePipeline.run (MiddlewarePipeline.of_list post)
                 tt tt final_handler s in
  let out := MiddlewarePipeline.run (MiddlewarePipeline.of_list (mw :: post))
               tt tt final_handler s in
  let before := Middlewares.response (snd inner) in
  let after := Middlewares.response (snd out) in
  fst out = fst inner
  /\ Middlewares.request (snd out) = Middlewares.request (snd inner)
  /\ Response.body after = Response.body before
  /\ Response.status_code after = Response.status_code before
  /\ Response._cookies after = Response._cookies before
  /\ Response.get_header after "X-Content-Type-Options" = Some "nosniff"%string
  /\ Response.get_header after "X-Frame-Options" = Some "DENY"%string
  /\ Response.get_header after "X-XSS-Protection" = Some "1; mode=block"%string
  /\ Response.get_header after "Referrer-Policy"
     = Some "strict-origin-when-cross-origin"%string
  /\ Response.get_header after "Permissions-Policy"
     = Some "camera=(), microphone=(), geolocation=()"%string
  /\ Response.get_header after "Content-Security-Policy"
     = match truthy (Middlewares.csp m) with
       | Some policy => Some policy
       | None => Response.get_header before "Content-Security-Policy"
       end
  /\ Response.get_header after "Strict-Transport-Security"
     = (if Middlewares.hsts m
        then Some ("max-age=" +:+ str_of_Z (Middlewares.hsts_max_age m)
                   +:+ "; includeSubDomains")
        else Response.get_header before "Strict-Transport-Security")
  /\ forall name : string,
       name ∉ ["X-Content-Type-Options"; "X-Frame-Options"; "X-XSS-Protection";
               "Referrer-Policy"; "Permissions-Policy";
               "Content-Security-Policy"; "Strict-Transport-Security"]%string ->
       Response.get_header after name = Response.get_header before name.
Proof.
  cbn zeta. rewrite !run_nest. cbn [MiddlewarePipeline.nest].
  unfold Middlewares.security_headers.
  destruct (MiddlewarePipeline.nest post tt tt final_handler s) as [result s1].
  cbn [fst snd].
  destruct (truthy (Middlewares.csp m)) as [policy |];
    destruct (Middlewares.hsts m);
    rewrite ?get_set_header; cbn;
    (repeat split; trivial);
    intros name Hname; unfold Response.get_header; rewrite ?dict_get_set;
    repeat (rewrite not_elem_of_cons in Hname;
            let Hne := fresh "Hne" in
            destruct Hname as [Hne Hname];
            apply not_eq_sym, String.eqb_neq in Hne; rewrite ?Hne);
    reflexivity.
Qed.

(** X26: [CORSMiddleware] assigns its headers before anything else
    runs.  A preflight request (method OPTIONS) is answered by the
    middleware itself: it returns the response with status 204 and an
    empty body without calling its continuation, so no later middleware
    and no handler runs.  With a list of origins the allowed origin is
    the request's Origin header when the list holds it and the empty
    string otherwise (also when the header is missing); an origin that
    is not listed is never echoed.  Any other request goes on through
    the rest of the pipeline with these headers already set, which the
    rest may therefore overwrite. *)
Theorem cors_preflight (R : Type) (res_object : R) (c : Middlewares.CORS)
    (post : list (Middlewares.Middleware R))
    (final_handler :
       MiddlewarePipeline.FinalHandler unit unit R Middlewares.Exchange)
    (s : Middlewares.Exchange) :
  let mw := Middlewares.cors R res_object c in
  let origin :=
    default EmptyString (Request.headers (Middlewares.request s) "Origin") in
  let out := MiddlewarePipeline.run (MiddlewarePipeline.of_list (mw :: post))
               tt tt final_handler s in
  let cors_set (r : Response.t) :=
    Response.get_header r "Access-Control-Allow-Origin"
    = Some (Middlewares.cors_allowed c origin)
    /\ Response.get_header r "Access-Control-Allow-Methods"
       = Some (join ", " (Middlewares.allow_methods c))
    /\ Response.get_header r "Access-Control-Allow-Headers"
       = Some (join ", " (Middlewares.allow_headers c))
    /\ Response.get_header r "Access-Control-Max-Age"
       = Some (str_of_Z (Middlewares.max_age c))
    /\ (Middlewares.allow_credentials c = true ->
        Response.get_header r "Access-Control-Allow-Credentials"
        = Some "true"%string) in
  (forall origins,
     Middlewares.allow_origins c = Middlewares.OriginList origins ->
     Middlewares.cors_allowed c origin
     = if bool_decide (origin ∈ origins) then origin else EmptyString)
  /\ (Request.method (Middlewares.request s) = "OPTIONS"%string ->
      MiddlewarePipeline.skips_next mw tt tt s
      /\ fst out = res_object
      /\ Middlewares.request (snd out) = Middlewares.request s
      /\ Response.status_code (Middlewares.response (snd out)) = 204
      /\ Response.body (Middlewares.response (snd out)) = Response.Text ""
      /\ cors_set (Middlewares.response (snd out)))
  /\ (Request.method (Middlewares.request s) <> "OPTIONS"%string ->
      exists s' : Middlewares.Exchange,
        out = MiddlewarePipeline.run (MiddlewarePipeline.of_list post) tt tt
                final_handler s'
        /\ Middlewares.request s' = Middlewares.request s
        /\ Response.status_code (Middlewares.response s')
           = Response.status_code (Middlewares.response s)
        /\ Response.body (Middlewares.response s')
           = Response.body (Middlewares.response s)
        /\ cors_set (Middlewares.response s')).
Proof.
  cbn zeta. rewrite !run_nest. cbn [MiddlewarePipeline.nest].
  unfold MiddlewarePipeline.skips_next, Middlewares.cors.
  split; [| split].
  - intros origins Ho. unfold Middlewares.cors_allowed. now rewrite Ho.
  - intros Hm.
    destruct (Middlewares.expose_headers c), (Middlewares.allow_credentials c);
      cbn [Middlewares.request Middlewares.set_header Middlewares.set_response];
      rewrite Hm;
      unfold Response.get_header, Middlewares.set_header,
        Middlewares.set_response, Response.set_header;
      cbn [String.eqb Ascii.eqb Bool.eqb fst snd Middlewares.request
        Middlewares.response Response.status_code Response.body
        Response._headers];
      rewrite ?dict_get_set; cbn [String.eqb Ascii.eqb Bool.eqb];
      repeat split; intros; trivial; discriminate.
  - intros Hm. apply String.eqb_neq in Hm.
    destruct (Middlewares.expose_headers c), (Middlewares.allow_credentials c);
      cbn [Middlewares.request Middlewares.set_header Middlewares.set_response];
      rewrite Hm;
      (eexists; split; [reflexivity |]);
      unfold Response.get_header, Middlewares.set_header,
        Middlewares.set_response, Response.set_header;
      cbn [Middlewares.request Middlewares.response Response.status_code
        Response.body Response._headers];
      rewrite ?dict_get_set; cbn [String.eqb Ascii.eqb Bool.eqb];
      repeat split; intros; trivial; discriminate.
Qed.

(** A preflight request from an origin that is not on the list. *)
Lemma cors_preflight_witness :
  let c := Middlewares.cors_init
             (Middlewares.OriginList ["https://app.example"]%string)
             None None None 600 false in
  let req := Request.mk "OPTIONS" "10.0.0.1" "http" "localhost"
               (fun name => if String.eqb name "Origin"
                            then Some "https://evil.example"%string else None)
               None in
  let out := MiddlewarePipeline.run
               (MiddlewarePipeline.of_list
                  [Middlewares.cors string "res" c]) tt tt
               (fun _ _ s => ("handled"%string, s))
               (Middlewares.mkExchange req Response.init) in
  fst out = "res"%string
  /\ Response.get_header (Middlewares.response (snd out))
       "Access-Control-Allow-Origin" = Some EmptyString.
Proof.
  cbn zeta.
  pose proof (proj1 (proj2 (cors_preflight string "res"
    (Middlewares.cors_init
       (Middlewares.OriginList ["https://app.example"]%string)
       None None None 600 false)
    [] (fun _ _ s => ("handled"%string, s))
    (Middlewares.mkExchange
       (Request.mk "OPTIONS" "10.0.0.1" "http" "localhost"
          (fun name => if String.eqb name "Origin"
                       then Some "https://evil.example"%string else None)
          None)
       Response.init))) eq_refl) as (_ & Hres & _ & _ & _ & Horigin & _).
  split; [exact Hres | exact Horigin].
Defined.

(** * Calls in flight *)

Section InFlightFacts.
Variables Req W : Type.
Variable _serve_static : Req -> MiddlewarePipeline.M (PhotonAPI.St W) bool.
Variable dispatch :
  MiddlewarePipeline.FinalHandler Req unit PhotonAPI.Result (PhotonAPI.St W).

Import PhotonAPI.

Local Abbreviation step' := (step Req W _serve_static dispatch).
Local Abbreviation interleave' := (interleave Req W _serve_static dispatch).

(** The [try] block reads the flag and never writes it, nor the counter. *)
Lemma try_block_fields (a : t Req W) (req : Req) :
  let a1 := snd (try_block Req W _serve_static dispatch a req) in
  _active_requests a1 = _active_requests a
  /\ _shutting_down a1 = _shutting_down a.
Proof.
  unfold try_block. destruct (_shutting_down a) eqn:E; cbn.
  - now split.
  - destruct (_serve_static req (Response.init, world a)) as [served [res w]].
    destruct served; cbn; [now split |].
    destruct (MiddlewarePipeline.run _ _ _ _ _) as [result [res1 w1]].
    destruct result; cbn; now split.
Qed.

Lemma step_balance (req : Req) (a : t Req W) (pc : Pc) :
  let out := step' req a pc in
  _active_requests (fst out) - in_flight (snd out)
  = _active_requests a - in_flight pc
  /\ _shutting_down (fst out) = _shutting_down a.
Proof.
  destruct pc as [| | o | o]; cbn.
  - split; [lia | trivial].
  - pose proof (try_block_fields a req) as H. cbn zeta in H.
    destruct (try_block Req W _serve_static dispatch a req) as [o a1].
    cbn in *. split; [lia | tauto].
  - split; [lia | trivial].
  - split; [lia | trivial].
Qed.

Lemma in_flight_total_insert (calls : list (Req * Pc)) (i : nat) (req : Req)
    (pc pc1 : Pc) :
  calls !! i = Some (req, pc) ->
  in_flight_total Req (<[i := (req, pc1)]> calls)
  = in_flight_total Req calls - in_flight pc + in_flight pc1.
Proof.
  revert i. induction calls as [| [r0 p0] calls IH]; intros [| i] H;
    try discriminate.
  - cbn in *. injection H as -> ->. lia.
  - specialize (IH i H). cbn in *.
    transitivity (in_flight p0
                  + (in_flight_total Req calls - in_flight pc + in_flight pc1));
      [f_equal; exact IH | lia].
Qed.

Lemma in_flight_total_bounds (calls : list (Req * Pc)) :
  0 <= in_flight_total Req calls <= Z.of_nat (length calls).
Proof.
  induction calls as [| [r0 p0] calls IH]; cbn [in_flight_total length].
  - lia.
  - destruct p0; cbn [in_flight]; lia.
Qed.

Lemma in_flight_total_returned (calls : list (Req * Pc)) :
  Forall (fun c => exists out, snd c = Returned out) calls ->
  in_flight_total Req calls = 0.
Proof.
  induction 1 as [| [r0 p0] calls [o Ho] _ IH]; cbn; trivial.
  cbn in Ho. subst p0. cbn. lia.
Qed.

Lemma interleave_balance (schedule : list nat) (a : t Req W)
    (calls : list (Req * Pc)) :
  let out := interleave' schedule a calls in
  _active_requests (fst out) - in_flight_total Req (snd out)
  = _active_requests a - in_flight_total Req calls
  /\ _shutting_down (fst out) = _shutting_down a
  /\ length (snd out) = length calls.
Proof.
  revert a calls. induction schedule as [| i schedule IH]; intros a calls;
    cbn [interleave].
  - now repeat split.
  - destruct (calls !! i) as [[req pc] |] eqn:E; [| apply IH].
    pose proof (step_balance req a pc) as [Hb Hf]. cbn zeta in Hb, Hf.
    destruct (step' req a pc) as [a1 pc1]. cbn [fst snd] in Hb, Hf.
    destruct (IH a1 (<[i := (req, pc1)]> calls)) as (IH1 & IH2 & IH3).
    pose proof (in_flight_total_insert calls i req pc pc1 E) as Hi.
    rewrite length_insert in IH3.
    cbn zeta in *. repeat split; trivial; [lia | congruence].
Qed.

End InFlightFacts.

(** X27: calls served by several threads, their steps interleaved in
    any order.  At every moment the counter [_active_requests] is its
    value before the calls plus the number of calls that have passed
    their increment and not yet their [finally] block; it never drops
    below the value it started from; once every call has returned it
    is back to that value, so the loop of [_graceful_shutdown] that
    waits for the counter to reach zero waits for exactly the calls in
    flight.  No call sets or clears the shutting-down flag. *)
Theorem active_requests_counts_in_flight (Req W : Type)
    (_serve_static : Req -> MiddlewarePipeline.M (PhotonAPI.St W) bool)
    (dispatch : MiddlewarePipeline.FinalHandler Req unit PhotonAPI.Result
                  (PhotonAPI.St W))
    (schedule : list nat) (a : PhotonAPI.t Req W) (reqs : list Req) :
  let calls := map (fun req => (req, PhotonAPI.AtEntry)) reqs in
  let out := PhotonAPI.interleave Req W _serve_static dispatch schedule a
               calls in
  let n := PhotonAPI._active_requests a in
  PhotonAPI._active_requests (fst out)
  = n + PhotonAPI.in_flight_total Req (snd out)
  /\ n <= PhotonAPI._active_requests (fst out) <= n + Z.of_nat (length reqs)
  /\ (Forall (fun c => exists o, snd c = PhotonAPI.Returned o) (snd out) ->
      PhotonAPI._active_requests (fst out) = n)
  /\ PhotonAPI._shutting_down (fst out) = PhotonAPI._shutting_down a.
Proof.
  cbn zeta.
  destruct (interleave_balance Req W _serve_static dispatch schedule a
              (map (fun req => (req, PhotonAPI.AtEntry)) reqs))
    as (Hb & Hf & Hl).
  cbn zeta in Hb, Hf, Hl.
  assert (H0 : PhotonAPI.in_flight_total Req
                 (map (fun req => (req, PhotonAPI.AtEntry)) reqs) = 0).
  { clear. induction reqs as [| r reqs IH];
      cbn [map PhotonAPI.in_flight_total PhotonAPI.in_flight]; lia. }
  rewrite H0 in Hb. rewrite length_map in Hl.
  pose proof (in_flight_total_bounds Req
                (snd (PhotonAPI.interleave Req W _serve_static dispatch
                        schedule a
                        (map (fun req => (req, PhotonAPI.AtEntry)) reqs))))
    as Hbd.
  rewrite Hl in Hbd.
  repeat split; trivial; try lia.
  intros Hret. apply in_flight_total_returned in Hret. lia.
Qed.

(** Two calls, the second entering while the first is in its [try]
    block: the counter reads 2 there, and 0 when both have returned. *)
Lemma active_requests_counts_in_flight_witness :
  let app := PhotonAPI.mk unit unit false 0 MiddlewarePipeline.init tt in
  let run schedule :=
    PhotonAPI._active_requests
      (fst (PhotonAPI.interleave unit unit
              (fun _ => MiddlewarePipeline.ret false)
              (fun _ _ => MiddlewarePipeline.ret PhotonAPI.NotStream)
              schedule app
              (map (fun req => (req, PhotonAPI.AtEntry)) [tt; tt]))) in
  run [0; 1]%nat = 2 /\ run [0; 1; 1; 0; 0; 1]%nat = 0.
Proof.
  cbn zeta. split.
  - rewrite (proj1 (active_requests_counts_in_flight unit unit
                      (fun _ => MiddlewarePipeline.ret false)
                      (fun _ _ => MiddlewarePipeline.ret PhotonAPI.NotStream)
                      [0; 1]%nat
                      (PhotonAPI.mk unit unit false 0 MiddlewarePipeline.init tt)
                      [tt; tt])).
    reflexivity.
  - rewrite (proj1 (active_requests_counts_in_flight unit unit
                      (fun _ => MiddlewarePipeline.ret false)
                      (fun _ _ => MiddlewarePipeline.ret PhotonAPI.NotStream)
                      [0; 1; 1; 0; 0; 1]%nat
                      (PhotonAPI.mk unit unit false 0 MiddlewarePipeline.init tt)
                      [tt; tt])).
    reflexivity.
Defined.

(** * Streamed answers *)

(** X28: when the pipeline returns a [StreamResponse], [__call__]
    starts the response with the stream's own status and headers only:
    first Content-Type with the stream's content type, then the
    stream's headers in their order, those whose name in lower case is
    a hop-by-hop header left out.  Nothing of the response object is
    sent: the status, the headers and the cookies that handlers and
    middlewares put on it do not reach the server. *)
Theorem stream_headers_filtered (Req W : Type)
    (_serve_static : Req -> MiddlewarePipeline.M (PhotonAPI.St W) bool)
    (dispatch : MiddlewarePipeline.FinalHandler Req unit PhotonAPI.Result
                  (PhotonAPI.St W))
    (a : PhotonAPI.t Req W) (req : Req) (res0 res : Response.t) (w0 w : W)
    (status : Z) (content_type : string) (headers : list (string * string)) :
  PhotonAPI._shutting_down a = false ->
  _serve_static req (Response.init, PhotonAPI.world a) = (false, (res0, w0)) ->
  MiddlewarePipeline.run (PhotonAPI._middleware a) req tt dispatch (res0, w0)
  = (PhotonAPI.Stream status content_type headers, (res, w)) ->
  exists sent : list (string * string),
    PhotonAPI.try_block Req W _serve_static dispatch a req
    = (PhotonAPI.WsgiStream status
         (("Content-Type"%string, content_type) :: sent),
       PhotonAPI.set_world Req W a w)
    /\ sublist sent headers
    /\ forall k v,
         In (k, v) sent
         <-> In (k, v) headers /\ ~ In (Str.lower k) PhotonAPI.hop_by_hop.
Proof.
  intros Hflag Hstatic Hrun. unfold PhotonAPI.try_block.
  rewrite Hflag, Hstatic, Hrun.
  eexists. split; [reflexivity |]. split.
  - clear. induction headers as [| kv hs IH]; cbn [List.filter].
    + constructor.
    + destruct (negb _); [now apply sublist_skip | now apply sublist_cons].
  - intros k v. rewrite List.filter_In. cbn [fst].
    rewrite negb_true_iff, <- not_true_iff_false, List.existsb_exists.
    split; intros [Hin Hno]; split; trivial.
    + intros Hk. apply Hno. exists (Str.lower k). split; trivial.
      apply String.eqb_refl.
    + intros (x & Hx & Heq). apply String.eqb_eq in Heq. now subst x.
Qed.

(** An event stream whose headers ask to keep the connection alive,
    answered by an application whose handler also set a header on the
    response object: neither header is sent. *)
Lemma stream_headers_filtered_witness :
  let dispatch :=
    (fun (_ : unit) (_ : unit) (s : PhotonAPI.St unit) =>
       (PhotonAPI.Stream 200 "text/event-stream"
          [("Cache-Control", "no-cache"); ("Connection", "keep-alive")]%string,
        (Response.set_header (fst s) "X-Frame-Options" "DENY", snd s))) in
  let a := PhotonAPI.mk unit unit false 0 MiddlewarePipeline.init tt in
  exists sent,
    PhotonAPI.try_block unit unit (fun _ => MiddlewarePipeline.ret false)
      dispatch a tt
    = (PhotonAPI.WsgiStream 200
         (("Content-Type"%string, "text/event-stream"%string) :: sent), a)
    /\ ~ In ("Connection", "keep-alive")%string sent
    /\ In ("Cache-Control", "no-cache")%string sent.
Proof.
  cbn zeta.
  destruct (stream_headers_filtered unit unit
              (fun _ => MiddlewarePipeline.ret false)
              (fun (_ : unit) (_ : unit) (s : PhotonAPI.St unit) =>
                 (PhotonAPI.Stream 200 "text/event-stream"
                    [("Cache-Control", "no-cache");
                     ("Connection", "keep-alive")]%string,
                  (Response.set_header (fst s) "X-Frame-Options" "DENY",
                   snd s)))
              (PhotonAPI.mk unit unit false 0 MiddlewarePipeline.init tt) tt
              Response.init
              (Response.set_header Response.init "X-Frame-Options" "DENY")
              tt tt 200 "text/event-stream"
              [("Cache-Control", "no-cache"); ("Connection", "keep-alive")]%string
              eq_refl eq_refl eq_refl) as (sent & Heq & _ & Hin).
  exists sent. split; [exact Heq |]. split.
  - intros H. apply Hin in H as [_ H]. apply H. vm_compute. tauto.
  - apply Hin. split; [now left |]. vm_compute. intuition discriminate.
Defined.
